(** * u-express [src/utils.js]: routing patterns, proxy trust, conditional requests

    A shallow embedding of the helper functions of [src/utils.js] and of the
    host facilities they call (JavaScript strings, numbers, [RegExp]),
    followed by the properties established for them.

    Conventions.
    - A JavaScript string is a [string]: a sequence of code units below 256.
    - A JavaScript number is a [number]: [NaN] or an integer (time values
      and hop counts are integers; fractions do not occur in what follows).
    - A value that may be [undefined] is an [option].
    - A call that may throw returns a [completion]. *)

From Stdlib Require Import ZArith Lia Bool List Ascii String.
From stdpp Require Import base option list strings gmap.

Local Open Scope string_scope.
Local Open Scope char_scope.

(** ** The host language *)

Module JS.

(** Error classes of the host that the modelled code can meet. [PatternError]
    is the class the design document asks of the pattern compiler. *)
Inductive error : Type :=
  | SyntaxError
  | TypeError
  | PatternError.

(** Outcome of a call: a value, an exception, or [Beyond] when the input
    leaves the fragment of the host that is modelled here. *)
Inductive completion (A : Type) : Type :=
  | Normal (a : A)
  | Throw (e : error)
  | Beyond.
Arguments Normal {A} a.
Arguments Throw {A} e.
Arguments Beyond {A}.

(** Numbers: [NaN] or an integer. *)
Inductive number : Type :=
  | NaN
  | Num (z : Z).

Definition isNaN (n : number) : bool :=
  match n with NaN => true | Num _ => false end.

(** [a < b], [a > b], [a <= b]: any comparison with [NaN] is false. *)
Definition lt (a b : number) : bool :=
  match a, b with Num x, Num y => (x <? y)%Z | _, _ => false end.
Definition gt (a b : number) : bool := lt b a.
Definition le (a b : number) : bool :=
  match a, b with Num x, Num y => (x <=? y)%Z | _, _ => false end.

(** Truthiness of a possibly-undefined string: [undefined] and [''] are
    falsy. *)
Definition truthy (v : option string) : bool :=
  match v with
  | None => false
  | Some s => negb (String.eqb s "")
  end.

(** [s.startsWith(p)]. *)
Fixpoint startsWith (p s : string) : bool :=
  match p, s with
  | EmptyString, _ => true
  | String a p', String b s' => Ascii.eqb a b && startsWith p' s'
  | String _ _, EmptyString => false
  end.

(** [s.includes(p)]. *)
Fixpoint includes (p s : string) : bool :=
  startsWith p s ||
  match s with
  | EmptyString => false
  | String _ s' => includes p s'
  end.

(** The code unit [c] occurs in [s]. *)
Definition occurs (c : ascii) (s : string) : Prop :=
  In c (list_ascii_of_string s).

(** [s.substring(n)] for [n] within the string. *)
Fixpoint drop (n : nat) (s : string) : string :=
  match n, s with
  | O, _ => s
  | S n', String _ s' => drop n' s'
  | S _, EmptyString => EmptyString
  end.

(** [s.substring(0, n)]. *)
Fixpoint take (n : nat) (s : string) : string :=
  match n, s with
  | O, _ => EmptyString
  | S n', String c s' => String c (take n' s')
  | S _, EmptyString => EmptyString
  end.

(** [s.substring(a, b)] for [a <= b]. *)
Definition substring (a b : nat) (s : string) : string :=
  take (b - a) (drop a s).

(** [s.replaceAll(p, r)] for a non-empty search string [p]: occurrences are
    found left to right and do not overlap. [skip] counts the code units of
    the occurrence being replaced that are still to be passed over. *)
Fixpoint replaceAll_from (skip : nat) (p r s : string) : string :=
  match s with
  | EmptyString => EmptyString
  | String c s' =>
      match skip with
      | S k => replaceAll_from k p r s'
      | O =>
          if startsWith p s
          then r ++ replaceAll_from (String.length p - 1) p r s'
          else String c (replaceAll_from O p r s')
      end
  end.

Definition replaceAll (p r s : string) : string := replaceAll_from 0 p r s.

(** Character classes of the host's regular expressions. *)
Definition is_digit (c : ascii) : bool :=
  let n := nat_of_ascii c in (48 <=? n)%nat && (n <=? 57)%nat.
Definition is_alpha (c : ascii) : bool :=
  let n := nat_of_ascii c in
  ((65 <=? n)%nat && (n <=? 90)%nat) || ((97 <=? n)%nat && (n <=? 122)%nat).
(** [\w] *)
Definition is_word (c : ascii) : bool :=
  is_alpha c || is_digit c || Ascii.eqb c "_".
(** Line terminators, which [.] does not match. *)
Definition is_line_terminator (c : ascii) : bool :=
  Ascii.eqb c "010" || Ascii.eqb c "013".
(** [\s] within the code units below 256. *)
Definition is_space (c : ascii) : bool :=
  let n := nat_of_ascii c in
  ((9 <=? n)%nat && (n <=? 13)%nat) || (n =? 32)%nat || (n =? 160)%nat.

End JS.

(** ** Regular expressions of the host

    [new RegExp(src)] is modelled by a lexer and a parser for the patterns
    without flags ([Regex.RegExp_new]); [exec], [test] and
    [String.prototype.replace] by a backtracking matcher in
    continuation-passing style, after the matcher semantics of ECMA-262. *)

Module Regex.
Import JS.

Inductive class_item : Type :=
  | CChar (c : ascii)
  | CRange (a b : ascii)
  | CDigit (neg : bool)
  | CWord (neg : bool)
  | CSpace (neg : bool).

Inductive regex : Type :=
  | REmpty
  | RChar (c : ascii)
  | RAny
  | RClass (neg : bool) (items : list class_item)
  | RSeq (r1 r2 : regex)
  | RAlt (r1 r2 : regex)
  | RRepeat (r : regex) (min : nat) (max : option nat) (greedy : bool)
  | RGroup (idx : nat) (name : option string) (r : regex)
  | RLook (neg : bool) (r : regex)
  | RBol
  | REol.

Definition item_mem (c : ascii) (i : class_item) : bool :=
  match i with
  | CChar d => Ascii.eqb c d
  | CRange a b =>
      (nat_of_ascii a <=? nat_of_ascii c)%nat && (nat_of_ascii c <=? nat_of_ascii b)%nat
  | CDigit neg => xorb neg (is_digit c)
  | CWord neg => xorb neg (is_word c)
  | CSpace neg => xorb neg (is_space c)
  end.

Definition class_mem (items : list class_item) (c : ascii) : bool :=
  existsb (item_mem c) items.

(** Indices of the capture groups inside a pattern. *)
Fixpoint groups_of (r : regex) : list nat :=
  match r with
  | RSeq r1 r2 | RAlt r1 r2 => groups_of r1 ++ groups_of r2
  | RRepeat r' _ _ _ | RLook _ r' => groups_of r'
  | RGroup i _ r' => i :: groups_of r'
  | _ => []
  end.

(** Matcher state: index of the next code unit, the input from there on,
    and the captures so far. *)
Record mstate : Type := MState {
  pos : nat;
  rest : string;
  caps : gmap nat string
}.

Definition advance (x : mstate) (s' : string) : mstate :=
  MState (S (pos x)) s' (caps x).

Definition clear_caps (idxs : list nat) (x : mstate) : mstate :=
  MState (pos x) (rest x) (foldr (fun i cs => delete i cs) (caps x) idxs).

Definition one_char (p : ascii -> bool) (x : mstate)
    (k : mstate -> option mstate) : option mstate :=
  match rest x with
  | String d s' => if p d then k (advance x s') else None
  | EmptyString => None
  end.

Definition orelse {A} (a b : option A) : option A :=
  match a with Some z => Some z | None => b end.

Section RepeatMatcher.

(** RepeatMatcher of ECMA-262, for a body matcher [body] whose capture
    groups are [inner], followed by the continuation [k]. An iteration
    that matches the empty string once the minimum is reached fails, so
    [min + length (rest x) + 1] rounds are enough; [fuel] counts them. *)
Variable body : mstate -> (mstate -> option mstate) -> option mstate.
Variable inner : list nat.
Variable greedy : bool.
Variable k : mstate -> option mstate.

Fixpoint repeat_matcher (fuel : nat) (min : nat) (max : option nat)
    (x : mstate) {struct fuel} : option mstate :=
  match fuel with
  | O => None
  | S fuel' =>
      match max with
      | Some O => k x
      | _ =>
          let d := fun y : mstate =>
            if (min =? 0)%nat && (pos y =? pos x)%nat then None
            else repeat_matcher fuel' (Nat.pred min) (Nat.pred <$> max) y in
          let xr := clear_caps inner x in
          if negb (min =? 0)%nat then body xr d
          else if greedy then orelse (body xr d) (k x)
          else orelse (k x) (body xr d)
      end
  end.

End RepeatMatcher.

(** [m r x k]: match [r] at [x], then the continuation [k]; [None] is
    failure, and makes the caller try its next choice. *)
Fixpoint m (r : regex) (x : mstate) (k : mstate -> option mstate)
    {struct r} : option mstate :=
  match r with
  | REmpty => k x
  | RChar c => one_char (Ascii.eqb c) x k
  | RAny => one_char (fun d => negb (is_line_terminator d)) x k
  | RClass neg items => one_char (fun d => xorb neg (class_mem items d)) x k
  | RSeq r1 r2 => m r1 x (fun y => m r2 y k)
  | RAlt r1 r2 => orelse (m r1 x k) (m r2 x k)
  | RRepeat r' min max greedy =>
      repeat_matcher (m r') (groups_of r') greedy k
        (min + String.length (rest x) + 1)%nat min max x
  | RGroup i _ r' =>
      m r' x (fun y =>
        k (MState (pos y) (rest y)
             (<[i := take (pos y - pos x) (rest x)]> (caps y))))
  | RLook false r' =>
      match m r' x Some with
      | Some y => k (MState (pos x) (rest x) (caps y))
      | None => None
      end
  | RLook true r' =>
      match m r' x Some with
      | Some _ => None
      | None => k x
      end
  | RBol => if (pos x =? 0)%nat then k x else None
  | REol => match rest x with EmptyString => k x | _ => None end
  end.

(** A match attempt at one index. *)
Definition exec_at (r : regex) (i : nat) (s : string) : option mstate :=
  m r (MState i s ∅) Some.

(** [exec] without the sticky flag: the first index from [i] on at which
    the pattern matches. [s] is the input from index [i] on. *)
Fixpoint search (r : regex) (i : nat) (s : string) : option (nat * mstate) :=
  match exec_at r i s with
  | Some y => Some (i, y)
  | None =>
      match s with
      | EmptyString => None
      | String _ s' => search r (S i) s'
      end
  end.

(** [re.test(s)] *)
Definition test (r : regex) (s : string) : bool :=
  match search r 0 s with Some _ => true | None => false end.

(** [s.replace(re, fn)] for a pattern with the [g] flag: matches are taken
    left to right without overlap; after an empty match the search resumes
    one code unit further. [fn] receives the matched text and the captures.
    [skip] counts the code units of the current match still to pass over. *)
Fixpoint replace_from (skip : nat) (r : regex)
    (fn : string -> gmap nat string -> string) (i : nat) (s : string)
    : string :=
  match s with
  | EmptyString =>
      match skip, exec_at r i EmptyString with
      | O, Some y => fn EmptyString (caps y)
      | _, _ => EmptyString
      end
  | String c s' =>
      match skip with
      | S j => replace_from j r fn (S i) s'
      | O =>
          match exec_at r i s with
          | Some y =>
              let len := (pos y - i)%nat in
              fn (take len s) (caps y) ++
              match len with
              | O => String c (replace_from O r fn (S i) s')
              | S j => replace_from j r fn (S i) s'
              end
          | None => String c (replace_from O r fn (S i) s')
          end
      end
  end.

Definition replace_g (r : regex) (fn : string -> gmap nat string -> string)
    (s : string) : string :=
  replace_from 0 r fn 0 s.

(** *** Lexical analysis of a pattern source *)

Inductive group_kind : Type :=
  | GCapture (name : option string)
  | GNonCapture
  | GLook (neg : bool).

Inductive token : Type :=
  | TAtom (r : regex)
  | TAssert (r : regex)
  | TAlt
  | TOpen (g : group_kind)
  | TClose
  | TQuant (min : nat) (max : option nat) (greedy : bool).

(** Result of reading one lexeme: the token and the number of code units
    it spans. *)
Inductive lexeme : Type :=
  | One (t : token) (n : nat)
  | OneErr
  | OneBeyond.

Definition is_ascii7 (c : ascii) : bool := (nat_of_ascii c <? 128)%nat.
Definition is_id_start (c : ascii) : bool :=
  is_alpha c || Ascii.eqb c "_" || Ascii.eqb c "$".
Definition is_id_part (c : ascii) : bool := is_id_start c || is_digit c.

Inductive name_result : Type :=
  | NameOk (name : string) (n : nat)
  | NameErr
  | NameBeyond.

(** The rest of a group name up to and including its [>]. *)
Fixpoint read_name_rest (s : string) : name_result :=
  match s with
  | EmptyString => NameErr
  | String c s' =>
      if Ascii.eqb c ">" then NameOk EmptyString 1
      else if is_id_part c then
        match read_name_rest s' with
        | NameOk n k => NameOk (String c n) (S k)
        | e => e
        end
      else if is_ascii7 c then NameErr
      else NameBeyond
  end.

(** A group name: an identifier followed by [>]. *)
Definition read_name (s : string) : name_result :=
  match s with
  | EmptyString => NameErr
  | String c _ =>
      if is_id_start c then read_name_rest s
      else if is_ascii7 c then NameErr
      else NameBeyond
  end.

(** A run of decimal digits: its value and its length. *)
Fixpoint read_digits (acc : nat) (s : string) : nat * nat :=
  match s with
  | String c s' =>
      if is_digit c then
        let '(v, k) := read_digits (10 * acc + (nat_of_ascii c - 48)) s' in
        (v, S k)
      else (acc, O)
  | EmptyString => (acc, O)
  end.

(** The part of a braced quantifier after its [{]: bounds and length. *)
Definition read_braces (s : string) : option (nat * option nat * nat) :=
  let '(lo, k) := read_digits 0 s in
  match k with
  | O => None
  | _ =>
      match drop k s with
      | String "}" _ => Some (lo, Some lo, S k)
      | String "," s1 =>
          match s1 with
          | String "}" _ => Some (lo, None, S (S k))
          | _ =>
              let '(hi, j) := read_digits 0 s1 in
              match j, drop j s1 with
              | S _, String "}" _ => Some (lo, Some hi, (k + j + 2)%nat)
              | _, _ => None
              end
          end
      | _ => None
      end
  end.

Inductive escape : Type :=
  | EscChar (c : ascii)
  | EscClass (i : class_item)
  | EscBeyond.

(** The escape [\e], common to atoms and classes. *)
Definition read_escape (e : ascii) : escape :=
  if Ascii.eqb e "d" then EscClass (CDigit false)
  else if Ascii.eqb e "D" then EscClass (CDigit true)
  else if Ascii.eqb e "w" then EscClass (CWord false)
  else if Ascii.eqb e "W" then EscClass (CWord true)
  else if Ascii.eqb e "s" then EscClass (CSpace false)
  else if Ascii.eqb e "S" then EscClass (CSpace true)
  else if Ascii.eqb e "t" then EscChar "009"
  else if Ascii.eqb e "n" then EscChar "010"
  else if Ascii.eqb e "v" then EscChar "011"
  else if Ascii.eqb e "f" then EscChar "012"
  else if Ascii.eqb e "r" then EscChar "013"
  else if is_digit e || Ascii.eqb e "b" || Ascii.eqb e "B" || Ascii.eqb e "c"
          || Ascii.eqb e "x" || Ascii.eqb e "u" || Ascii.eqb e "k"
          || negb (is_ascii7 e)
  then EscBeyond
  else EscChar e.

Inductive class_result : Type :=
  | ClsOk (items : list class_item) (n : nat)
  | ClsErr
  | ClsBeyond.

Definition cls_cons (i : class_item) (k : nat) (r : class_result) : class_result :=
  match r with
  | ClsOk items n => ClsOk (i :: items) (k + n)
  | e => e
  end.

(** A hyphen that makes a range of the member before it: it is followed
    by something other than the closing bracket. *)
Definition range_follows (s : string) : bool :=
  match s with
  | String "-" (String b _) => negb (Ascii.eqb b "]")
  | _ => false
  end.

(** The members of a class up to and including its []]. A range whose
    lower or upper end is written as an escape is left out of the model. *)
Fixpoint read_class (s : string) : class_result :=
  match s with
  | EmptyString => ClsErr
  | String a s1 =>
      if Ascii.eqb a "]" then ClsOk [] 1
      else if Ascii.eqb a "\" then
        match s1 with
        | EmptyString => ClsErr
        | String e s2 =>
            if range_follows s2 then ClsBeyond
            else
              match read_escape e with
              | EscChar c => cls_cons (CChar c) 2 (read_class s2)
              | EscClass i => cls_cons i 2 (read_class s2)
              | EscBeyond => ClsBeyond
              end
        end
      else
        match s1 with
        | String "-" (String b s3) =>
            if Ascii.eqb b "]" then cls_cons (CChar a) 1 (read_class s1)
            else if Ascii.eqb b "\" then ClsBeyond
            else if (nat_of_ascii b <? nat_of_ascii a)%nat then ClsErr
            else cls_cons (CRange a b) 3 (read_class s3)
        | _ => cls_cons (CChar a) 1 (read_class s1)
        end
  end.

(** A quantifier of [n] code units, made lazy by a following [?]. *)
Definition quantifier (min : nat) (max : option nat) (n : nat) (after : string)
    : lexeme :=
  match max with
  | Some hi => if (hi <? min)%nat then OneErr else
      match after with
      | String "?" _ => One (TQuant min max false) (S n)
      | _ => One (TQuant min max true) n
      end
  | None =>
      match after with
      | String "?" _ => One (TQuant min max false) (S n)
      | _ => One (TQuant min max true) n
      end
  end.

(** The lexeme at the head of a non-empty source. *)
Definition lex_one (s : string) : lexeme :=
  match s with
  | EmptyString => OneErr
  | String c s1 =>
      if Ascii.eqb c "^" then One (TAssert RBol) 1
      else if Ascii.eqb c "$" then One (TAssert REol) 1
      else if Ascii.eqb c "." then One (TAtom RAny) 1
      else if Ascii.eqb c "|" then One TAlt 1
      else if Ascii.eqb c ")" then One TClose 1
      else if Ascii.eqb c "*" then quantifier 0 None 1 s1
      else if Ascii.eqb c "+" then quantifier 1 None 1 s1
      else if Ascii.eqb c "?" then quantifier 0 (Some 1%nat) 1 s1
      else if Ascii.eqb c "{" then
        match read_braces s1 with
        | Some (lo, hi, k) => quantifier lo hi (S k) (drop k s1)
        | None => One (TAtom (RChar c)) 1
        end
      else if Ascii.eqb c "(" then
        match s1 with
        | String "?" s2 =>
            match s2 with
            | String ":" _ => One (TOpen GNonCapture) 3
            | String "=" _ => One (TOpen (GLook false)) 3
            | String "!" _ => One (TOpen (GLook true)) 3
            | String "<" s3 =>
                if startsWith "=" s3 || startsWith "!" s3 then OneBeyond
                else
                  match read_name s3 with
                  | NameOk name k => One (TOpen (GCapture (Some name))) (3 + k)
                  | NameErr => OneErr
                  | NameBeyond => OneBeyond
                  end
            | _ => OneErr
            end
        | _ => One (TOpen (GCapture None)) 1
        end
      else if Ascii.eqb c "[" then
        match s1 with
        | String "^" s2 =>
            match read_class s2 with
            | ClsOk items k => One (TAtom (RClass true items)) (2 + k)
            | ClsErr => OneErr
            | ClsBeyond => OneBeyond
            end
        | _ =>
            match read_class s1 with
            | ClsOk items k => One (TAtom (RClass false items)) (1 + k)
            | ClsErr => OneErr
            | ClsBeyond => OneBeyond
            end
        end
      else if Ascii.eqb c "\" then
        match s1 with
        | EmptyString => OneErr
        | String e _ =>
            match read_escape e with
            | EscChar d => One (TAtom (RChar d)) 2
            | EscClass i => One (TAtom (RClass false [i])) 2
            | EscBeyond => OneBeyond
            end
        end
      else One (TAtom (RChar c)) 1
  end.

Definition tok_cons (t : token) (r : completion (list token))
    : completion (list token) :=
  match r with
  | Normal ts => Normal (t :: ts)
  | e => e
  end.

(** The tokens of a source; [skip] counts the code units of the current
    lexeme still to pass over. *)
Fixpoint lex_from (skip : nat) (s : string) : completion (list token) :=
  match s with
  | EmptyString => Normal []
  | String _ s' =>
      match skip with
      | S k => lex_from k s'
      | O =>
          match lex_one s with
          | One t n => tok_cons t (lex_from (n - 1) s')
          | OneErr => Throw SyntaxError
          | OneBeyond => Beyond
          end
      end
  end.

Definition lex (s : string) : completion (list token) := lex_from 0 s.

(** *** Syntactic analysis *)

(** A group under construction: its kind and index, the alternatives
    completed so far and the terms of the current alternative (both latest
    first); a term carries whether a quantifier may follow it. *)
Record frame : Type := Frame {
  f_kind : group_kind;
  f_idx : nat;
  f_alts : list regex;
  f_seq : list (regex * bool)
}.

Fixpoint seq_of (rs : list regex) : regex :=
  match rs with
  | [] => REmpty
  | [r] => r
  | r :: rs' => RSeq r (seq_of rs')
  end.

Fixpoint alt_of (rs : list regex) : regex :=
  match rs with
  | [] => REmpty
  | [r] => r
  | r :: rs' => RAlt r (alt_of rs')
  end.

Definition close_seq (f : frame) : regex := seq_of (rev (map fst (f_seq f))).

(** The disjunction a frame stands for. *)
Definition body_of (f : frame) : regex :=
  alt_of (rev (close_seq f :: f_alts f)).

Definition node_of (f : frame) : regex :=
  match f_kind f with
  | GCapture name => RGroup (f_idx f) name (body_of f)
  | GNonCapture => body_of f
  | GLook neg => RLook neg (body_of f)
  end.

Definition push_term (t : regex * bool) (f : frame) : frame :=
  Frame (f_kind f) (f_idx f) (f_alts f) (t :: f_seq f).

(** [parse_from cur stack next ts]: [cur] is the innermost open group,
    [stack] the enclosing ones, [next] the index of the next capture
    group. [None] is a syntax error. *)
Fixpoint parse_from (cur : frame) (stack : list frame) (next : nat)
    (ts : list token) : option regex :=
  match ts with
  | [] =>
      match stack with
      | [] => Some (body_of cur)
      | _ :: _ => None
      end
  | t :: ts' =>
      match t with
      | TAtom r => parse_from (push_term (r, true) cur) stack next ts'
      | TAssert r => parse_from (push_term (r, false) cur) stack next ts'
      | TAlt =>
          parse_from (Frame (f_kind cur) (f_idx cur)
                        (close_seq cur :: f_alts cur) []) stack next ts'
      | TOpen g =>
          match g with
          | GCapture _ =>
              parse_from (Frame g next [] []) (cur :: stack) (S next) ts'
          | _ => parse_from (Frame g 0 [] []) (cur :: stack) next ts'
          end
      | TClose =>
          match stack with
          | [] => None
          | parent :: stack' =>
              parse_from (push_term (node_of cur, true) parent) stack' next ts'
          end
      | TQuant lo hi greedy =>
          match f_seq cur with
          | (r, true) :: terms =>
              parse_from (Frame (f_kind cur) (f_idx cur) (f_alts cur)
                            ((RRepeat r lo hi greedy, false) :: terms))
                stack next ts'
          | _ => None
          end
      end
  end.

Definition parse (ts : list token) : option regex :=
  parse_from (Frame GNonCapture 0 [] []) [] 1 ts.

(** The group names of a pattern, in source order. *)
Fixpoint group_names (ts : list token) : list string :=
  match ts with
  | [] => []
  | TOpen (GCapture (Some n)) :: ts' => n :: group_names ts'
  | _ :: ts' => group_names ts'
  end.

(** Whether some element occurs twice. *)
Fixpoint has_dup (l : list string) : bool :=
  match l with
  | [] => false
  | x :: l' => existsb (String.eqb x) l' || has_dup l'
  end.

(** A compiled expression: its source and its syntax tree. *)
Record RegExp : Type := MkRegExp {
  source : string;
  ast : regex
}.

(** The names of the groups inside a pattern. *)
Fixpoint names_in (r : regex) : list string :=
  match r with
  | RSeq r1 r2 | RAlt r1 r2 => names_in r1 ++ names_in r2
  | RRepeat r' _ _ _ | RLook _ r' => names_in r'
  | RGroup _ (Some n) r' => n :: names_in r'
  | RGroup _ None r' => names_in r'
  | _ => []
  end.

Definition overlap (l1 l2 : list string) : bool :=
  existsb (fun n => existsb (String.eqb n) l2) l1.

(** Whether two groups of one name may both take part in a match: they
    do unless they lie in different alternatives. *)
Fixpoint name_clash (r : regex) : bool :=
  match r with
  | RSeq r1 r2 =>
      name_clash r1 || name_clash r2 || overlap (names_in r1) (names_in r2)
  | RAlt r1 r2 => name_clash r1 || name_clash r2
  | RRepeat r' _ _ _ | RLook _ r' => name_clash r'
  | RGroup _ (Some n) r' => name_clash r' || existsb (String.eqb n) (names_in r')
  | RGroup _ None r' => name_clash r'
  | _ => false
  end.

(** [new RegExp(src)]: a [SyntaxError] for a source that is not a pattern,
    among which the sources that give one name to two groups. Up to its
    2024 edition ECMA-262 rejects every repeated name; from the 2025
    edition on, a name may be repeated in different alternatives: a
    source that does only that is left out of the model. *)
Definition RegExp_new (src : string) : completion RegExp :=
  match lex src with
  | Normal ts =>
      match parse ts with
      | Some r =>
          if has_dup (group_names ts) then
            if name_clash r then Throw SyntaxError else Beyond
          else Normal (MkRegExp src r)
      | None => Throw SyntaxError
      end
  | Throw e => Throw e
  | Beyond => Beyond
  end.

(** The named groups of a pattern, with their indices. *)
Fixpoint named_groups (r : regex) : list (string * nat) :=
  match r with
  | RSeq r1 r2 | RAlt r1 r2 => named_groups r1 ++ named_groups r2
  | RRepeat r' _ _ _ | RLook _ r' => named_groups r'
  | RGroup i (Some n) r' => (n, i) :: named_groups r'
  | RGroup _ None r' => named_groups r'
  | _ => []
  end.

(** [re.exec(s).groups]: the named captures of the first match. *)
Definition RegExp_groups (re : RegExp) (s : string)
    : option (list (string * option string)) :=
  match search (ast re) 0 s with
  | Some (_, y) =>
      Some (map (fun g => (fst g, caps y !! snd g)) (named_groups (ast re)))
  | None => None
  end.

(** [re.test(s)] on a compiled expression. *)
Definition RegExp_test (re : RegExp) (s : string) : bool := test (ast re) s.

End Regex.

(** ** The functions of [src/utils.js] *)

Module Utils.
Import JS Regex.

(** A route pattern is a string or a compiled expression
    ([pattern instanceof RegExp]). *)
Inductive pattern : Type :=
  | PString (s : string)
  | PRegExp (re : RegExp).

(** The regular expression literal [/\/{2,}/g]. *)
Definition slashes_re : regex := RRepeat (RChar "/") 2 None true.

(** [removeDuplicateSlashes(path)]: [path.replace(/\/{2,}/g, '/')] *)
Definition removeDuplicateSlashes (path : string) : string :=
  replace_g slashes_re (fun _ _ => "/"%string) path.

(** The regular expression literal [/:(\w+)(\(.+?\))?/g]. *)
Definition param_re : regex :=
  RSeq (RChar ":")
    (RSeq (RGroup 1 None (RRepeat (RClass false [CWord false]) 1 None true))
       (RRepeat
          (RGroup 2 None
             (RSeq (RChar "(") (RSeq (RRepeat RAny 1 None false) (RChar ")"))))
          0 (Some 1%nat) true)).

(** The replacement function of [patternToRegex]:
    [(match, param, regex) => `(?<${param}>${regex ? regex + '($|\\/)' : '[^/]+'})`] *)
Definition param_group (_ : string) (cs : gmap nat string) : string :=
  let param := default EmptyString (cs !! 1%nat) in
  let regex := cs !! 2%nat in
  ("(?<" ++ param ++ ">" ++
   (if truthy regex then default EmptyString regex ++ "($|\/)" else "[^/]+")
   ++ ")")%string.

(** The source text that [patternToRegex] hands to [new RegExp]. *)
Definition regexPattern_of (pattern : string) : string :=
  replace_g param_re param_group
    (replaceAll "*" "(.*)" (replaceAll "-" "\-" (replaceAll "." "\." pattern))).

Definition regex_source (pattern : string) (isPrefix : bool) : string :=
  ("^" ++ regexPattern_of pattern ++ (if isPrefix then "(?=$|/)" else "$"))%string.

(** [patternToRegex(pattern, isPrefix = false)] *)
Definition patternToRegex (pattern : pattern) (isPrefix : bool)
    : completion RegExp :=
  match pattern with
  | PRegExp re => Normal re
  | PString p =>
      if isPrefix && String.eqb p "" then RegExp_new ""
      else RegExp_new (regex_source p isPrefix)
  end.

(** The characters that both classification tests look for, and the one
    that only [needsConversionToRegex] looks for. *)
Definition special9 : list ascii := ["*"; "?"; "+"; "("; ")"; "{"; "}"; "["; "]"].
Definition param_mark : ascii := ":".

(** [needsConversionToRegex(pattern)] *)
Definition needsConversionToRegex (pattern : pattern) : bool :=
  match pattern with
  | PRegExp _ => false
  | PString p =>
      if String.eqb p "/*" then false
      else
        includes "*" p || includes "?" p || includes "+" p ||
        includes "(" p || includes ")" p || includes ":" p ||
        includes "{" p || includes "}" p || includes "[" p ||
        includes "]" p
  end.

(** [canBeOptimized(pattern)] *)
Definition canBeOptimized (pattern : pattern) : bool :=
  match pattern with
  | PRegExp _ => false
  | PString p =>
      if String.eqb p "/*" then false
      else if
        includes "*" p || includes "?" p || includes "+" p ||
        includes "(" p || includes ")" p ||
        includes "{" p || includes "}" p || includes "[" p ||
        includes "]" p
      then false
      else true
  end.

(** *** Query strings *)

Section QueryParser.

(** The two parsers are the packages [fast-querystring] and [qs]; the
    dispatcher is parametric in them, in the parsed result and in the
    options of [qs]. *)
Variable ParsedQuery : Type.
Variable Options : Type.
Variable querystring_parse : string -> ParsedQuery.
Variable qs_parse : string -> Options -> ParsedQuery.

(** The test that guards the call of [querystring.parse]. *)
Definition fast_path (query : string) : bool :=
  (String.length query <=? 128)%nat &&
  (negb (includes "[" query) && negb (includes "%5B" query) &&
   negb (includes "." query) && negb (includes "%2E" query)).

(** [fastQueryParse(query, options)] *)
Definition fastQueryParse (query : string) (options : Options) : ParsedQuery :=
  if (String.length query <=? 128)%nat then
    if negb (includes "[" query) && negb (includes "%5B" query) &&
       negb (includes "." query) && negb (includes "%2E" query)
    then querystring_parse query
    else qs_parse query options
  else qs_parse query options.

End QueryParser.

(** *** Proxy trust *)

(** A trust predicate: [(address, hopIndex) => boolean]. *)
Definition TrustPredicate : Type := string -> Z -> bool.

#[local] Set Warnings "-register-all".

(** The values a [trust proxy] setting can hold. [VObject] stands for any
    other object. *)
Inductive value : Type :=
  | VUndefined
  | VNull
  | VBool (b : bool)
  | VNumber (n : number)
  | VString (s : string)
  | VArray (vs : list value)
  | VFunction (f : TrustPredicate)
  | VObject.

(** Truthiness of a value. *)
Definition to_boolean (v : value) : bool :=
  match v with
  | VUndefined | VNull => false
  | VBool b => b
  | VNumber NaN => false
  | VNumber (Num z) => negb (z =? 0)%Z
  | VString s => negb (String.eqb s "")
  | VArray _ | VFunction _ | VObject => true
  end.

(** [s.split(',')]: at least one piece, also for the empty string. *)
Fixpoint split_comma (s : string) : list string :=
  match s with
  | EmptyString => [EmptyString]
  | String c s' =>
      if Ascii.eqb c "," then EmptyString :: split_comma s'
      else
        match split_comma s' with
        | piece :: pieces => String c piece :: pieces
        | [] => [String c EmptyString]
        end
  end.

Fixpoint trimStart (s : string) : string :=
  match s with
  | String c s' => if is_space c then trimStart s' else s
  | EmptyString => EmptyString
  end.

Fixpoint trimEnd (s : string) : string :=
  match s with
  | EmptyString => EmptyString
  | String c s' =>
      match trimEnd s' with
      | EmptyString => if is_space c then EmptyString else String c EmptyString
      | t => String c t
      end
  end.

(** [s.trim()] *)
Definition trim (s : string) : string := trimEnd (trimStart s).

Section Trust.

(** [proxyaddr.compile] of the package [proxy-addr]. *)
Variable proxyaddr_compile : value -> completion TrustPredicate.

(** [compileTrust(val)] *)
Definition compileTrust (val : value) : completion TrustPredicate :=
  match val with
  | VFunction f => Normal f
  | VBool true => Normal (fun _ _ => true)
  | VNumber n => Normal (fun _ i => lt (Num i) n)
  | VString s =>
      let val := VArray (map (fun v => VString (trim v)) (split_comma s)) in
      proxyaddr_compile (if to_boolean val then val else VArray [])
  | _ => proxyaddr_compile (if to_boolean val then val else VArray [])
  end.

End Trust.

(** *** Conditional requests *)

(** [parseTokenList(str)]: [cs] is the input from index [i] on; [start],
    [end_] and [list_] are the variables [start], [end] and [list] of the
    loop. *)
Fixpoint parseTokenList_loop (str cs : string) (i start end_ : nat)
    (list_ : list string) : list string :=
  match cs with
  | EmptyString =>
      if negb (start =? end_)%nat then list_ ++ [substring start end_ str]
      else list_
  | String c cs' =>
      if Ascii.eqb c " " then
        if (start =? end_)%nat
        then parseTokenList_loop str cs' (S i) (S i) (S i) list_
        else parseTokenList_loop str cs' (S i) start end_ list_
      else if Ascii.eqb c "," then
        parseTokenList_loop str cs' (S i) (S i) (S i)
          (if negb (start =? end_)%nat
           then list_ ++ [substring start end_ str] else list_)
      else parseTokenList_loop str cs' (S i) start (S i) list_
  end.

Definition parseTokenList (str : string) : list string :=
  parseTokenList_loop str str 0 0 0 [].

(** A request, as far as these functions read it: [req.headers]. *)
Record request : Type := Request {
  headers : gmap string string
}.

(** A response, as far as these functions read it: [res.get(name)]. *)
Record response : Type := Response {
  get : string -> option string
}.

Section Conditional.

(** [Date.parse] of the host: a time value in milliseconds, or [NaN]. *)
Variable Date_parse : string -> number.

(** [parseHttpDate(date)]: [date && Date.parse(date)] is a number only for
    a non-empty string. *)
Definition parseHttpDate (date : option string) : number :=
  match date with
  | Some d => if String.eqb d "" then NaN else Date_parse d
  | None => NaN
  end.

(** [isPreconditionFailure(req, res)] *)
Definition isPreconditionFailure (req : request) (res : response) : bool :=
  let match_ := headers req !! "if-match"%string in
  if truthy match_ then
    let match_ := default EmptyString match_ in
    let etag := get res "etag" in
    negb (truthy etag) ||
    (let etag := default EmptyString etag in
     negb (String.eqb match_ "*") &&
     forallb (fun tok =>
                negb (String.eqb tok etag) &&
                negb (String.eqb tok ("W/" ++ etag)) &&
                negb (String.eqb ("W/" ++ tok) etag))
       (parseTokenList match_))
  else
    let unmodifiedSince :=
      parseHttpDate (headers req !! "if-unmodified-since"%string) in
    if negb (isNaN unmodifiedSince) then
      let lastModified := parseHttpDate (get res "Last-Modified") in
      isNaN lastModified || gt lastModified unmodifiedSince
    else false.

(** The double quote, code unit 34. *)
Definition dquote : string := String "034" EmptyString.

(** [isRangeFresh(req, res)] *)
Definition isRangeFresh (req : request) (res : response) : bool :=
  let ifRange := headers req !! "if-range"%string in
  if negb (truthy ifRange) then true
  else
    let ifRange := default EmptyString ifRange in
    if includes dquote ifRange then
      let etag := get res "etag" in
      truthy etag && includes (default EmptyString etag) ifRange
    else
      let lastModified := get res "Last-Modified" in
      le (parseHttpDate lastModified) (parseHttpDate (Some ifRange)).

End Conditional.

End Utils.

(** ** [Date.parse] on HTTP dates

    [Date.parse] accepts a host-defined set of formats, and the results
    about the conditional requests hold for any [Date_parse]. What every
    host reads alike is the preferred format of HTTP dates (IMF-fixdate,
    [Sun, 06 Nov 1994 08:49:37 GMT]): [IMF.parse] reads a valid date in
    this format and says nothing about any other text, which
    [IMF.Date_parse_with] leaves to the host. The sample runs are made
    with [IMF.Date_parse], a host that reads no other text; they use it
    on IMF-fixdates and on a text that no host reads as a date. *)

Module IMF.
Import JS.

Local Open Scope Z_scope.

Definition digit (c : ascii) : option Z :=
  if is_digit c then Some (Z.of_nat (nat_of_ascii c) - 48) else None.

(** The value of a string of decimal digits. *)
Fixpoint digits (acc : Z) (s : string) : option Z :=
  match s with
  | EmptyString => Some acc
  | String c s' =>
      match digit c with
      | Some d => digits (10 * acc + d) s'
      | None => None
      end
  end.

Definition number_of (s : string) : option Z :=
  match s with
  | EmptyString => None
  | _ => digits 0 s
  end.

Definition day_names : list string :=
  ["Mon"; "Tue"; "Wed"; "Thu"; "Fri"; "Sat"; "Sun"]%string.

Definition month_names : list string :=
  ["Jan"; "Feb"; "Mar"; "Apr"; "May"; "Jun";
   "Jul"; "Aug"; "Sep"; "Oct"; "Nov"; "Dec"]%string.

(** Position of a name in a table, counted from 1. *)
Fixpoint index_of (x : string) (l : list string) (i : Z) : option Z :=
  match l with
  | [] => None
  | y :: l' => if String.eqb x y then Some i else index_of x l' (i + 1)
  end.

(** Days from 1970-01-01 to the given day of the proleptic Gregorian
    calendar. *)
Definition days_from_civil (y mo d : Z) : Z :=
  let y' := if mo <=? 2 then y - 1 else y in
  let era := y' / 400 in
  let yoe := y' - era * 400 in
  let doy := (153 * (if mo >? 2 then mo - 3 else mo + 9) + 2) / 5 + d - 1 in
  let doe := yoe * 365 + yoe / 4 - yoe / 100 + doy in
  era * 146097 + doe - 719468.

Definition in_range (lo hi : Z) (v : option Z) : option Z :=
  match v with
  | Some z => if (lo <=? z) && (z <=? hi) then Some z else None
  | None => None
  end.

(** The days of a month. *)
Definition days_in_month (y mo : Z) : Z :=
  if mo =? 2 then
    if ((y mod 4 =? 0) && negb (y mod 100 =? 0)) || (y mod 400 =? 0)
    then 29 else 28
  else if (mo =? 4) || (mo =? 6) || (mo =? 9) || (mo =? 11) then 30
  else 31.

(** The day of the week of a date, from 1 for Monday to 7 for Sunday. *)
Definition day_of_week (y mo d : Z) : Z :=
  (days_from_civil y mo d + 3) mod 7 + 1.

(** The time value of an IMF-fixdate: the text names a date that exists,
    with the day of the week that it has, in a year of four digits from
    1000 on. [None] for any other text. *)
Definition parse (s : string) : option Z :=
  let sub a b := JS.substring a b s in
  if negb (String.length s =? 29)%nat then None
  else if negb (String.eqb (sub 3 5) ", " && String.eqb (sub 7 8) " " &&
                String.eqb (sub 11 12) " " && String.eqb (sub 16 17) " " &&
                String.eqb (sub 19 20) ":" && String.eqb (sub 22 23) ":" &&
                String.eqb (sub 25 29) " GMT")%nat then None
  else
    match index_of (sub 0 3)%nat day_names 1,
          in_range 1 31 (number_of (sub 5 7)%nat),
          index_of (sub 8 11)%nat month_names 1,
          in_range 1000 9999 (number_of (sub 12 16)%nat),
          in_range 0 23 (number_of (sub 17 19)%nat),
          in_range 0 59 (number_of (sub 20 22)%nat),
          in_range 0 59 (number_of (sub 23 25)%nat) with
    | Some wd, Some d, Some mo, Some y, Some h, Some mi, Some sec =>
        if (d <=? days_in_month y mo) && (wd =? day_of_week y mo d)
        then Some ((days_from_civil y mo d * 86400 + h * 3600 + mi * 60 + sec)
                   * 1000)
        else None
    | _, _, _, _, _, _, _ => None
    end.

(** [Date.parse] of a host that makes [other] of a text that is not an
    IMF-fixdate. *)
Definition Date_parse_with (other : string -> number) (s : string) : number :=
  match parse s with
  | Some t => Num t
  | None => other s
  end.

(** The host of the sample runs: it reads no other text. *)
Definition Date_parse : string -> number := Date_parse_with (fun _ => NaN).

End IMF.

(** ** Reference functions

    Direct descriptions of what the regular-expression calls of
    [src/utils.js] compute, against which the calls are proved. *)

Module Ref.
Import JS.

(** Length of the run of a character class at the head of a string. *)
Fixpoint run (p : ascii -> bool) (s : string) : nat :=
  match s with
  | String c s' => if p c then S (run p s') else O
  | EmptyString => O
  end.

Definition is_slash (c : ascii) : bool := Ascii.eqb "/" c.

(** Every [/] that is followed by another [/] is dropped. *)
Fixpoint collapse (s : string) : string :=
  match s with
  | EmptyString => EmptyString
  | String c s' =>
      if Ascii.eqb c "/" && startsWith "/" s' then collapse s'
      else String c (collapse s')
  end.

(** [s.replaceAll(c, r)] for a search string of one code unit. *)
Fixpoint subst (c : ascii) (r s : string) : string :=
  match s with
  | EmptyString => EmptyString
  | String d s' =>
      if Ascii.eqb c d then r ++ subst c r s' else String d (subst c r s')
  end.

(** The three [replaceAll] calls of [patternToRegex]. *)
Definition escape_all (s : string) : string :=
  replaceAll "*" "(.*)" (replaceAll "-" "\-" (replaceAll "." "\." s)).

(** *** Templates made of literal characters and parameter tokens *)

Inductive segment : Type :=
  | Lit (c : ascii)
  | Param (name : string).

(** The characters with a meaning of their own in a template or in a
    pattern source. The dot and the hyphen are literal characters of a
    template: [patternToRegex] escapes them. *)
Definition is_meta (c : ascii) : bool :=
  Ascii.eqb c "^" || Ascii.eqb c "$" || Ascii.eqb c "|" || Ascii.eqb c ")" ||
  Ascii.eqb c "*" || Ascii.eqb c "+" || Ascii.eqb c "?" || Ascii.eqb c "{" ||
  Ascii.eqb c "(" || Ascii.eqb c "[" || Ascii.eqb c "\" || Ascii.eqb c "]" ||
  Ascii.eqb c "}" || Ascii.eqb c ":".

Fixpoint all_word (s : string) : bool :=
  match s with
  | EmptyString => true
  | String c s' => is_word c && all_word s'
  end.

Definition starts_with_word (s : string) : bool :=
  match s with
  | String c _ => is_word c
  | EmptyString => false
  end.

(** The text of a template. *)
Fixpoint text (segs : list segment) : string :=
  match segs with
  | [] => EmptyString
  | Lit c :: segs' => String c (text segs')
  | Param name :: segs' => (":" ++ name ++ text segs')%string
  end.

(** A literal is not a special character; a parameter name is a non-empty
    run of word characters that ends where the token ends. *)
Fixpoint well_formed (segs : list segment) : bool :=
  match segs with
  | [] => true
  | Lit c :: segs' => negb (is_meta c) && well_formed segs'
  | Param name :: segs' =>
      negb (String.eqb name "") && all_word name &&
      negb (starts_with_word (text segs')) && well_formed segs'
  end.

(** The parameter names of a template, in order. *)
Fixpoint names (segs : list segment) : list string :=
  match segs with
  | [] => []
  | Lit _ :: segs' => names segs'
  | Param name :: segs' => name :: names segs'
  end.

(** A literal character after the escaping of dots and hyphens. *)
Definition escaped (c : ascii) : string :=
  if Ascii.eqb c "." then "\."
  else if Ascii.eqb c "-" then "\-"
  else String c EmptyString.

(** The text of a template after the three [replaceAll] of
    [patternToRegex]. *)
Fixpoint escaped_text (segs : list segment) : string :=
  match segs with
  | [] => EmptyString
  | Lit c :: segs' => (escaped c ++ escaped_text segs')%string
  | Param name :: segs' => (":" ++ name ++ escaped_text segs')%string
  end.

(** The pattern source of a template: a named group for each parameter. *)
Fixpoint source_text (segs : list segment) : string :=
  match segs with
  | [] => EmptyString
  | Lit c :: segs' => (escaped c ++ source_text segs')%string
  | Param name :: segs' =>
      ("(?<" ++ name ++ ">[^/]+)" ++ source_text segs')%string
  end.

(** The assertion [(?=$|/)]. *)
Definition boundary : Regex.regex :=
  Regex.RLook false (Regex.RAlt Regex.REol (Regex.RChar "/")).

Definition at_boundary (s : string) : bool :=
  match s with
  | EmptyString => true
  | String c _ => Ascii.eqb "/" c
  end.

(** The class [\w] as the matcher meets it. *)
Definition p_word (d : ascii) : bool :=
  xorb false (Regex.class_mem [Regex.CWord false] d).

(** What may follow a parameter token: neither a word character nor an
    opening parenthesis. *)
Definition ends_token (s : string) : bool :=
  match s with
  | String c _ => negb (is_word c) && negb (Ascii.eqb "(" c)
  | EmptyString => true
  end.

(** A parameter name that is a group name: it does not start with a
    digit. *)
Definition valid_name (name : string) : bool :=
  match name with
  | String c _ => Regex.is_id_start c
  | EmptyString => false
  end.

(** The tokens of the pattern source of a template. *)
Fixpoint tokens_of (segs : list segment) : list Regex.token :=
  match segs with
  | [] => []
  | Lit c :: segs' => Regex.TAtom (Regex.RChar c) :: tokens_of segs'
  | Param name :: segs' =>
      Regex.TOpen (Regex.GCapture (Some name)) ::
      Regex.TAtom (Regex.RClass true [Regex.CChar "/"]) ::
      Regex.TQuant 1 None true ::
      Regex.TClose :: tokens_of segs'
  end.

(** The group that stands for a parameter. *)
Definition param_term (idx : nat) (name : string) : Regex.regex :=
  Regex.RGroup idx (Some name)
    (Regex.RRepeat (Regex.RClass true [Regex.CChar "/"]) 1 None true).

(** The terms of the pattern of a template; [next] is the index of the
    next capture group. *)
Fixpoint terms_of (next : nat) (segs : list segment) : list Regex.regex :=
  match segs with
  | [] => []
  | Lit c :: segs' => Regex.RChar c :: terms_of next segs'
  | Param name :: segs' => param_term next name :: terms_of (S next) segs'
  end.

(** Terms that a quantifier may follow. *)
Definition quantifiable (rs : list Regex.regex) : list (Regex.regex * bool) :=
  map (fun r => (r, true)) rs.

Definition tok_app (ts : list Regex.token) (r : completion (list Regex.token))
    : completion (list Regex.token) :=
  match r with
  | Normal ts' => Normal (ts ++ ts')%list
  | e => e
  end.

End Ref.

(** ** The two query-string parsers

    The parsers behind [fastQueryParse] are packages, not part of
    [src/utils.js]; the dispatcher is parametric in them. The definitions
    below follow the description of the two parsers in the design
    document, to run the dispatcher on concrete query strings. *)

Module QueryString.
Import JS.

#[local] Set Warnings "-register-all".

(** A parsed value: a string, a sequence of strings or a nested mapping. *)
Inductive qvalue : Type :=
  | QStr (s : string)
  | QSeq (l : list string)
  | QObj (fields : gmap string qvalue).

(** ParsedQuery: keys are unique at each level and their order does not
    matter. *)
Definition ParsedQuery : Type := gmap string qvalue.

(** Percent-decoding of the code units below 128; [+] is a space. An
    escape that is malformed, or stands for a byte from 128 on, is kept as
    it is. *)
Definition hex_val (c : ascii) : option nat :=
  let n := nat_of_ascii c in
  if is_digit c then Some (n - 48)%nat
  else if (65 <=? n)%nat && (n <=? 70)%nat then Some (n - 55)%nat
  else if (97 <=? n)%nat && (n <=? 102)%nat then Some (n - 87)%nat
  else None.

Fixpoint decode (s : string) : string :=
  match s with
  | EmptyString => EmptyString
  | String c s1 =>
      if Ascii.eqb c "+" then String " " (decode s1)
      else if Ascii.eqb c "%" then
        match s1 with
        | String h (String l s3) =>
            match hex_val h, hex_val l with
            | Some a, Some b =>
                if (16 * a + b <? 128)%nat
                then String (ascii_of_nat (16 * a + b)) (decode s3)
                else String c (decode s1)
            | _, _ => String c (decode s1)
            end
        | _ => String c (decode s1)
        end
      else String c (decode s1)
  end.

(** The pieces between the occurrences of a delimiter. *)
Fixpoint split_on (d : ascii) (s : string) : list string :=
  match s with
  | EmptyString => [EmptyString]
  | String c s' =>
      if Ascii.eqb c d then EmptyString :: split_on d s'
      else
        match split_on d s' with
        | piece :: pieces => String c piece :: pieces
        | [] => [String c EmptyString]
        end
  end.

(** Key and value of a piece: what comes before and after its first [=]. *)
Fixpoint key_value (part : string) : string * string :=
  match part with
  | EmptyString => (EmptyString, EmptyString)
  | String c s' =>
      if Ascii.eqb c "=" then (EmptyString, s')
      else let '(k, v) := key_value s' in (String c k, v)
  end.

(** A key met again gathers its values in a sequence. *)
Definition add_value (old : option qvalue) (v : string) : qvalue :=
  match old with
  | None => QStr v
  | Some (QStr u) => QSeq [u; v]
  | Some (QSeq l) => QSeq (l ++ [v])
  | Some (QObj o) => QObj o
  end.

Definition flat_add (acc : ParsedQuery) (part : string) : ParsedQuery :=
  if String.eqb part "" then acc
  else
    let '(k, v) := key_value part in
    let k := decode k in
    <[k := add_value (acc !! k) (decode v)]> acc.

(** Modelled from the spec: the flat parser ([querystring.parse] of the
    package [fast-querystring], which is not in [src/]): a flat key=value
    parser with no nesting support; [a=1&b=2] gives a: 1, b: 2. *)
Definition flat_parse (query : string) : ParsedQuery :=
  foldl flat_add ∅ (split_on "&" query).


(** The limits a caller can set: delimiter character, maximum nesting
    depth, maximum array length, and whether dots nest. *)
Record options : Type := Options {
  delimiter : ascii;
  depth : nat;
  arrayLimit : nat;
  allowDots : bool
}.

Definition default_options : options := Options "&" 5 20 false.

(** The segments of a key: [a[b][c]] and, with dots allowed, [a.b.c] name
    the path a, b, c; [a[]] ends in an empty segment. *)
Fixpoint key_path (dots inside : bool) (s : string) : list string :=
  match s with
  | EmptyString => [EmptyString]
  | String c s' =>
      if Ascii.eqb c "[" && negb inside then EmptyString :: key_path dots true s'
      else if Ascii.eqb c "]" && inside then key_path dots false s'
      else if Ascii.eqb c "." && dots && negb inside
      then EmptyString :: key_path dots false s'
      else
        match key_path dots inside s' with
        | p :: ps => String c p :: ps
        | [] => [String c EmptyString]
        end
  end.

Fixpoint bracketed (segs : list string) : string :=
  match segs with
  | [] => EmptyString
  | p :: ps => ("[" ++ p ++ "]" ++ bracketed ps)%string
  end.

(** A path cut at the maximum nesting depth: what lies deeper stays one
    key. *)
Definition limit_depth (d : nat) (path : list string) : list string :=
  match path with
  | [] => []
  | parent :: children =>
      if (length children <=? d)%nat then path
      else parent :: firstn d children ++ [bracketed (skipn d children)]
  end.

(** An array position: empty brackets, or an index within the limit. *)
Definition is_index (limit : nat) (p : string) : bool :=
  match p with
  | EmptyString => true
  | _ =>
      forallb is_digit (list_ascii_of_string p) &&
      (fst (Regex.read_digits 0 p) <=? limit)%nat
  end.

Definition add_item (old : option qvalue) (v : string) : qvalue :=
  match old with
  | None => QSeq [v]
  | Some (QStr u) => QSeq [u; v]
  | Some (QSeq l) => QSeq (l ++ [v])
  | Some (QObj o) => QObj o
  end.

Definition fields_of (old : option qvalue) : gmap string qvalue :=
  match old with
  | Some (QObj o) => o
  | _ => ∅
  end.

(** The value [v] stored under a path of keys. *)
Fixpoint insert_at (limit : nat) (path : list string) (v : string)
    (acc : ParsedQuery) : ParsedQuery :=
  match path with
  | [] => acc
  | [k] => <[k := add_value (acc !! k) v]> acc
  | k :: (p :: ps) as rest =>
      match ps with
      | [] =>
          if is_index limit p then <[k := add_item (acc !! k) v]> acc
          else <[k := QObj (insert_at limit rest v (fields_of (acc !! k)))]> acc
      | _ => <[k := QObj (insert_at limit rest v (fields_of (acc !! k)))]> acc
      end
  end.

Definition full_add (o : options) (acc : ParsedQuery) (part : string) : ParsedQuery :=
  if String.eqb part "" then acc
  else
    let '(k, v) := key_value part in
    insert_at (arrayLimit o)
      (limit_depth (depth o) (key_path (allowDots o) false (decode k)))
      (decode v) acc.

(** Modelled from the spec: the full parser ([qs.parse] of the package
    [qs], which is not in [src/]): bracket and dot notation for nested
    objects and arrays, within the limits of the caller; [a[b]=1] gives
    a: (b: 1). A percent-encoded bracket counts as a bracket, which is why
    the fast path must not see one. *)
Definition full_parse (query : string) (o : options) : ParsedQuery :=
  foldl (full_add o) ∅ (split_on (delimiter o) query).

(** A query string without a bracket or a dot, literal or percent-encoded
    in either case. *)
Definition no_bracket (s : string) : Prop :=
  includes "[" s = false /\ includes "%5B" s = false /\ includes "%5b" s = false.
Definition no_dot (s : string) : Prop :=
  includes "." s = false /\ includes "%2E" s = false /\ includes "%2e" s = false.

End QueryString.

(** ** The argument check of [proxyaddr.compile]

    The package [proxy-addr] is not part of [src/utils.js]; [compileTrust]
    is parametric in its [compile]. To run [compileTrust] on concrete
    settings, [ProxyAddr.compile] follows the package as far as its
    argument check goes: an argument that is falsy, or neither a string nor
    an array, is rejected with a [TypeError]; so is a list with an empty
    string in it, which is no address; the empty list compiles to the
    predicate that trusts nobody. The parsing of addresses and ranges is
    beyond this model. *)

Module ProxyAddr.
Import JS Utils.

Definition trustNone : TrustPredicate := fun _ _ => false.

Definition is_empty_string (v : value) : bool :=
  match v with
  | VString s => String.eqb s ""
  | _ => false
  end.

Definition compile (val : value) : completion TrustPredicate :=
  if negb (to_boolean val) then Throw TypeError
  else
    match val with
    | VString s => Beyond
    | VArray [] => Normal trustNone
    | VArray vs => if existsb is_empty_string vs then Throw TypeError else Beyond
    | _ => Throw TypeError
    end.

End ProxyAddr.

(** ** Sample requests and responses *)

Module Samples.
Import JS Utils.

Fixpoint toLowerCase (s : string) : string :=
  match s with
  | EmptyString => EmptyString
  | String c s' =>
      let n := nat_of_ascii c in
      String (if (65 <=? n)%nat && (n <=? 90)%nat then ascii_of_nat (n + 32) else c)
        (toLowerCase s')
  end.

(** A response whose [get] looks the lower-cased name up in a store of
    headers. *)
Definition response_of (hs : gmap string string) : response :=
  Response (fun name => hs !! toLowerCase name).

Definition date_1994 : string := "Sun, 06 Nov 1994 08:49:37 GMT".
Definition date_2015 : string := "Wed, 21 Oct 2015 07:28:00 GMT".

Definition req_if_match_star : request :=
  Request {[ "if-match"%string := "*"%string ]}.
Definition req_if_range_2015 : request :=
  Request {[ "if-range"%string := date_2015 ]}.
Definition req_if_range_garbage : request :=
  Request {[ "if-range"%string := "garbage"%string ]}.
Definition req_unmodified_since_1994 : request :=
  Request {[ "if-unmodified-since"%string := date_1994 ]}.

Definition res_empty : response := response_of ∅.
Definition res_tagged : response := response_of {[ "etag"%string := "W/5-abc"%string ]}.
Definition res_modified_1994 : response :=
  response_of {[ "last-modified"%string := date_1994 ]}.
Definition res_modified_2015 : response :=
  response_of {[ "last-modified"%string := date_2015 ]}.

End Samples.

(** ** The other functions of [src/utils.js] *)

Module UtilsRest.
Import JS Regex Utils.

(** [findIndexStartingFrom(arr, fn, index = 0)]: the loop
    [for(let i = index; i < arr.length; i++)]; [fuel] bounds the rounds
    left. The result is an index or -1. *)
Fixpoint findIndex_loop {A} (arr : list A) (fn : A -> nat -> list A -> bool)
    (fuel i : nat) : Z :=
  match fuel with
  | O => (-1)%Z
  | S fuel' =>
      match arr !! i with
      | Some x => if fn x i arr then Z.of_nat i else findIndex_loop arr fn fuel' (S i)
      | None => (-1)%Z
      end
  end.

(** [findIndexStartingFrom(arr, fn, index)] for an [index] that is a
    natural number. *)
Definition findIndexStartingFrom {A} (arr : list A)
    (fn : A -> nat -> list A -> bool) (index : nat) : Z :=
  findIndex_loop arr fn (length arr - index) index.

(** The class [[\\/]] of the literal below. *)
Definition up_sep : regex := RClass false [CChar "\"; CChar "/"].

(** The regular expression literal [/(?:^|[\\/])\.\.(?:[\\/]|$)/]. *)
Definition UP_PATH_REGEXP : regex :=
  RSeq (RAlt RBol up_sep)
    (RSeq (RChar ".") (RSeq (RChar ".") (RAlt up_sep REol))).

(** [containsDotFile(parts)] *)
Fixpoint containsDotFile (parts : list string) : bool :=
  match parts with
  | [] => false
  | part :: parts' =>
      if (1 <? String.length part)%nat && startsWith "." part then true
      else containsDotFile parts'
  end.

(** The regular expression literal [/[<>&]/g]. *)
Definition escape_re : regex := RClass false [CChar "<"; CChar ">"; CChar "&"].

(** The replacement function of [stringify], a [switch] on
    [c.charCodeAt(0)] with the cases [0x3c], [0x3e] and [0x26]. *)
Definition escape_char (c : string) (_ : gmap nat string) : string :=
  match c with
  | String a _ =>
      if (nat_of_ascii a =? 60)%nat then "\u003c"%string
      else if (nat_of_ascii a =? 62)%nat then "\u003e"%string
      else if (nat_of_ascii a =? 38)%nat then "\u0026"%string
      else c
  | EmptyString => c
  end.

(** An argument was passed with a truthy value. *)
Definition given {A} (o : option A) : bool :=
  match o with Some _ => true | None => false end.

Section Stringify.

(** [JSON.stringify(value, replacer, spaces)] is a built-in of the host;
    it returns [undefined] for a value that has no JSON text. A falsy
    [replacer] or [spaces] is [None]: the built-in treats it as absent. *)
Context {Value Replacer Spaces : Type}.
Variable JSON_stringify :
  Value -> option Replacer -> option Spaces -> option string.

(** [stringify(value, replacer, spaces, escape)] *)
Definition stringify (value : Value) (replacer : option Replacer)
    (spaces : option Spaces) (escape : bool) : option string :=
  let json :=
    if given replacer || given spaces
    then JSON_stringify value replacer spaces
    else JSON_stringify value None None in
  if escape then
    match json with
    | Some j => Some (replace_g escape_re escape_char j)
    | None => None
    end
  else json.

End Stringify.

End UtilsRest.

(** ** Reference functions for the other functions *)

Module RefRest.
Import JS Regex Utils Ref.

(** Removal of every occurrence of a character. *)
Fixpoint without (c : ascii) (s : string) : string :=
  match s with
  | EmptyString => EmptyString
  | String d s' => if Ascii.eqb c d then without c s' else String d (without c s')
  end.

(** The token scan of [parseTokenList] on text rather than on indices:
    [tok] is the token read so far, [pend] the spaces met since its last
    character. *)
Fixpoint scan_tokens (tok pend cs : string) : list string :=
  match cs with
  | EmptyString => if String.eqb tok "" then [] else [tok]
  | String c cs' =>
      if Ascii.eqb c " " then
        if String.eqb tok "" then scan_tokens "" "" cs'
        else scan_tokens tok (pend ++ " ") cs'
      else if Ascii.eqb c "," then
        (if String.eqb tok "" then [] else [tok]) ++ scan_tokens "" "" cs'
      else scan_tokens (tok ++ pend ++ String c "") "" cs'
  end.

(** The last code unit is not a space. *)
Fixpoint ends_clean (t : string) : bool :=
  match t with
  | EmptyString => false
  | String c EmptyString => negb (Ascii.eqb c " ")
  | String _ t' => ends_clean t'
  end.

(** A clean token: not empty, no comma, no space at either end. *)
Definition clean_token (t : string) : bool :=
  negb (startsWith " " t) && ends_clean t && negb (includes "," t).

(** Spaces only. *)
Fixpoint all_spaces (s : string) : bool :=
  match s with
  | EmptyString => true
  | String c s' => Ascii.eqb c " " && all_spaces s'
  end.

(** [l.join(sep)] *)
Fixpoint join (sep : string) (l : list string) : string :=
  match l with
  | [] => EmptyString
  | [x] => x
  | x :: l' => (x ++ sep ++ join sep l')%string
  end.

(** Spaces and commas only: what a list may hold before its first element
    and after its last. *)
Fixpoint is_pad (s : string) : bool :=
  match s with
  | EmptyString => true
  | String c s' => (Ascii.eqb c " " || Ascii.eqb c ",") && is_pad s'
  end.

(** What stands between two elements of a list: spaces and commas, one
    comma at least. *)
Definition is_gap (s : string) : bool := is_pad s && includes "," s.

(** The element [t], then each further element after its own gap. *)
Fixpoint join_each (t : string) (rest : list (string * string)) : string :=
  match rest with
  | [] => t
  | (gap, u) :: rest' => (t ++ gap ++ join_each u rest')%string
  end.

(** A path separator of either kind. *)
Definition is_path_sep (c : ascii) : bool := Ascii.eqb c "\" || Ascii.eqb c "/".

(** The segments of [s] between the code units that satisfy [p]:
    [s.split(re)] for a pattern [re] that matches one such code unit. *)
Fixpoint split_where (p : ascii -> bool) (s : string) : list string :=
  match s with
  | EmptyString => [EmptyString]
  | String c s' =>
      if p c then EmptyString :: split_where p s'
      else
        match split_where p s' with
        | x :: xs => String c x :: xs
        | [] => [String c EmptyString]
        end
  end.

(** [s] begins with a [..] segment. *)
Definition dots (s : string) : bool :=
  match s with
  | String a (String b t) =>
      Ascii.eqb a "." && Ascii.eqb b "." &&
      match t with
      | EmptyString => true
      | String c _ => is_path_sep c
      end
  | _ => false
  end.

(** A [..] segment begins right after some separator of [s]. *)
Fixpoint dots_after (s : string) : bool :=
  match s with
  | EmptyString => false
  | String c s' => is_path_sep c && dots s' || dots_after s'
  end.

(** An attempt succeeded. *)
Definition matched {A} (o : option A) : bool :=
  match o with Some _ => true | None => false end.

(** One of the three characters that [stringify] escapes. *)
Definition is_html (c : ascii) : bool :=
  Ascii.eqb c "<" || Ascii.eqb c ">" || Ascii.eqb c "&".

(** The escape of one code unit. *)
Definition escape_unit (c : ascii) : string :=
  if Ascii.eqb c "<" then "\u003c"%string
  else if Ascii.eqb c ">" then "\u003e"%string
  else if Ascii.eqb c "&" then "\u0026"%string
  else String c EmptyString.

(** The text with every code unit escaped. *)
Fixpoint escape_html (s : string) : string :=
  match s with
  | EmptyString => EmptyString
  | String c s' => (escape_unit c ++ escape_html s')%string
  end.

(** The text with each code unit [c] replaced by the text [f c]. *)
Fixpoint expand (f : ascii -> string) (s : string) : string :=
  match s with
  | EmptyString => EmptyString
  | String c s' => (f c ++ expand f s')%string
  end.

(** The number of code units of [s] that satisfy [p]. *)
Fixpoint count (p : ascii -> bool) (s : string) : nat :=
  match s with
  | EmptyString => 0
  | String c s' => (if p c then 1 else 0) + count p s'
  end.

(** Nothing to trim at the start. *)
Definition starts_clean (s : string) : Prop :=
  match s with EmptyString => True | String c _ => is_space c = false end.

(** The class [[^/]] as the matcher meets it. *)
Definition not_slash (d : ascii) : bool :=
  xorb true (Regex.class_mem [Regex.CChar "/"] d).

(** The inputs that a template accepts when what follows it accepts the
    rest: a literal takes its own character, a parameter any non-empty run
    of characters other than [/]. *)
Fixpoint accepts (segs : list segment) (K : string -> bool) (s : string) : bool :=
  match segs with
  | [] => K s
  | Lit c :: segs' =>
      match s with
      | String d s' => Ascii.eqb c d && accepts segs' K s'
      | EmptyString => false
      end
  | Param _ :: segs' =>
      existsb (fun j => accepts segs' K (drop j s)) (seq 1 (run not_slash s))
  end.

(** The template with its parameters replaced by [vals], in order. *)
Fixpoint fill (segs : list segment) (vals : list string) : string :=
  match segs with
  | [] => EmptyString
  | Lit c :: segs' => String c (fill segs' vals)
  | Param _ :: segs' =>
      match vals with
      | v :: vals' => (v ++ fill segs' vals')%string
      | [] => fill segs' []
      end
  end.

(** A value that a parameter can take: not empty, no [/]. *)
Definition param_value (v : string) : bool :=
  negb (String.eqb v "") && negb (includes "/" v).

(** The captures after the parameters took the values [vals]: the group
    of index [next] holds the first value, and so on. *)
Fixpoint bind (next : nat) (vals : list string) (cs : gmap nat string)
    : gmap nat string :=
  match vals with
  | [] => cs
  | v :: vals' => bind (S next) vals' (<[next := v]> cs)
  end.

(** A template without special characters or parameters, from its text. *)
Definition literal_segs (p : string) : list segment :=
  map Lit (list_ascii_of_string p).

(** The opaque tag of an entity tag: the tag without its weakness mark. *)
Definition opaque (t : string) : string :=
  if startsWith "W/" t then drop 2 t else t.

(** An entity tag: a quoted text, with or without the mark [W/]. *)
Definition is_etag (t : string) : bool := startsWith dquote (opaque t).

(** The text [s] in double quotes. *)
Definition quoted (s : string) : string := (dquote ++ s ++ dquote)%string.

(** The template does not end with a parameter. *)
Fixpoint ends_lit (segs : list segment) : bool :=
  match segs with
  | [] => true
  | [Param _] => false
  | _ :: segs' => ends_lit segs'
  end.

(** No line terminator in the text: what [.*] can take to the end. *)
Fixpoint one_line (s : string) : bool :=
  match s with
  | EmptyString => true
  | String c s' => negb (is_line_terminator c) && one_line s'
  end.

(** The group that stands for a [*]. *)
Definition wild_term (idx : nat) : regex :=
  RGroup idx None (RRepeat RAny 0 None true).

End RefRest.

(** ** More sample requests and responses *)

Module SamplesRest.
Import JS Utils Samples RefRest.

Definition tag_v1 : string := quoted "v1".
Definition tag_v2 : string := quoted "v2".
Definition req_if_match_list : request :=
  Request {[ "if-match"%string := join ", " [tag_v1; ("W/" ++ tag_v2)%string] ]}.
Definition req_if_match_list_dated : request :=
  Request {[ "if-match"%string := join ", " [tag_v1; ("W/" ++ tag_v2)%string];
             "if-unmodified-since"%string := date_1994 ]}.
Definition req_if_match_spaced : request :=
  Request {[ "if-match"%string :=
    (" " ++ join_each tag_v1 [(", ", "W/" ++ tag_v2); (" ,", tag_v1)]
     ++ " ,")%string ]}.
Definition req_if_range_weak : request :=
  Request {[ "if-range"%string := ("W/" ++ tag_v2)%string ]}.
Definition res_v2 : response := response_of {[ "etag"%string := tag_v2 ]}.
Definition res_v2_modified : response :=
  response_of {[ "etag"%string := tag_v2; "last-modified"%string := date_2015 ]}.

End SamplesRest.

(** ** Splitting on a pattern *)

Module RegexSplit.
Import JS Regex.

(** [s.split(re)] for a pattern without capture groups, from index [i] on:
    [cur] is the piece since the end of the last separator, [skip] counts
    the code units of the current separator still to pass over. A match
    that is empty right after a separator does not separate. *)
Fixpoint split_from (skip : nat) (r : regex) (cur : string) (i : nat)
    (s : string) : list string :=
  match s with
  | EmptyString => [cur]
  | String c s' =>
      match skip with
      | S j => split_from j r EmptyString (S i) s'
      | O =>
          match exec_at r i s with
          | Some y =>
              match (pos y - i)%nat with
              | O =>
                  if String.eqb cur "" then split_from 0 r (String c "") (S i) s'
                  else cur :: split_from 0 r (String c "") (S i) s'
              | S j => cur :: split_from j r EmptyString (S i) s'
              end
          | None => split_from 0 r (cur ++ String c "") (S i) s'
          end
      end
  end.

(** [s.split(re)]: the empty string gives no piece when the pattern
    matches it, and itself otherwise. *)
Definition split_re (r : regex) (s : string) : list string :=
  match s with
  | EmptyString =>
      match exec_at r 0 EmptyString with
      | Some _ => []
      | None => [EmptyString]
      end
  | _ => split_from 0 r EmptyString 0 s
  end.

End RegexSplit.

(** ** The parameters of a media type *)

Module Accept.
Import JS Regex RegexSplit.

(** The regular expression literals [/ *; */] and [/ *= */]. *)
Definition sep_re (c : ascii) : regex :=
  RSeq (RRepeat (RChar " ") 0 None true)
    (RSeq (RChar c) (RRepeat (RChar " ") 0 None true)).
Definition semi_re : regex := sep_re ";".
Definition eq_re : regex := sep_re "=".

Section AcceptParams.

(** [parseFloat] is a built-in of the host; [Num] are its results, [one]
    the number 1. *)
Context {Num : Type}.
Variable one : Num.
Variable parseFloat : option string -> Num.

(** The object [ret]. A parameter without [=] has the value [undefined]. *)
Record accepted : Type := Accepted {
  value : option string;
  quality : Num;
  params : gmap string (option string)
}.

(** One round of the loop, on [parts[i]]. The key of [undefined] is the
    text [undefined]. [ret.params] is a plain object: an assignment to
    its key [__proto__] goes to the setter that it inherits from
    [Object.prototype], which takes a text or [undefined] for no
    prototype and records nothing. *)
Definition accept_step (ret : accepted) (part : string) : accepted :=
  let pms := split_re eq_re part in
  let pms_0 := pms !! 0%nat in
  let pms_1 := pms !! 1%nat in
  if bool_decide (pms_0 = Some "q"%string)
  then Accepted (value ret) (parseFloat pms_1) (params ret)
  else
    let key := default "undefined"%string pms_0 in
    if String.eqb key "__proto__" then ret
    else Accepted (value ret) (quality ret) (<[key := pms_1]> (params ret)).

(** [acceptParams(str)] *)
Definition acceptParams (str : string) : accepted :=
  let parts := split_re semi_re str in
  foldl accept_step (Accepted (parts !! 0%nat) one ∅) (tail parts).

End AcceptParams.

End Accept.

(** ** Reference functions for the parameters of a media type *)

Module RefAccept.
Import JS Regex Ref RefRest.

(** The space, as the matcher of [/ */] meets it. *)
Definition is_sp (d : ascii) : bool := Ascii.eqb " " d.

(** The length of the separator at the head of [s], if there is one:
    spaces, the character [c], spaces. *)
Definition sep_len (c : ascii) (s : string) : option nat :=
  let k := run is_sp s in
  match drop k s with
  | String d t => if Ascii.eqb c d then Some (k + 1 + run is_sp t)%nat else None
  | EmptyString => None
  end.

(** The last code unit is a space. *)
Fixpoint last_space (t : string) : bool :=
  match t with
  | EmptyString => false
  | String c EmptyString => Ascii.eqb c " "
  | String _ t' => last_space t'
  end.

(** A piece that splitting on [c] gives back as it is: not empty, no [c]
    in it, and no space at either end. *)
Definition piece (c : ascii) (t : string) : bool :=
  negb (String.eqb t "") && negb (startsWith " " t) && negb (last_space t) &&
  negb (includes (String c EmptyString) t).


Section ApplyParam.
Context {Num : Type}.
Variable parseFloat : option string -> Num.


End ApplyParam.








End RefAccept.

(** * Properties *)

Import JS Regex Utils.

(** ** Sample runs *)

(** The two regular expression literals of [src/utils.js], as [new RegExp]
    reads their sources. *)
Example slashes_re_source :
  RegExp_new "\/{2,}" = Normal (MkRegExp "\/{2,}" slashes_re).
Proof. reflexivity. Qed.

Example param_re_source :
  RegExp_new ":(\w+)(\(.+?\))?" = Normal (MkRegExp ":(\w+)(\(.+?\))?" param_re).
Proof. reflexivity. Qed.

Example regex_source_samples :
  regex_source "/user/:id" false = "^/user/(?<id>[^/]+)$"%string /\
  regex_source "/files" true = "^/files(?=$|/)"%string /\
  regex_source "/*" false = "^/(.*)$"%string /\
  regex_source "/v1.0/a-b" false = "^/v1\.0/a\-b$"%string /\
  regex_source "/:id(\d+)/x" true = "^/(?<id>(\d+)($|\/))/x(?=$|/)"%string.
Proof. by vm_compute. Qed.

Example user_id_sample :
  exists re,
    patternToRegex (PString "/user/:id") false = Normal re /\
    RegExp_groups re "/user/42" = Some [("id"%string, Some "42"%string)] /\
    RegExp_test re "/user/42/extra" = false.
Proof. eexists. split; [reflexivity|]. by vm_compute. Qed.

Example wildcard_sample :
  exists re,
    patternToRegex (PString "/*") false = Normal re /\
    RegExp_test re "/anything/here" = true /\
    RegExp_test re "/" = true.
Proof. eexists. split; [reflexivity|]. by vm_compute. Qed.

(** A token inside a character class is text of the class: the template
    below holds [:a] twice and compiles to a pattern without a named
    group. *)
Example token_in_class_sample :
  exists re,
    patternToRegex (PString "([:a/]([:a/]") false = Normal re /\
    named_groups (ast re) = [].
Proof. eexists. split; [reflexivity|]. by vm_compute. Qed.

Example removeDuplicateSlashes_sample :
  removeDuplicateSlashes "/a//b///c" = "/a/b/c"%string.
Proof. by vm_compute. Qed.

Example parseTokenList_sample :
  parseTokenList "abc, W/def ,,  g h ,i" = ["abc"; "W/def"; "g h"; "i"]%string.
Proof. by vm_compute. Qed.

Example split_trim_sample :
  map trim (split_comma "loopback, 10.0.0.1 ,") = ["loopback"; "10.0.0.1"; ""]%string.
Proof. by vm_compute. Qed.

(** ** Strings *)

Lemma startsWith_char c s :
  startsWith (String c EmptyString) s =
  match s with String b _ => Ascii.eqb c b | EmptyString => false end.
Proof. destruct s as [|b s]; simpl; [done|]. by rewrite andb_true_r. Qed.

Lemma includes_char c s :
  includes (String c EmptyString) s = true <-> occurs c s.
Proof.
  unfold occurs. induction s as [|b s IH].
  - simpl. split; [discriminate | tauto].
  - change (includes (String c "") (String b s))
      with (startsWith (String c "") (String b s) || includes (String c "") s).
    rewrite startsWith_char, orb_true_iff, IH. simpl.
    rewrite Ascii.eqb_eq. intuition congruence.
Qed.

Lemma includes_char_false c s :
  includes (String c EmptyString) s = false <-> ~ occurs c s.
Proof. rewrite <- includes_char. destruct (includes _ s); intuition congruence. Qed.

(** ** Classification of patterns *)

Lemma canBeOptimized_string p :
  canBeOptimized (PString p) = true <->
  p <> "/*"%string /\ forall c, In c special9 -> ~ occurs c p.
Proof.
  unfold canBeOptimized.
  destruct (String.eqb_spec p "/*") as [->|Hne].
  - split; [discriminate | intros [H _]; congruence].
  - split.
    + intros H. split; [done|].
      destruct (includes "*" p || includes "?" p || includes "+" p ||
                includes "(" p || includes ")" p || includes "{" p ||
                includes "}" p || includes "[" p || includes "]" p) eqn:E;
        [discriminate|].
      repeat (apply orb_false_iff in E; destruct E as [E ?]).
      intros c Hc. unfold special9 in Hc. simpl in Hc.
      repeat (destruct Hc as [<-|Hc]; [by apply includes_char_false|]).
      destruct Hc.
    + intros [_ H].
      assert (Hf : forall c, In c special9 -> includes (String c "") p = false).
      { intros c Hc. apply includes_char_false. auto. }
      rewrite !Hf; [done|unfold special9; simpl; tauto..].
Qed.

Lemma needsConversionToRegex_string p :
  needsConversionToRegex (PString p) = true <->
  p <> "/*"%string /\ exists c, In c (param_mark :: special9) /\ occurs c p.
Proof.
  unfold needsConversionToRegex.
  destruct (String.eqb_spec p "/*") as [->|Hne].
  - split; [discriminate | intros [H _]; congruence].
  - rewrite !orb_true_iff, !includes_char. split.
    + intros H. split; [done|].
      unfold param_mark, special9. simpl.
      repeat (destruct H as [H|H]); eexists; (split; [|exact H]); tauto.
    + intros [_ (c & Hc & Ho)]. unfold param_mark, special9 in Hc. simpl in Hc.
      repeat (destruct Hc as [<-|Hc]; [tauto|]). destruct Hc.
Qed.

(** C4. For a string pattern, [canBeOptimized] is true exactly when the
    pattern is not ["/*"] and holds none of [* ? + ( ) { } [ ]] (a compiled
    expression is never optimizable); the colon is not looked at.
    [needsConversionToRegex] is true exactly when the pattern is not ["/*"]
    and holds one of those characters or a colon. Hence a pattern other
    than ["/*"] with a colon and none of the nine characters, such as
    ["/user/:id"], passes both tests. *)
Theorem canBeOptimized_ignores_colon :
  (forall re, canBeOptimized (PRegExp re) = false) /\
  (forall p : string,
     (canBeOptimized (PString p) = true <->
      p <> "/*"%string /\ forall c, In c special9 -> ~ occurs c p) /\
     (needsConversionToRegex (PString p) = true <->
      p <> "/*"%string /\ exists c, In c (param_mark :: special9) /\ occurs c p) /\
     (p <> "/*"%string -> occurs param_mark p ->
      (forall c, In c special9 -> ~ occurs c p) ->
      canBeOptimized (PString p) = true /\
      needsConversionToRegex (PString p) = true)) /\
  canBeOptimized (PString "/user/:id") = true /\
  needsConversionToRegex (PString "/user/:id") = true.
Proof.
  split; [done|]. split; [|by vm_compute].
  intros p. split; [apply canBeOptimized_string|].
  split; [apply needsConversionToRegex_string|].
  intros Hne Hcolon Hnone. split.
  - apply canBeOptimized_string. auto.
  - apply needsConversionToRegex_string. split; [done|].
    exists param_mark. split; [by left | done].
Qed.

(** ** The matcher on runs of one character class *)

Import Ref.

Lemma drop_0 s : drop 0 s = s.
Proof. by destruct s. Qed.

Lemma one_char_cons p i c s cs k :
  one_char p (MState i (String c s) cs) k =
  if p c then k (MState (S i) s cs) else None.
Proof. reflexivity. Qed.

Lemma one_char_nil p i cs k : one_char p (MState i EmptyString cs) k = None.
Proof. reflexivity. Qed.

(** A greedy repetition of a one-character matcher, followed by a
    continuation that accepts, takes the whole run. *)
Lemma repeat_run_greedy p fuel : forall lo i s cs,
  (run p s < fuel)%nat ->
  repeat_matcher (one_char p) [] true Some fuel lo None (MState i s cs) =
  if (lo <=? run p s)%nat
  then Some (MState (i + run p s) (drop (run p s) s) cs)
  else None.
Proof.
  induction fuel as [|fuel IH]; intros lo i s cs Hfuel; [lia|].
  cbn [repeat_matcher]. unfold clear_caps. cbn [foldr pos rest caps].
  change (Nat.pred <$> None) with (@None nat).
  assert (Hne : (S i =? i)%nat = false) by (apply Nat.eqb_neq; lia).
  destruct s as [|c s'].
  - rewrite one_char_nil. cbn [run].
    destruct lo; cbn; [|done]. by rewrite Nat.add_0_r.
  - rewrite one_char_cons. cbn [run] in *. destruct (p c) eqn:Hp.
    + cbn [pos]. rewrite Hne, andb_false_r. rewrite IH by lia.
      replace (S i + run p s')%nat with (i + S (run p s'))%nat by lia.
      cbn [drop]. destruct lo as [|lo]; cbn [Nat.eqb negb Nat.pred Nat.leb]; [done|].
      by destruct (lo <=? run p s')%nat.
    + destruct lo; cbn; [|done]. by rewrite Nat.add_0_r.
Qed.

Lemma exec_at_slashes i s :
  exec_at slashes_re i s =
  if (2 <=? run is_slash s)%nat
  then Some (MState (i + run is_slash s) (drop (run is_slash s) s) ∅)
  else None.
Proof.
  unfold exec_at, slashes_re. cbn [m groups_of rest].
  apply (repeat_run_greedy is_slash). 
  assert (H : forall t, (run is_slash t <= String.length t)%nat).
  { induction t as [|c t IHt]; cbn [run String.length]; [lia|].
    destruct (is_slash c); lia. }
  specialize (H s). lia.
Qed.

(** ** Duplicate separators *)

Lemma replace_from_skip r fn : forall j i s,
  (j <= String.length s)%nat ->
  replace_from j r fn i s = replace_from 0 r fn (i + j) (drop j s).
Proof.
  induction j as [|j IH]; intros i s Hj.
  - by rewrite Nat.add_0_r, drop_0.
  - destruct s as [|c s']; cbn [String.length] in Hj; [lia|].
    cbn [replace_from drop]. rewrite IH by lia. f_equal. lia.
Qed.

Lemma run_le_length p s : (run p s <= String.length s)%nat.
Proof.
  induction s as [|c s IH]; cbn [run String.length]; [lia|].
  destruct (p c); lia.
Qed.

Lemma length_drop n : forall s, String.length (drop n s) = (String.length s - n)%nat.
Proof.
  induction n as [|n IH]; intros [|c s]; cbn [drop String.length]; try lia.
  apply IH.
Qed.

Lemma startsWith_slash_run s :
  startsWith "/" s = negb (run is_slash s =? 0)%nat.
Proof.
  rewrite startsWith_char. destruct s as [|c s]; [done|].
  cbn [run]. unfold is_slash. by destruct (Ascii.eqb "/" c).
Qed.

Lemma is_slash_eqb c : Ascii.eqb c "/" = is_slash c.
Proof. unfold is_slash. apply Ascii.eqb_sym. Qed.

Lemma collapse_run : forall s,
  (1 <= run is_slash s)%nat ->
  collapse s = String "/" (collapse (drop (run is_slash s) s)).
Proof.
  induction s as [|c s IH]; cbn [run]; [lia|].
  destruct (is_slash c) eqn:Hc; [|lia]. intros _.
  cbn [collapse drop]. rewrite is_slash_eqb, Hc, startsWith_slash_run.
  assert (c = "/") as -> by (symmetry; by apply Ascii.eqb_eq).
  destruct (run is_slash s) as [|k] eqn:Hk.
  - cbn [Nat.eqb negb andb]. by rewrite drop_0.
  - cbn [Nat.eqb negb andb]. rewrite IH by lia. by rewrite ?Hk.
Qed.

Lemma replace_slashes n : forall s i,
  (String.length s <= n)%nat ->
  replace_from 0 slashes_re (fun _ _ => "/"%string) i s = collapse s.
Proof.
  induction n as [|n IH]; intros s i Hn.
  - destruct s; cbn [String.length] in Hn; [|lia].
    cbn [replace_from]. by rewrite exec_at_slashes.
  - destruct s as [|c s']; [cbn [replace_from]; by rewrite exec_at_slashes|].
    cbn [String.length] in Hn. cbn [replace_from]. rewrite exec_at_slashes.
    destruct (2 <=? run is_slash (String c s'))%nat eqn:E.
    + apply Nat.leb_le in E. cbn [pos].
      rewrite (collapse_run (String c s')) by lia.
      replace (i + run is_slash (String c s') - i)%nat
        with (run is_slash (String c s')) by lia.
      pose proof (run_le_length is_slash (String c s')) as Hle.
      cbn [String.length] in Hle.
      destruct (run is_slash (String c s')) as [|k] eqn:Hrun; [lia|].
      destruct k as [|k]; [lia|].
      rewrite replace_from_skip by lia.
      change (drop (S (S k)) (String c s')) with (drop (S k) s').
      rewrite IH; [done|]. rewrite length_drop. lia.
    + apply Nat.leb_gt in E. rewrite IH by lia.
      cbn [collapse]. cbn [run] in E.
      rewrite is_slash_eqb, startsWith_slash_run.
      destruct (is_slash c); [|done].
      destruct (run is_slash s'); [done|lia].
Qed.

Lemma removeDuplicateSlashes_collapse s :
  removeDuplicateSlashes s = collapse s.
Proof. apply (replace_slashes (String.length s)). lia. Qed.

Lemma startsWith_collapse s :
  startsWith "/" (collapse s) = startsWith "/" s.
Proof.
  destruct s as [|c s]; [done|].
  destruct (is_slash c) eqn:Hc.
  - rewrite collapse_run by (cbn [run]; rewrite Hc; lia).
    rewrite !startsWith_char. unfold is_slash in Hc.
    by rewrite Hc.
  - cbn [collapse]. rewrite is_slash_eqb, Hc. cbn [andb].
    by rewrite !startsWith_char.
Qed.

Lemma startsWith_2 a b s :
  startsWith (String a (String b EmptyString)) s =
  match s with
  | String c s' => Ascii.eqb a c && startsWith (String b EmptyString) s'
  | EmptyString => false
  end.
Proof. by destruct s. Qed.

Lemma includes_cons p c s :
  includes p (String c s) = startsWith p (String c s) || includes p s.
Proof. reflexivity. Qed.

Lemma collapse_no_double s : includes "//" (collapse s) = false.
Proof.
  induction s as [|c s IH]; [done|].
  cbn [collapse]. destruct (Ascii.eqb c "/" && startsWith "/" s) eqn:E; [done|].
  rewrite includes_cons, IH, orb_false_r, startsWith_2, startsWith_collapse.
  rewrite Ascii.eqb_sym. exact E.
Qed.

Lemma collapse_fixed : forall s, includes "//" s = false -> collapse s = s.
Proof.
  induction s as [|c s IH]; [done|].
  rewrite includes_cons, startsWith_2. intros H.
  apply orb_false_iff in H as [H1 H2].
  cbn [collapse]. rewrite Ascii.eqb_sym, H1. f_equal. auto.
Qed.

(** C10. [removeDuplicateSlashes] is idempotent, and its result never
    holds two consecutive [/]. *)
Theorem removeDuplicateSlashes_idempotent (s : string) :
  removeDuplicateSlashes (removeDuplicateSlashes s) = removeDuplicateSlashes s /\
  includes "//" (removeDuplicateSlashes s) = false.
Proof.
  rewrite !removeDuplicateSlashes_collapse. split.
  - apply collapse_fixed, collapse_no_double.
  - apply collapse_no_double.
Qed.

(** ** Conditional requests *)

Section ConditionalProperties.

Variable Date_parse : string -> number.

Lemma truthy_Some s : truthy (Some s) = negb (String.eqb s "").
Proof. reflexivity. Qed.

Lemma isPreconditionFailure_if_match req res hdr :
  headers req !! "if-match"%string = Some hdr ->
  hdr <> ""%string ->
  isPreconditionFailure Date_parse req res =
  negb (truthy (get res "etag")) ||
  (negb (String.eqb hdr "*") &&
   forallb (fun tok =>
              negb (String.eqb tok (default EmptyString (get res "etag"))) &&
              negb (String.eqb tok ("W/" ++ default EmptyString (get res "etag"))) &&
              negb (String.eqb ("W/" ++ tok) (default EmptyString (get res "etag"))))
     (parseTokenList hdr)).
Proof.
  intros Hm Hne. unfold isPreconditionFailure. rewrite Hm, truthy_Some.
  destruct (String.eqb_spec hdr ""); [done|]. reflexivity.
Qed.

Lemma isPreconditionFailure_no_if_match req res :
  headers req !! "if-match"%string = None ->
  isPreconditionFailure Date_parse req res =
  let unmodifiedSince :=
    parseHttpDate Date_parse (headers req !! "if-unmodified-since"%string) in
  if negb (isNaN unmodifiedSince) then
    let lastModified := parseHttpDate Date_parse (get res "Last-Modified") in
    isNaN lastModified || gt lastModified unmodifiedSince
  else false.
Proof. intros Hm. unfold isPreconditionFailure. by rewrite Hm. Qed.

Lemma gt_Num a b : gt a b = true <-> exists x y, a = Num x /\ b = Num y /\ (y < x)%Z.
Proof.
  unfold gt, lt. destruct a as [|x], b as [|y]; split;
    try discriminate; try (intros (x' & y' & ? & ? & ?); discriminate).
  - intros H. exists x, y. apply Z.ltb_lt in H. auto.
  - intros (x' & y' & [= ->] & [= ->] & H). by apply Z.ltb_lt.
Qed.

Lemma le_Num a b : le a b = true <-> exists x y, a = Num x /\ b = Num y /\ (x <= y)%Z.
Proof.
  unfold le. destruct a as [|x], b as [|y]; split;
    try discriminate; try (intros (x' & y' & ? & ? & ?); discriminate).
  - intros H. exists x, y. apply Z.leb_le in H. auto.
  - intros (x' & y' & [= ->] & [= ->] & H). by apply Z.leb_le.
Qed.

End ConditionalProperties.

Import Samples.

Example if_match_samples :
  let tagged tag := response_of {[ "etag"%string := tag ]} in
  let req := Request {[ "if-match"%string := "abc"%string ]} in
  isPreconditionFailure IMF.Date_parse req (tagged "abc"%string) = false /\
  isPreconditionFailure IMF.Date_parse req (tagged "W/abc"%string) = false /\
  isPreconditionFailure IMF.Date_parse req (tagged "xyz"%string) = true /\
  isPreconditionFailure IMF.Date_parse (Request ∅) res_empty = false.
Proof. by vm_compute. Qed.

Example if_range_samples :
  isRangeFresh IMF.Date_parse (Request ∅) res_modified_2015 = true /\
  isRangeFresh IMF.Date_parse req_if_range_2015 res_modified_2015 = true /\
  isRangeFresh IMF.Date_parse
    (Request {[ "if-range"%string := date_1994 ]}) res_modified_2015 = false.
Proof. by vm_compute. Qed.

(** C1, as stated, fails: with [If-Match: *] and no entity tag on the
    response the precondition fails. *)
Lemma if_match_star_fails_without_etag :
  headers req_if_match_star !! "if-match"%string = Some "*"%string /\
  get res_empty "etag" = None /\
  isPreconditionFailure IMF.Date_parse req_if_match_star res_empty = true.
Proof. by vm_compute. Qed.

(** C1, amended. With [If-Match: *] the precondition fails exactly when
    the response has no entity tag (none, or an empty one); when it has
    one, the precondition does not fail, whatever the tag is. *)
Theorem if_match_star (Date_parse : string -> number) (req : request)
    (res : response) :
  headers req !! "if-match"%string = Some "*"%string ->
  isPreconditionFailure Date_parse req res = negb (truthy (get res "etag")) /\
  (forall tag, get res "etag" = Some tag -> tag <> ""%string ->
     isPreconditionFailure Date_parse req res = false).
Proof.
  intros Hm.
  assert (H : isPreconditionFailure Date_parse req res =
              negb (truthy (get res "etag"))).
  { rewrite (isPreconditionFailure_if_match _ _ _ "*" Hm) by done.
    cbn [String.eqb Ascii.eqb negb andb]. apply orb_false_r. }
  split; [exact H|]. intros tag Ht Hne. rewrite H, Ht, truthy_Some.
  by destruct (String.eqb_spec tag "").
Qed.

Lemma if_match_star_witness :
  isPreconditionFailure IMF.Date_parse req_if_match_star res_tagged =
    negb (truthy (get res_tagged "etag")) /\
  (forall tag, get res_tagged "etag" = Some tag -> tag <> ""%string ->
     isPreconditionFailure IMF.Date_parse req_if_match_star res_tagged = false).
Proof.
  apply (if_match_star IMF.Date_parse req_if_match_star res_tagged).
  reflexivity.
Defined.

(** C2, as stated, fails: an [If-Range] date against a response without
    [Last-Modified], and an unparsable [If-Range] against a dated
    response, are both stale. *)
Lemma unparsable_date_is_stale :
  (headers req_if_range_2015 !! "if-range"%string = Some date_2015 /\
   includes dquote date_2015 = false /\
   parseHttpDate IMF.Date_parse (get res_empty "Last-Modified") = NaN /\
   isRangeFresh IMF.Date_parse req_if_range_2015 res_empty = false) /\
  (headers req_if_range_garbage !! "if-range"%string = Some "garbage"%string /\
   includes dquote "garbage" = false /\
   parseHttpDate IMF.Date_parse (Some "garbage"%string) = NaN /\
   isRangeFresh IMF.Date_parse req_if_range_garbage res_modified_1994 = false).
Proof. by vm_compute. Qed.

(** C2, amended. [isRangeFresh] is total. For a request with a non-empty
    [If-Range] header without a double quote, the range is fresh exactly
    when both the header and the [Last-Modified] value of the response
    parse as dates and the latter is not later than the former; when
    either does not parse, the range is stale. *)
Theorem isRangeFresh_date (Date_parse : string -> number) (req : request)
    (res : response) (hdr : string) :
  headers req !! "if-range"%string = Some hdr ->
  hdr <> ""%string ->
  includes dquote hdr = false ->
  (isRangeFresh Date_parse req res = true <->
   exists modified since : Z,
     parseHttpDate Date_parse (get res "Last-Modified") = Num modified /\
     parseHttpDate Date_parse (Some hdr) = Num since /\
     (modified <= since)%Z) /\
  (parseHttpDate Date_parse (get res "Last-Modified") = NaN \/
   parseHttpDate Date_parse (Some hdr) = NaN ->
   isRangeFresh Date_parse req res = false).
Proof.
  intros Hh Hne Hq.
  assert (H : isRangeFresh Date_parse req res =
              le (parseHttpDate Date_parse (get res "Last-Modified"))
                 (parseHttpDate Date_parse (Some hdr))).
  { unfold isRangeFresh. rewrite Hh, truthy_Some.
    destruct (String.eqb_spec hdr ""); [done|].
    cbn [negb]. change (default EmptyString (Some hdr)) with hdr.
    by rewrite Hq. }
  rewrite H. split; [apply le_Num|].
  intros [-> | ->]; [done|]. unfold le. by destruct (parseHttpDate _ _).
Qed.

Lemma isRangeFresh_date_witness :
  (isRangeFresh IMF.Date_parse req_if_range_2015 res_modified_1994 = true <->
   exists modified since : Z,
     parseHttpDate IMF.Date_parse (get res_modified_1994 "Last-Modified") = Num modified /\
     parseHttpDate IMF.Date_parse (Some date_2015) = Num since /\
     (modified <= since)%Z) /\
  (parseHttpDate IMF.Date_parse (get res_modified_1994 "Last-Modified") = NaN \/
   parseHttpDate IMF.Date_parse (Some date_2015) = NaN ->
   isRangeFresh IMF.Date_parse req_if_range_2015 res_modified_1994 = false).
Proof.
  apply (isRangeFresh_date IMF.Date_parse req_if_range_2015 res_modified_1994
           date_2015).
  - reflexivity.
  - discriminate.
  - reflexivity.
Defined.

(** C9. Without an [If-Match] header and with an [If-Unmodified-Since]
    header that parses to a time value, the precondition fails exactly
    when the [Last-Modified] value of the response does not parse or
    parses to a strictly later time. *)
Theorem if_unmodified_since (Date_parse : string -> number) (req : request)
    (res : response) (since : Z) :
  headers req !! "if-match"%string = None ->
  parseHttpDate Date_parse (headers req !! "if-unmodified-since"%string)
    = Num since ->
  (isPreconditionFailure Date_parse req res = true <->
   parseHttpDate Date_parse (get res "Last-Modified") = NaN \/
   exists modified : Z,
     parseHttpDate Date_parse (get res "Last-Modified") = Num modified /\
     (since < modified)%Z).
Proof.
  intros Hm Hs. rewrite isPreconditionFailure_no_if_match by done.
  cbn zeta. rewrite Hs. cbn [isNaN negb].
  rewrite orb_true_iff, gt_Num. split.
  - intros [H | (x & y & Hx & [= <-] & Hlt)].
    + left. by destruct (parseHttpDate _ (get res _)).
    + right. eauto.
  - intros [-> | (x & -> & Hlt)]; [by left|]. right. eauto.
Qed.

Lemma if_unmodified_since_witness :
  isPreconditionFailure IMF.Date_parse req_unmodified_since_1994
    res_modified_2015 = true <->
  parseHttpDate IMF.Date_parse (get res_modified_2015 "Last-Modified") = NaN \/
  exists modified : Z,
    parseHttpDate IMF.Date_parse (get res_modified_2015 "Last-Modified")
      = Num modified /\
    (784111777000 < modified)%Z.
Proof.
  apply (if_unmodified_since IMF.Date_parse req_unmodified_since_1994
           res_modified_2015 784111777000).
  - reflexivity.
  - reflexivity.
Defined.

(** ** Proxy trust *)

(** C6. For a number [N], [compileTrust] returns a predicate that is true
    exactly for the hop indices below [N], whatever the address; for
    [N = 2] it is true at 0 and 1 and false at 2. *)
Theorem compileTrust_hop_count
    (proxyaddr_compile : value -> completion TrustPredicate) :
  (forall N : Z, exists predicate : TrustPredicate,
     compileTrust proxyaddr_compile (VNumber (Num N)) = Normal predicate /\
     forall (addr : string) (i : Z), predicate addr i = true <-> (i < N)%Z) /\
  (exists predicate : TrustPredicate,
     compileTrust proxyaddr_compile (VNumber (Num 2)) = Normal predicate /\
     forall addr : string,
       predicate addr 0%Z = true /\ predicate addr 1%Z = true /\
       predicate addr 2%Z = false).
Proof.
  split.
  - intros N. eexists. split; [reflexivity|].
    intros addr i. cbn [lt]. apply Z.ltb_lt.
  - eexists. split; [reflexivity|]. done.
Qed.

(** C7, as stated, fails: an object that is not a function, and the empty
    string (a falsy value), both end in a [TypeError]. *)
Lemma compileTrust_raises :
  compileTrust ProxyAddr.compile VObject = Throw TypeError /\
  to_boolean (VString "") = false /\
  compileTrust ProxyAddr.compile (VString "") = Throw TypeError.
Proof. by vm_compute. Qed.

(** C7, amended. [compileTrust] raises no error of its own and has no
    fallback of its own. The settings [false], [null] and [undefined] are
    compiled as the empty list, and where [proxyaddr.compile] turns the
    empty list into a predicate that is false everywhere, so does
    [compileTrust]; the falsy numbers give a predicate that is false at
    every hop index from 0 on. Any other object, and any string (as the
    list of its trimmed comma-separated pieces, also when it is empty), is
    handed to [proxyaddr.compile], whose outcome, an error included, is the
    outcome of [compileTrust]. *)
Theorem compileTrust_falsy
    (proxyaddr_compile : value -> completion TrustPredicate)
    (nobody : TrustPredicate) :
  proxyaddr_compile (VArray []) = Normal nobody ->
  (forall addr i, nobody addr i = false) ->
  (forall val, In val [VUndefined; VNull; VBool false] ->
     compileTrust proxyaddr_compile val = proxyaddr_compile (VArray [])) /\
  (forall val, In val [VUndefined; VNull; VBool false] ->
     exists predicate, compileTrust proxyaddr_compile val = Normal predicate /\
       forall addr i, predicate addr i = false) /\
  (forall n, to_boolean (VNumber n) = false ->
     exists predicate,
       compileTrust proxyaddr_compile (VNumber n) = Normal predicate /\
       forall addr i, (0 <= i)%Z -> predicate addr i = false) /\
  compileTrust proxyaddr_compile VObject = proxyaddr_compile VObject /\
  (forall vs, compileTrust proxyaddr_compile (VArray vs)
              = proxyaddr_compile (VArray vs)) /\
  (forall s, compileTrust proxyaddr_compile (VString s)
             = proxyaddr_compile
                 (VArray (map (fun v => VString (trim v)) (split_comma s)))).
Proof.
  intros Hempty Hnobody. repeat split.
  - intros val Hval. cbn [In] in Hval. by destruct Hval as [<-|[<-|[<-|[]]]].
  - intros val Hval. exists nobody. split; [|done].
    cbn [In] in Hval. by destruct Hval as [<-|[<-|[<-|[]]]].
  - intros n Hn. eexists. split; [reflexivity|].
    intros addr i Hi. cbn beta. destruct n as [|z]; [done|].
    cbn [to_boolean] in Hn. apply negb_false_iff, Z.eqb_eq in Hn as ->.
    cbn [lt]. apply Z.ltb_ge. lia.
Qed.

Lemma compileTrust_falsy_witness :
  (forall val, In val [VUndefined; VNull; VBool false] ->
     compileTrust ProxyAddr.compile val = ProxyAddr.compile (VArray [])) /\
  (forall val, In val [VUndefined; VNull; VBool false] ->
     exists predicate, compileTrust ProxyAddr.compile val = Normal predicate /\
       forall addr i, predicate addr i = false) /\
  (forall n, to_boolean (VNumber n) = false ->
     exists predicate,
       compileTrust ProxyAddr.compile (VNumber n) = Normal predicate /\
       forall addr i, (0 <= i)%Z -> predicate addr i = false) /\
  compileTrust ProxyAddr.compile VObject = ProxyAddr.compile VObject /\
  (forall vs, compileTrust ProxyAddr.compile (VArray vs)
              = ProxyAddr.compile (VArray vs)) /\
  (forall s, compileTrust ProxyAddr.compile (VString s)
             = ProxyAddr.compile
                 (VArray (map (fun v => VString (trim v)) (split_comma s)))).
Proof.
  apply (compileTrust_falsy ProxyAddr.compile ProxyAddr.trustNone).
  - reflexivity.
  - reflexivity.
Defined.

(** ** Compilation of templates *)

Lemma replaceAll_char c r s : replaceAll (String c EmptyString) r s = subst c r s.
Proof.
  unfold replaceAll. induction s as [|d s IH]; [done|].
  cbn [replaceAll_from subst]. rewrite startsWith_char.
  cbn [String.length Nat.sub]. rewrite IH. done.
Qed.

Lemma app_cons x (a b : string) : (String x a ++ b = String x (a ++ b))%string.
Proof. reflexivity. Qed.

Lemma app_nil (b : string) : ("" ++ b = b)%string.
Proof. reflexivity. Qed.

Lemma append_assoc (a b c : string) : ((a ++ b) ++ c = a ++ (b ++ c))%string.
Proof. induction a as [|x a IH]; [done|]. rewrite !app_cons. by rewrite IH. Qed.

Lemma subst_app c r a b : subst c r (a ++ b) = (subst c r a ++ subst c r b)%string.
Proof.
  induction a as [|x a IH]; [done|]. rewrite app_cons. cbn [subst].
  rewrite IH. destruct (Ascii.eqb c x); [|done]. by rewrite append_assoc.
Qed.

Lemma subst_word c r s :
  is_word c = false -> all_word s = true -> subst c r s = s.
Proof.
  intros Hc. induction s as [|x s IH]; [done|]. cbn [all_word subst].
  intros [Hx Hs]%andb_true_iff. rewrite IH by done.
  destruct (Ascii.eqb_spec c x) as [->|]; [congruence|done].
Qed.

Lemma escape_all_subst s :
  escape_all s = subst "*" "(.*)" (subst "-" "\-" (subst "." "\." s)).
Proof. unfold escape_all. by rewrite !replaceAll_char. Qed.

Lemma escape_all_app a b : escape_all (a ++ b) = (escape_all a ++ escape_all b)%string.
Proof. rewrite !escape_all_subst. by rewrite !subst_app. Qed.

Lemma escape_all_word s : all_word s = true -> escape_all s = s.
Proof.
  intros H. rewrite escape_all_subst.
  by rewrite (subst_word "." _ s), (subst_word "-" _ s), (subst_word "*" _ s).
Qed.

Lemma escape_all_lit c :
  is_meta c = false -> escape_all (String c EmptyString) = escaped c.
Proof.
  intros H. rewrite escape_all_subst. unfold escaped.
  assert (Hstar : Ascii.eqb "*" c = false).
  { unfold is_meta in H. rewrite !orb_false_iff in H.
    rewrite Ascii.eqb_sym. tauto. }
  cbn [subst]. destruct (Ascii.eqb_spec "." c) as [<-|Hdot]; [done|].
  rewrite (Ascii.eqb_sym c "."). 
  destruct (Ascii.eqb_spec "." c) as [|_]; [done|].
  cbn [subst]. destruct (Ascii.eqb_spec "-" c) as [<-|Hhyp]; [done|].
  rewrite (Ascii.eqb_sym c "-").
  destruct (Ascii.eqb_spec "-" c) as [|_]; [done|].
  cbn [subst]. by rewrite Hstar.
Qed.

Lemma escape_all_text segs :
  well_formed segs = true -> escape_all (text segs) = escaped_text segs.
Proof.
  induction segs as [|[c|name] segs IH]; [done|..]; cbn [well_formed text escaped_text].
  - intros [Hc Hw]%andb_true_iff. apply negb_true_iff in Hc.
    change (String c (text segs)) with (String c "" ++ text segs)%string.
    by rewrite escape_all_app, escape_all_lit, IH.
  - intros [[[_ Hn]%andb_true_iff _]%andb_true_iff Hw]%andb_true_iff.
    rewrite !escape_all_app, (escape_all_word name), IH by done. done.
Qed.

(** *** The parameter tokens *)

Lemma repeat_run_greedy_k p k fuel : forall lo i s cs,
  (run p s < fuel)%nat -> (lo <= run p s)%nat ->
  is_Some (k (MState (i + run p s) (drop (run p s) s) cs)) ->
  repeat_matcher (one_char p) [] true k fuel lo None (MState i s cs) =
  k (MState (i + run p s) (drop (run p s) s) cs).
Proof.
  induction fuel as [|fuel IH]; intros lo i s cs Hfuel Hlo Hk; [lia|].
  cbn [repeat_matcher]. unfold clear_caps. cbn [foldr pos rest caps].
  change (Nat.pred <$> None) with (@None nat).
  assert (Hne : (S i =? i)%nat = false) by (apply Nat.eqb_neq; lia).
  destruct s as [|c s'].
  - rewrite one_char_nil. cbn [run] in *.
    assert (lo = 0%nat) as -> by lia. cbn [Nat.eqb negb orelse].
    rewrite Nat.add_0_r. by rewrite drop_0.
  - rewrite one_char_cons. cbn [run] in *. destruct (p c) eqn:Hp.
    + cbn [pos]. rewrite Hne, andb_false_r.
      replace (i + S (run p s'))%nat with (S i + run p s')%nat in * by lia.
      change (drop (S (run p s')) (String c s')) with (drop (run p s') s') in *.
      rewrite IH by (done || lia).
      destruct Hk as [y Hy]. rewrite Hy.
      by destruct (negb (lo =? 0)%nat).
    + assert (lo = 0%nat) as -> by lia. cbn [Nat.eqb negb orelse].
      rewrite Nat.add_0_r. by rewrite drop_0.
Qed.

Lemma exec_param_fail_nil i : exec_at param_re i EmptyString = None.
Proof. reflexivity. Qed.

Lemma exec_param_fail i c s :
  Ascii.eqb ":" c = false -> exec_at param_re i (String c s) = None.
Proof.
  intros H. unfold exec_at, param_re. cbn [m]. rewrite one_char_cons. by rewrite H.
Qed.


Lemma p_word_spec d : p_word d = is_word d.
Proof. unfold p_word, class_mem. cbn. by rewrite orb_false_r. Qed.

Lemma run_ext p q s : (forall c, p c = q c) -> run p s = run q s.
Proof. intros H. induction s as [|c s IH]; [done|]. cbn [run]. by rewrite H, IH. Qed.

Lemma run_name n R :
  all_word n = true -> starts_with_word R = false ->
  run is_word (n ++ R) = String.length n.
Proof.
  intros Hn HR. induction n as [|c n IH].
  - rewrite app_nil. destruct R as [|c R]; [done|].
    change (is_word c = false) in HR. cbn [run]. by rewrite HR.
  - rewrite app_cons. cbn [all_word] in Hn. apply andb_true_iff in Hn as [Hc Hn].
    cbn [run String.length]. rewrite Hc. by rewrite IH.
Qed.

Lemma drop_app n R : drop (String.length n) (n ++ R) = R.
Proof. induction n as [|c n IH]; [by rewrite app_nil, drop_0|]. by rewrite app_cons. Qed.

Lemma take_app n R : take (String.length n) (n ++ R) = n.
Proof.
  induction n as [|c n IH]; [by destruct R|]. rewrite app_cons.
  cbn [String.length take]. by rewrite IH.
Qed.

Lemma length_app (a b : string) :
  String.length (a ++ b) = (String.length a + String.length b)%nat.
Proof. induction a as [|c a IH]; [done|]. rewrite app_cons. cbn [String.length]. by rewrite IH. Qed.

Lemma exec_param_ok i n R :
  all_word n = true -> n <> EmptyString -> ends_token R = true ->
  exec_at param_re i (String ":" (n ++ R)) =
  Some (MState (S i + String.length n) R (<[1%nat := n]> ∅)).
Proof.
  intros Hn Hne HR. unfold exec_at, param_re. cbn [m]. rewrite one_char_cons.
  rewrite Ascii.eqb_refl. cbn [groups_of rest pos caps].
  change (fun (x : mstate) (k : mstate -> option mstate) =>
            one_char (fun d => xorb false (class_mem [CWord false] d)) x k)
    with (one_char p_word).
  assert (HRw : starts_with_word R = false).
  { destruct R as [|c R]; [done|].
    change (negb (is_word c) && negb (Ascii.eqb "(" c) = true) in HR.
    apply andb_true_iff in HR as [H _]. by apply negb_true_iff. }
  assert (Hrun : run p_word (n ++ R) = String.length n).
  { rewrite (run_ext _ is_word) by apply p_word_spec. by apply run_name. }
  assert (Hlen : (1 <= String.length n)%nat).
  { destruct n; [done|]. cbn [String.length]. lia. }
  assert (Htail : forall cs,
    repeat_matcher
      (fun (x : mstate) (k : mstate -> option mstate) =>
         one_char (Ascii.eqb "(") x
           (fun y0 : mstate =>
              repeat_matcher
                (fun (x0 : mstate) (k0 : mstate -> option mstate) =>
                   one_char (fun d : ascii => negb (is_line_terminator d)) x0 k0)
                [] false
                (fun y1 : mstate =>
                   one_char (Ascii.eqb ")") y1
                     (fun y2 : mstate =>
                        k (MState (pos y2) (rest y2)
                             (<[2%nat := take (pos y2 - pos x) (rest x)]> (caps y2)))))
                (1 + String.length (rest y0) + 1) 1 None y0))
      (2%nat :: [] ++ [] ++ []) true Some (0 + String.length R + 1) 0 (Some 1%nat)
      (MState (S i + String.length n) R cs)
    = Some (MState (S i + String.length n) R cs)).
  { intros cs. rewrite Nat.add_1_r. cbn [repeat_matcher Nat.eqb negb].
    unfold clear_caps. cbn [pos rest caps].
    destruct R as [|c R]; [done|]. rewrite one_char_cons.
    change (negb (is_word c) && negb (Ascii.eqb "(" c) = true) in HR.
    apply andb_true_iff in HR as [_ H]. apply negb_true_iff in H.
    by rewrite H. }
  rewrite repeat_run_greedy_k; rewrite ?Hrun, ?drop_app; cbn [pos rest caps].
  - rewrite Htail. do 2 f_equal.
    replace (S i + String.length n - S i)%nat with (String.length n) by lia.
    by rewrite take_app.
  - rewrite length_app. lia.
  - lia.
  - rewrite Htail. eauto.
Qed.

Lemma replace_param_nil i :
  replace_from 0 param_re param_group i EmptyString = EmptyString.
Proof. cbn [replace_from]. by rewrite exec_param_fail_nil. Qed.

Lemma replace_param_other i c s :
  Ascii.eqb ":" c = false ->
  replace_from 0 param_re param_group i (String c s) =
  String c (replace_from 0 param_re param_group (S i) s).
Proof. intros H. cbn [replace_from]. by rewrite exec_param_fail. Qed.

Lemma not_meta_colon c : is_meta c = false -> Ascii.eqb ":" c = false.
Proof.
  unfold is_meta. rewrite !orb_false_iff, (Ascii.eqb_sym ":" c). tauto.
Qed.

Lemma not_meta_paren c : is_meta c = false -> Ascii.eqb "(" c = false.
Proof.
  unfold is_meta. rewrite !orb_false_iff, (Ascii.eqb_sym "(" c). tauto.
Qed.

Lemma replace_param_lit i c s :
  is_meta c = false ->
  replace_from 0 param_re param_group i (escaped c ++ s) =
  (escaped c ++ replace_from 0 param_re param_group
                  (i + String.length (escaped c)) s)%string.
Proof.
  intros H. unfold escaped.
  destruct (Ascii.eqb c "."); [|destruct (Ascii.eqb c "-")].
  - rewrite !app_cons, !app_nil, !replace_param_other by done.
    do 3 f_equal. cbn [String.length]. lia.
  - rewrite !app_cons, !app_nil, !replace_param_other by done.
    do 3 f_equal. cbn [String.length]. lia.
  - rewrite !app_cons, !app_nil, replace_param_other by by apply not_meta_colon.
    do 2 f_equal. cbn [String.length]. lia.
Qed.

Lemma ends_token_escaped segs :
  well_formed segs = true -> starts_with_word (text segs) = false ->
  ends_token (escaped_text segs) = true.
Proof.
  destruct segs as [|[c|n] segs]; [done|..]; cbn [well_formed text escaped_text].
  - intros [Hc _]%andb_true_iff Hw. apply negb_true_iff in Hc.
    change (is_word c = false) in Hw. unfold escaped.
    destruct (Ascii.eqb c "."); [done|]. destruct (Ascii.eqb c "-"); [done|].
    rewrite app_cons. unfold ends_token. by rewrite Hw, not_meta_paren.
  - done.
Qed.

Lemma param_group_name matched n :
  param_group matched (<[1%nat := n]> ∅) = ("(?<" ++ n ++ ">[^/]+)")%string.
Proof.
  unfold param_group. rewrite lookup_insert_eq, lookup_insert_ne, lookup_empty by done.
  reflexivity.
Qed.

Lemma param_stage segs : forall i,
  well_formed segs = true ->
  replace_from 0 param_re param_group i (escaped_text segs) = source_text segs.
Proof.
  induction segs as [|[c|n] segs IH]; intros i;
    cbn [well_formed escaped_text source_text].
  - intros _. apply replace_param_nil.
  - intros [Hc Hw]%andb_true_iff. apply negb_true_iff in Hc.
    by rewrite replace_param_lit, IH.
  - intros [[[Hne Hn]%andb_true_iff Hnext]%andb_true_iff Hw]%andb_true_iff.
    apply negb_true_iff in Hnext.
    assert (n <> EmptyString) by (by destruct n).
    rewrite app_cons, app_nil. cbn [replace_from].
    rewrite exec_param_ok by auto using ends_token_escaped.
    cbn [pos caps].
    replace (S i + String.length n - i)%nat with (S (String.length n)) by lia.
    rewrite replace_from_skip by (rewrite length_app; lia).
    rewrite drop_app, IH by done.
    rewrite param_group_name. by rewrite !append_assoc.
Qed.

Lemma regexPattern_of_text segs :
  well_formed segs = true -> regexPattern_of (text segs) = source_text segs.
Proof.
  intros Hw. unfold regexPattern_of, replace_g.
  change (replaceAll "*" "(.*)" (replaceAll "-" "\-" (replaceAll "." "\." (text segs))))
    with (escape_all (text segs)).
  rewrite escape_all_text by done. by apply param_stage.
Qed.


(** *** Lexical analysis of the pattern source of a template *)

Lemma lex_from_skip : forall j s,
  (j <= String.length s)%nat -> lex_from j s = lex_from 0 (drop j s).
Proof.
  induction j as [|j IH]; intros s Hj; [by rewrite drop_0|].
  destruct s as [|c s]; cbn [String.length] in Hj; [lia|].
  cbn [lex_from drop]. apply IH. lia.
Qed.

Lemma lex_from_one c s t n :
  lex_one (String c s) = One t (S n) -> (n <= String.length s)%nat ->
  lex_from 0 (String c s) = tok_cons t (lex_from 0 (drop n s)).
Proof.
  intros H Hn. cbn [lex_from]. rewrite H. cbn [Nat.sub].
  rewrite Nat.sub_0_r. by rewrite lex_from_skip.
Qed.

Lemma lex_one_plain c s :
  is_meta c = false -> Ascii.eqb c "." = false ->
  lex_one (String c s) = One (TAtom (RChar c)) 1.
Proof.
  unfold is_meta. rewrite !orb_false_iff. intros H Hdot.
  repeat match goal with H : _ /\ _ |- _ => destruct H end.
  unfold lex_one.
  repeat match goal with H : Ascii.eqb c _ = false |- _ => rewrite H; clear H end.
  done.
Qed.

Lemma lex_lit c s :
  is_meta c = false ->
  lex_from 0 (escaped c ++ s) = tok_cons (TAtom (RChar c)) (lex_from 0 s).
Proof.
  intros H. unfold escaped.
  destruct (Ascii.eqb_spec c ".") as [->|Hdot]; [done|].
  destruct (Ascii.eqb_spec c "-") as [->|Hhyp]; [done|].
  rewrite app_cons, app_nil.
  rewrite (lex_from_one c s (TAtom (RChar c)) 0); [by rewrite drop_0| |lia].
  apply lex_one_plain; [done|]. by apply Ascii.eqb_neq.
Qed.

Lemma is_word_id_part c : is_word c = true -> is_id_part c = true.
Proof.
  unfold is_word, is_id_part, is_id_start.
  destruct (is_alpha c), (is_digit c), (Ascii.eqb c "_"), (Ascii.eqb c "$"); done.
Qed.

Lemma is_word_not c d : is_word d = false -> is_word c = true -> Ascii.eqb c d = false.
Proof. intros Hd Hc. destruct (Ascii.eqb_spec c d) as [->|]; congruence. Qed.

Lemma read_name_rest_word n s :
  all_word n = true ->
  read_name_rest (n ++ String ">" s) = NameOk n (S (String.length n)).
Proof.
  induction n as [|c n IH]; [done|]. cbn [all_word].
  intros [Hc Hn]%andb_true_iff. rewrite app_cons. cbn [read_name_rest].
  rewrite (is_word_not c ">"), is_word_id_part, IH by done. done.
Qed.

Lemma is_digit_ascii7 c : is_digit c = true -> is_ascii7 c = true.
Proof.
  unfold is_digit, is_ascii7. intros [_ H]%andb_true_iff.
  apply Nat.leb_le in H. apply Nat.ltb_lt. lia.
Qed.

Lemma read_name_word n s :
  all_word n = true -> n <> EmptyString ->
  read_name (n ++ String ">" s) =
  if valid_name n then NameOk n (S (String.length n)) else NameErr.
Proof.
  intros Hn Hne. destruct n as [|c n]; [done|].
  pose proof (read_name_rest_word _ s Hn) as Hrest.
  rewrite app_cons in *. unfold read_name, valid_name.
  destruct (is_id_start c) eqn:Hs; [done|].
  cbn [all_word] in Hn. apply andb_true_iff in Hn as [Hc _].
  rewrite is_digit_ascii7; [done|].
  unfold is_word, is_id_start in *.
  destruct (is_alpha c), (is_digit c), (Ascii.eqb c "_"); done.
Qed.


Lemma lex_from_0 c s :
  lex_from 0 (String c s) =
  match lex_one (String c s) with
  | One t n => tok_cons t (lex_from (n - 1) s)
  | OneErr => Throw SyntaxError
  | OneBeyond => Beyond
  end.
Proof. reflexivity. Qed.

Lemma lex_one_group n s :
  all_word n = true -> n <> EmptyString ->
  lex_one (String "(" (String "?" (String "<" (n ++ String ">" s)))) =
  if valid_name n then One (TOpen (GCapture (Some n))) (3 + S (String.length n))
  else OneErr.
Proof.
  intros Hn Hne. unfold lex_one. cbn [Ascii.eqb Bool.eqb].
  rewrite read_name_word by done.
  destruct n as [|c n]; [done|]. rewrite app_cons, !startsWith_char.
  cbn [all_word] in Hn. apply andb_true_iff in Hn as [Hc _].
  rewrite (Ascii.eqb_sym "=" c), (Ascii.eqb_sym "!" c).
  rewrite (is_word_not c "="), (is_word_not c "!") by done.
  cbn [orb]. by destruct (valid_name _).
Qed.

Lemma lex_group_body s :
  lex_from 0 ("[^/]+)" ++ s) =
  tok_cons (TAtom (RClass true [CChar "/"]))
    (tok_cons (TQuant 1 None true) (tok_cons TClose (lex_from 0 s))).
Proof. reflexivity. Qed.

Lemma lex_param n s :
  all_word n = true -> n <> EmptyString ->
  lex_from 0 ("(?<" ++ n ++ ">[^/]+)" ++ s) =
  if valid_name n
  then tok_app (tokens_of [Param n]) (lex_from 0 s)
  else Throw SyntaxError.
Proof.
  intros Hn Hne.
  change ("(?<" ++ n ++ ">[^/]+)" ++ s)%string
    with (String "(" (String "?" (String "<" (n ++ String ">" ("[^/]+)" ++ s))))).
  rewrite lex_from_0, lex_one_group by done.
  destruct (valid_name n); [|done].
  rewrite lex_from_skip.
  2:{ cbn [String.length]. rewrite length_app. cbn [String.length]. lia. }
  replace (3 + S (String.length n) - 1)%nat
    with (S (S (String.length n + 1)))%nat by lia.
  change (drop (S (S (String.length n + 1)))
            (String "?" (String "<" (n ++ String ">" ("[^/]+)" ++ s)))))
    with (drop (String.length n + 1) (n ++ String ">" ("[^/]+)" ++ s))).
  replace (drop (String.length n + 1) (n ++ String ">" ("[^/]+)" ++ s)))
    with ("[^/]+)" ++ s)%string.
  2:{ clear. induction n as [|c n IH]; [done|]. rewrite app_cons. exact IH. }
  rewrite lex_group_body. cbn [tokens_of].
  by destruct (lex_from 0 s).
Qed.

Lemma tok_app_cons t ts r : tok_app (t :: ts) r = tok_cons t (tok_app ts r).
Proof. by destruct r. Qed.

Lemma tok_app_app ts1 ts2 r : tok_app (ts1 ++ ts2) r = tok_app ts1 (tok_app ts2 r).
Proof. destruct r; cbn; [|done..]. by rewrite app_assoc. Qed.

Lemma lex_source_text segs tail :
  well_formed segs = true ->
  lex_from 0 (source_text segs ++ tail) =
  if forallb valid_name (names segs)
  then tok_app (tokens_of segs) (lex_from 0 tail)
  else Throw SyntaxError.
Proof.
  induction segs as [|[c|n] segs IH];
    cbn [well_formed source_text names tokens_of forallb].
  - intros _. rewrite app_nil. by destruct (lex_from 0 tail).
  - intros [Hc Hw]%andb_true_iff. apply negb_true_iff in Hc.
    rewrite append_assoc, lex_lit, IH by done.
    destruct (forallb valid_name (names segs)); [|done].
    by rewrite tok_app_cons.
  - intros [[[Hne Hn]%andb_true_iff Hnext]%andb_true_iff Hw]%andb_true_iff.
    assert (n <> EmptyString) by (by destruct n).
    rewrite !append_assoc, lex_param, IH by done.
    destruct (valid_name n); [|done]. cbn [andb].
    destruct (forallb valid_name (names segs)); [|done].
    change (tokens_of [Param n]) with
      [TOpen (GCapture (Some n)); TAtom (RClass true [CChar "/"]);
       TQuant 1 None true; TClose].
    by destruct (lex_from 0 tail).
Qed.

Lemma group_names_tokens segs ts :
  (forall t, In t ts -> match t with TOpen (GCapture (Some _)) => False | _ => True end) ->
  group_names (tokens_of segs ++ ts) = names segs.
Proof.
  intros Hts. induction segs as [|[c|n] segs IH]; cbn [tokens_of names].
  - rewrite app_nil_l. induction ts as [|t ts IHts]; [done|].
    pose proof (Hts t (or_introl eq_refl)) as Ht.
    cbn [group_names].
    destruct t as [| | |[[name|]| |]| |]; try done; apply IHts; intros; apply Hts; by right.
  - done.
  - cbn [app group_names]. by rewrite IH.
Qed.

Lemma lex_bol s : lex_from 0 (String "^" s) = tok_cons (TAssert RBol) (lex_from 0 s).
Proof. reflexivity. Qed.

(** The two endings that [patternToRegex] gives a pattern source. *)
Lemma lex_tail (isPrefix : bool) :
  lex_from 0 (if isPrefix then "(?=$|/)" else "$") =
  Normal (if isPrefix
          then [TOpen (GLook false); TAssert REol; TAlt; TAtom (RChar "/"); TClose]
          else [TAssert REol]).
Proof. by destruct isPrefix. Qed.

Lemma lex_regex_source segs isPrefix :
  well_formed segs = true ->
  lex (regex_source (text segs) isPrefix) =
  if forallb valid_name (names segs)
  then Normal (TAssert RBol :: tokens_of segs ++
               (if isPrefix
                then [TOpen (GLook false); TAssert REol; TAlt; TAtom (RChar "/"); TClose]
                else [TAssert REol]))
  else Throw SyntaxError.
Proof.
  intros Hw. unfold lex, regex_source. rewrite regexPattern_of_text by done.
  rewrite app_cons, app_nil, lex_bol, lex_source_text, lex_tail by done.
  by destruct (forallb valid_name (names segs)).
Qed.


(** *** Syntactic analysis of the pattern source of a template *)

Lemma seq_of_cons_snoc r l b : seq_of (r :: l ++ [b]) = RSeq r (seq_of (l ++ [b])).
Proof. by destruct l. Qed.

Lemma parse_tokens_of segs : forall cur stack next ts,
  parse_from cur stack next (tokens_of segs ++ ts) =
  parse_from
    (Frame (f_kind cur) (f_idx cur) (f_alts cur)
       (rev (quantifiable (terms_of next segs)) ++ f_seq cur))
    stack (next + length (names segs)) ts.
Proof.
  induction segs as [|[c|n] segs IH]; intros cur stack next ts;
    cbn [tokens_of terms_of names Datatypes.length quantifiable map rev].
  - rewrite Nat.add_0_r. by destruct cur.
  - rewrite <- app_comm_cons. cbn [parse_from]. rewrite IH.
    unfold push_term. cbn [f_kind f_idx f_alts f_seq].
    unfold quantifiable. by rewrite <- app_assoc.
  - rewrite <- !app_comm_cons. cbn [parse_from push_term f_seq f_kind f_idx f_alts].
    rewrite IH. unfold push_term. cbn [f_kind f_idx f_alts f_seq].
    unfold quantifiable. rewrite <- app_assoc. 
    replace (S next + length (names segs))%nat with (next + S (length (names segs)))%nat by lia.
    reflexivity.
Qed.

Lemma parse_source segs (isPrefix : bool) :
  parse (TAssert RBol :: tokens_of segs ++
         (if isPrefix
          then [TOpen (GLook false); TAssert REol; TAlt; TAtom (RChar "/"); TClose]
          else [TAssert REol])) =
  Some (seq_of (RBol :: terms_of 1 segs ++ [if isPrefix then boundary else REol])).
Proof.
  unfold parse. cbn [parse_from push_term f_kind f_idx f_alts f_seq].
  rewrite parse_tokens_of. cbn [f_kind f_idx f_alts f_seq].
  rewrite seq_of_cons_snoc.
  assert (Hq : forall rs, map fst (quantifiable rs) = rs).
  { intros rs. unfold quantifiable. rewrite map_map. apply map_id. }
  destruct isPrefix; simpl; unfold body_of, close_seq; simpl;
    rewrite map_app, map_rev, Hq, rev_app_distr, rev_involutive; simpl.
    - f_equal. exact (seq_of_cons_snoc RBol (terms_of 1 segs) boundary).
    - f_equal. exact (seq_of_cons_snoc RBol (terms_of 1 segs) REol).
Qed.

Lemma group_names_source segs (isPrefix : bool) :
  group_names (TAssert RBol :: tokens_of segs ++
               (if isPrefix
                then [TOpen (GLook false); TAssert REol; TAlt; TAtom (RChar "/"); TClose]
                else [TAssert REol])) = names segs.
Proof.
  cbn [group_names]. apply group_names_tokens.
  intros t Ht. destruct isPrefix; cbn [In] in Ht;
    repeat (destruct Ht as [<-|Ht]; [done|]); destruct Ht.
Qed.

Lemma names_in_terms last segs : forall next,
  names_in last = [] -> name_clash last = false ->
  names_in (seq_of (terms_of next segs ++ [last])) = names segs /\
  name_clash (seq_of (terms_of next segs ++ [last])) = has_dup (names segs).
Proof.
  intros next Hn Hc. revert next.
  induction segs as [|[c|n] segs IH]; intros next; cbn [terms_of names].
  - done.
  - rewrite <- app_comm_cons, seq_of_cons_snoc. cbn [names_in name_clash].
    destruct (IH next) as [-> ->]. split; [done|].
    cbn [overlap existsb orb]. apply orb_false_r.
  - rewrite <- app_comm_cons, seq_of_cons_snoc.
    cbn [names_in name_clash param_term].
    destruct (IH (S next)) as [-> ->]. split; [done|].
    cbn [has_dup overlap existsb app]. rewrite !orb_false_r. apply orb_comm.
Qed.

Lemma name_clash_source segs (isPrefix : bool) :
  name_clash (seq_of (RBol :: terms_of 1 segs ++ [if isPrefix then boundary else REol]))
  = has_dup (names segs).
Proof.
  rewrite seq_of_cons_snoc. cbn [name_clash names_in overlap existsb].
  rewrite orb_false_r. by destruct isPrefix; apply names_in_terms.
Qed.




(** ** Prefix patterns *)

Lemma m_seq_cons r rs x k :
  m (seq_of (r :: rs)) x k = m r x (fun y => m (seq_of rs) y k).
Proof. destruct rs; reflexivity. Qed.

Lemma app_length_drop a : forall s,
  startsWith a s = true -> s = (a ++ drop (String.length a) s)%string.
Proof.
  induction a as [|c a IH]; intros s H; [by rewrite app_nil, drop_0|].
  destruct s as [|d s]; [done|]. cbn [startsWith] in H.
  apply andb_true_iff in H as [Hc Ha]. apply Ascii.eqb_eq in Hc as ->.
  rewrite app_cons. cbn [String.length drop]. f_equal. by apply IH.
Qed.

Lemma startsWith_app a b : startsWith a (a ++ b) = true.
Proof.
  induction a as [|c a IH]; [done|]. rewrite app_cons. cbn [startsWith].
  by rewrite Ascii.eqb_refl, IH.
Qed.

(** A sequence of literal characters followed by [r] matches exactly the
    inputs that start with these characters and go on with a match of [r]. *)
Lemma m_literal lit r k : forall i s cs,
  m (seq_of (map RChar (list_ascii_of_string lit) ++ [r])) (MState i s cs) k =
  if startsWith lit s
  then m r (MState (i + String.length lit) (drop (String.length lit) s) cs) k
  else None.
Proof.
  induction lit as [|c lit IH]; intros i s cs.
  - cbn [list_ascii_of_string map app seq_of startsWith String.length].
    by rewrite Nat.add_0_r, drop_0.
  - cbn [list_ascii_of_string map]. rewrite <- app_comm_cons, m_seq_cons.
    cbn [m]. destruct s as [|d s]; [done|]. rewrite one_char_cons.
    cbn [startsWith]. destruct (Ascii.eqb c d); [|done]. cbn [andb].
    rewrite IH. cbn [String.length drop].
    by replace (S i + String.length lit)%nat with (i + S (String.length lit))%nat by lia.
Qed.

(** A pattern that starts with [^] matches at index 0 only. *)
Lemma search_bol r : forall s i, search (RSeq RBol r) (S i) s = None.
Proof.
  induction s as [|c s IH]; intros i; cbn [search]; unfold exec_at; cbn [m pos Nat.eqb].
  - done.
  - apply IH.
Qed.

Lemma test_bol r s :
  test (RSeq RBol r) s = match exec_at (RSeq RBol r) 0 s with Some _ => true | None => false end.
Proof.
  unfold test. destruct s as [|c s]; cbn [search].
  - by destruct (exec_at _ _ _).
  - destruct (exec_at _ _ _); [done|]. by rewrite search_bol.
Qed.

Lemma m_boundary i s cs :
  m boundary (MState i s cs) Some =
  if at_boundary s then Some (MState i s cs) else None.
Proof.
  unfold boundary. cbn [m rest pos caps]. destruct s as [|c s]; [done|].
  cbn [orelse]. rewrite one_char_cons. cbn [at_boundary].
  by destruct (Ascii.eqb "/" c).
Qed.

Lemma test_prefix_literal lit path :
  test (seq_of (RBol :: map RChar (list_ascii_of_string lit) ++ [boundary])) path =
  startsWith lit path && at_boundary (drop (String.length lit) path).
Proof.
  rewrite seq_of_cons_snoc, test_bol. unfold exec_at.
  change (m (RSeq RBol ?r) ?x ?k) with (m r x k).
  rewrite m_literal. destruct (startsWith lit path); [|done].
  rewrite m_boundary. by destruct (at_boundary _).
Qed.

Lemma prefix_files_ast :
  exists re, patternToRegex (PString "/files") true = Normal re /\
    ast re = seq_of (RBol :: map RChar (list_ascii_of_string "/files") ++ [boundary]).
Proof. eexists. split; reflexivity. Qed.

Lemma startsWith_app_l a b s :
  startsWith (a ++ b) s = startsWith a s && startsWith b (drop (String.length a) s).
Proof.
  revert s. induction a as [|c a IH]; intros s; [by rewrite app_nil, drop_0|].
  rewrite app_cons. destruct s as [|d s]; cbn [startsWith]; [done|].
  rewrite IH. cbn [String.length drop]. by rewrite andb_assoc.
Qed.

Lemma prefix_match_spec lit path :
  startsWith lit path && at_boundary (drop (String.length lit) path) = true <->
  path = lit \/ startsWith (lit ++ "/") path = true.
Proof.
  rewrite startsWith_app_l, andb_true_iff. split.
  - intros [Hs Hb]. pose proof (app_length_drop _ _ Hs) as Hp.
    destruct (drop (String.length lit) path) as [|c rest] eqn:Hd.
    + left. rewrite Hp. clear. induction lit as [|c lit IH]; [done|].
      rewrite app_cons. by rewrite IH.
    + right. rewrite Hs. cbn [at_boundary] in Hb. rewrite startsWith_char. done.
  - intros [->|[Hs Hb]%andb_true_iff].
    + assert (H : forall l : string, startsWith l l = true /\ drop (String.length l) l = EmptyString).
      { induction l as [|c l [IH1 IH2]]; [done|]. cbn [startsWith String.length drop].
        by rewrite Ascii.eqb_refl, IH1, IH2. }
      destruct (H lit) as [-> ->]. done.
    + split; [done|]. rewrite startsWith_char in Hb.
      by destruct (drop (String.length lit) path).
Qed.

(** A template without a repeated name, and whose names are group names,
    compiles; the pattern is the sequence of its terms between the
    anchors. *)
Lemma patternToRegex_template segs (isPrefix : bool) :
  well_formed segs = true ->
  segs <> [] ->
  forallb valid_name (names segs) = true ->
  has_dup (names segs) = false ->
  exists re,
    patternToRegex (PString (text segs)) isPrefix = Normal re /\
    ast re = seq_of (RBol :: terms_of 1 segs ++ [if isPrefix then boundary else REol]).
Proof.
  intros Hw Hne Hv Hd. eexists. unfold patternToRegex.
  assert (String.eqb (text segs) "" = false) as ->
    by (by destruct segs as [|[c|n] segs]).
  rewrite andb_false_r. unfold RegExp_new. rewrite lex_regex_source, Hv by done.
  rewrite parse_source, group_names_source, Hd.
  split; reflexivity.
Qed.

(** The characters of a template without parameters. *)
Lemma terms_of_literal segs next :
  names segs = [] ->
  terms_of next segs = map RChar (list_ascii_of_string (text segs)).
Proof.
  induction segs as [|[c|n] segs IH]; [done| |done]. cbn [names terms_of text].
  intros H. cbn [list_ascii_of_string map]. by rewrite IH.
Qed.

(** A prefix pattern compiled from a literal template matches the path
    equal to the template and the paths that go on with a [/], and no
    other. *)
Lemma prefix_literal_template segs :
  well_formed segs = true ->
  segs <> [] ->
  names segs = [] ->
  exists re,
    patternToRegex (PString (text segs)) true = Normal re /\
    forall path,
      RegExp_test re path = true <->
      path = text segs \/ startsWith (text segs ++ "/") path = true.
Proof.
  intros Hw Hne Hn.
  destruct (patternToRegex_template segs true Hw Hne) as (re & Hre & Hast);
    [by rewrite Hn..|].
  exists re. split; [done|]. intros path.
  unfold RegExp_test. rewrite Hast, (terms_of_literal _ _ Hn), test_prefix_literal.
  apply prefix_match_spec.
Qed.

(** C8. The matcher that [patternToRegex("/files", true)] produces is
    anchored at the start only and asks for the end of the path or a [/]
    after the match: it matches [/files] and [/files/x], not
    [/filesystem]; it matches exactly [/files] and the paths that start
    with [/files/]. *)
Theorem prefix_files :
  exists re : RegExp,
    patternToRegex (PString "/files") true = Normal re /\
    RegExp_test re "/files" = true /\
    RegExp_test re "/files/x" = true /\
    RegExp_test re "/filesystem" = false /\
    forall path : string,
      RegExp_test re path = true <->
      path = "/files"%string \/ startsWith "/files/" path = true.
Proof.
  destruct prefix_files_ast as (re & Hre & Hast). exists re.
  split; [exact Hre|].
  assert (H : forall path, RegExp_test re path =
            startsWith "/files" path && at_boundary (drop 6 path)).
  { intros path. unfold RegExp_test. rewrite Hast. apply test_prefix_literal. }
  rewrite !H. repeat split; try reflexivity.
  - intros Hp. rewrite H in Hp. by apply (prefix_match_spec "/files") in Hp.
  - intros Hp. rewrite H. by apply (prefix_match_spec "/files").
Qed.

(** ** Query strings *)

Section Dispatch.

Variable ParsedQuery : Type.
Variable Options : Type.
Variable querystring_parse : string -> ParsedQuery.
Variable qs_parse : string -> Options -> ParsedQuery.

(** The dispatcher hands an eligible query string to the flat parser,
    without the options, and any other to the full parser. *)
Lemma fastQueryParse_fast query options :
  fast_path query = true ->
  fastQueryParse ParsedQuery Options querystring_parse qs_parse query options
  = querystring_parse query.
Proof.
  unfold fast_path, fastQueryParse. intros [Hlen Hinc]%andb_true_iff.
  by rewrite Hlen, Hinc.
Qed.

Lemma fastQueryParse_full query options :
  fast_path query = false ->
  fastQueryParse ParsedQuery Options querystring_parse qs_parse query options
  = qs_parse query options.
Proof.
  unfold fast_path, fastQueryParse. intros H.
  destruct (String.length query <=? 128)%nat; [|done].
  cbn [andb] in H. by rewrite H.
Qed.

End Dispatch.

Import QueryString.

Example flat_parse_sample :
  flat_parse "a=1&b=2" = {[ "a"%string := QStr "1"; "b"%string := QStr "2" ]}.
Proof. by vm_compute. Qed.

Example full_parse_sample :
  full_parse "a[b]=1" default_options
  = {[ "a"%string := QObj {[ "b"%string := QStr "1" ]} ]}.
Proof. by vm_compute. Qed.

Example full_parse_nested :
  full_parse "a[b]=1&a[c][d]=2&e[]=x&e[]=y&f=1&f=2" default_options =
  {[ "a"%string := QObj {[ "b"%string := QStr "1";
                           "c"%string := QObj {[ "d"%string := QStr "2" ]} ]};
     "e"%string := QSeq ["x"; "y"]%string;
     "f"%string := QSeq ["1"; "2"]%string ]}.
Proof. by vm_compute. Qed.

Lemma includes_tail p c s : includes p s = true -> includes p (String c s) = true.
Proof. intros H. rewrite includes_cons, H. apply orb_true_r. Qed.

Lemma startsWith_3 a b c s :
  startsWith (String a (String b (String c EmptyString))) s =
  match s with
  | String x (String y (String z _)) => Ascii.eqb a x && (Ascii.eqb b y && Ascii.eqb c z)
  | _ => false
  end.
Proof.
  destruct s as [|x [|y [|z s]]]; cbn [startsWith]; rewrite ?andb_false_r, ?andb_true_r; done.
Qed.

Lemma hex_val_inv h a :
  hex_val h = Some a ->
  (a < 16)%nat /\
  ((a <= 9)%nat /\ nat_of_ascii h = (a + 48)%nat \/
   (10 <= a)%nat /\ (nat_of_ascii h = (a + 55)%nat \/ nat_of_ascii h = (a + 87)%nat)).
Proof.
  unfold hex_val. cbv zeta.
  destruct (is_digit h) eqn:E1.
  { intros [= <-]. unfold is_digit in E1. cbv zeta in E1.
    apply andb_true_iff in E1 as [H1%Nat.leb_le H2%Nat.leb_le]. lia. }
  destruct ((65 <=? nat_of_ascii h)%nat && (nat_of_ascii h <=? 70)%nat) eqn:E2.
  { intros [= <-]. apply andb_true_iff in E2 as [H1%Nat.leb_le H2%Nat.leb_le]. lia. }
  destruct ((97 <=? nat_of_ascii h)%nat && (nat_of_ascii h <=? 102)%nat) eqn:E3; [|done].
  intros [= <-]. apply andb_true_iff in E3 as [H1%Nat.leb_le H2%Nat.leb_le]. lia.
Qed.

Lemma ascii_of_code c n : nat_of_ascii c = n -> c = ascii_of_nat n.
Proof. intros <-. by rewrite ascii_nat_embedding. Qed.

(** An escape that stands for the character of code [16 * hi + lo], with
    [lo] from 10 on, is spelled with the digit [hi] and the letter [lo] in
    either case. *)
Lemma escape_spelling h l a b (hi lo : nat) :
  hex_val h = Some a -> hex_val l = Some b ->
  (16 * a + b = 16 * hi + lo)%nat -> (hi < 10)%nat -> (10 <= lo < 16)%nat ->
  h = ascii_of_nat (hi + 48) /\
  (l = ascii_of_nat (lo + 55) \/ l = ascii_of_nat (lo + 87)).
Proof.
  intros Hh Hl Heq Hhi Hlo.
  apply hex_val_inv in Hh as [Ha Hh]. apply hex_val_inv in Hl as [Hb Hl].
  assert (a = hi /\ b = lo) as [-> ->] by lia. split.
  - apply ascii_of_code. destruct Hh as [[_ Hh]|[Hh _]]; [exact Hh|lia].
  - destruct Hl as [[Hl _]|[_ [Hl|Hl]]]; [lia|left|right]; by apply ascii_of_code.
Qed.

Lemma occurs_cons t c s : occurs t (String c s) <-> c = t \/ occurs t s.
Proof. reflexivity. Qed.

(** A character other than the space that the decoded text holds is in
    the text already, or is spelled by an escape. *)
Lemma decode_occurs t (hi lo : nat) :
  nat_of_ascii t = (16 * hi + lo)%nat -> (hi < 10)%nat -> (10 <= lo < 16)%nat ->
  forall n s, (String.length s <= n)%nat ->
  occurs t (decode s) ->
  occurs t s \/
  includes (String "%" (String (ascii_of_nat (hi + 48))
                          (String (ascii_of_nat (lo + 55)) EmptyString))) s = true \/
  includes (String "%" (String (ascii_of_nat (hi + 48))
                          (String (ascii_of_nat (lo + 87)) EmptyString))) s = true.
Proof.
  intros Ht Hhi Hlo.
  assert (Hsp : t <> " ").
  { intros ->. change (nat_of_ascii " ") with 32%nat in Ht. lia. }
  induction n as [|n IH]; intros s Hn.
  { destruct s; [done|cbn [String.length] in Hn; lia]. }
  destruct s as [|c s1]; [done|]. cbn [String.length] in Hn.
  assert (Hstep : occurs t (String c (decode s1)) ->
    occurs t (String c s1) \/
    includes (String "%" (String (ascii_of_nat (hi + 48))
                            (String (ascii_of_nat (lo + 55)) EmptyString))) (String c s1) = true \/
    includes (String "%" (String (ascii_of_nat (hi + 48))
                            (String (ascii_of_nat (lo + 87)) EmptyString))) (String c s1) = true).
  { rewrite !occurs_cons. intros [->|H]; [by left; left|].
    destruct (IH s1 ltac:(lia) H) as [?|[?|?]]; [left; by right|right; left|right; right];
      by apply includes_tail. }
  cbn [decode]. destruct (Ascii.eqb_spec c "+") as [->|Hplus].
  { rewrite !occurs_cons. intros [?|H]; [congruence|].
    destruct (IH s1 ltac:(lia) H) as [?|[?|?]]; [left; by right|right; left|right; right];
      by apply includes_tail. }
  destruct (Ascii.eqb_spec c "%") as [->|Hpct]; [|exact Hstep].
  destruct s1 as [|h [|l s3]]; [exact Hstep..|].
  destruct (hex_val h) as [a|] eqn:Hh; [|exact Hstep].
  destruct (hex_val l) as [b|] eqn:Hl; [|exact Hstep].
  destruct (16 * a + b <? 128)%nat eqn:Hlt; [|exact Hstep].
  apply Nat.ltb_lt in Hlt. cbn [String.length] in Hn.
  rewrite occurs_cons. intros [Hc|H].
  - right. assert (16 * a + b = 16 * hi + lo)%nat as Heq.
    { rewrite <- Ht, <- Hc. rewrite nat_ascii_embedding; lia. }
    destruct (escape_spelling h l a b hi lo Hh Hl Heq Hhi Hlo) as [-> [->| ->]];
      [left|right]; rewrite includes_cons, startsWith_3, !Ascii.eqb_refl; done.
  - destruct (IH s3 ltac:(lia) H) as [?|[?|?]];
      [left; do 3 right; done|right; left|right; right];
      by do 3 apply includes_tail.
Qed.

Lemma startsWith_app_mono p a b : startsWith p a = true -> startsWith p (a ++ b) = true.
Proof.
  revert a. induction p as [|x p IH]; intros a; [done|].
  destruct a as [|y a]; [done|]. rewrite app_cons. cbn [startsWith].
  intros [-> H]%andb_true_iff. by rewrite IH.
Qed.

Lemma includes_app_l p a b : includes p a = true -> includes p (a ++ b) = true.
Proof.
  induction a as [|c a IH].
  - destruct p; [by destruct b|done].
  - rewrite app_cons, !includes_cons. intros [H|H]%orb_true_iff.
    + rewrite <- app_cons. by rewrite startsWith_app_mono.
    + rewrite IH by done. apply orb_true_r.
Qed.

Lemma split_on_head d s :
  exists p0 ps rest, split_on d s = p0 :: ps /\ s = (p0 ++ rest)%string.
Proof.
  induction s as [|c s (p0 & ps & rest & Hs & Heq)].
  - by exists EmptyString, [], EmptyString.
  - cbn [split_on]. destruct (Ascii.eqb c d).
    + by exists EmptyString, (split_on d s), (String c s).
    + rewrite Hs. exists (String c p0), ps, rest. by rewrite app_cons, <- Heq.
Qed.

Lemma includes_piece d p : forall s piece,
  In piece (split_on d s) -> includes p piece = true -> includes p s = true.
Proof.
  induction s as [|c s IH]; intros piece.
  - cbn [split_on In]. by intros [<-|[]].
  - cbn [split_on]. destruct (Ascii.eqb c d).
    + intros [<-|Hin] Hp.
      * destruct p; [done|discriminate Hp].
      * apply includes_tail. by apply (IH piece).
    + destruct (split_on_head d s) as (p0 & ps & rest & Hs & Heq). rewrite Hs.
      intros [<-|Hin] Hp.
      * rewrite Heq, <- app_cons. by apply includes_app_l.
      * apply includes_tail. apply (IH piece); [|done]. rewrite Hs. by right.
Qed.

Lemma key_value_prefix part :
  exists rest, part = (fst (key_value part) ++ rest)%string.
Proof.
  induction part as [|c part [rest IH]]; [by exists EmptyString|].
  cbn [key_value]. destruct (Ascii.eqb c "=").
  - by exists (String c part).
  - destruct (key_value part) as [k v]. exists rest. cbn [fst] in *.
    by rewrite app_cons, <- IH.
Qed.

Lemma includes_key p part :
  includes p (fst (key_value part)) = true -> includes p part = true.
Proof.
  intros H. destruct (key_value_prefix part) as [rest Heq].
  rewrite Heq. by apply includes_app_l.
Qed.

Lemma includes_false_key d p q part :
  includes p q = false -> In part (split_on d q) ->
  includes p (fst (key_value part)) = false.
Proof.
  intros Hq Hin. destruct (includes p (fst (key_value part))) eqn:E; [|done].
  rewrite <- Hq. symmetry. eapply includes_piece; [done|]. by apply includes_key.
Qed.

Lemma decode_no_bracket k : no_bracket k -> ~ occurs "[" (decode k).
Proof.
  intros (H1 & H2 & H3) Ho.
  destruct (decode_occurs "[" 5 11 eq_refl ltac:(lia) ltac:(lia) _ k (le_n _) Ho)
    as [H|[H|H]].
  - apply includes_char in H. congruence.
  - change (includes "%5B" k = true) in H. congruence.
  - change (includes "%5b" k = true) in H. congruence.
Qed.

Lemma decode_no_dot k : no_dot k -> ~ occurs "." (decode k).
Proof.
  intros (H1 & H2 & H3) Ho.
  destruct (decode_occurs "." 2 14 eq_refl ltac:(lia) ltac:(lia) _ k (le_n _) Ho)
    as [H|[H|H]].
  - apply includes_char in H. congruence.
  - change (includes "%2E" k = true) in H. congruence.
  - change (includes "%2e" k = true) in H. congruence.
Qed.

Lemma key_path_plain dots k :
  ~ occurs "[" k -> (dots = false \/ ~ occurs "." k) ->
  key_path dots false k = [k].
Proof.
  induction k as [|c k IH]; [done|]. rewrite !occurs_cons. intros Hb Hd.
  cbn [key_path negb]. rewrite andb_false_r, andb_true_r.
  destruct (Ascii.eqb_spec c "[") as [->|_]; [tauto|].
  assert (Ascii.eqb c "." && dots = false) as ->.
  { destruct Hd as [->|Hd]; [apply andb_false_r|].
    destruct (Ascii.eqb_spec c ".") as [->|_]; [tauto|done]. }
  rewrite IH; [done|tauto|tauto].
Qed.

Lemma full_add_flat o acc part :
  no_bracket (fst (key_value part)) ->
  (allowDots o = false \/ no_dot (fst (key_value part))) ->
  full_add o acc part = flat_add acc part.
Proof.
  intros Hb Hd. unfold full_add, flat_add.
  destruct (String.eqb part ""); [done|].
  destruct (key_value part) as [k v]. cbn [fst] in *.
  rewrite key_path_plain; [done|by apply decode_no_bracket|].
  destruct Hd as [?|?]; [by left|right; by apply decode_no_dot].
Qed.

Lemma foldl_ext_in {A B} (f g : A -> B -> A) l :
  (forall a b, In b l -> f a b = g a b) -> forall a, foldl f a l = foldl g a l.
Proof.
  induction l as [|b l IH]; intros H a; [done|]. cbn [foldl].
  rewrite H by (by left). apply IH. intros a' b' Hb. apply H. by right.
Qed.

(** On a query string without brackets, and without dots where dots
    nest, in which the escapes are looked for in either case, the two
    parsers agree when the delimiter is [&]. *)
Lemma parsers_agree q o :
  delimiter o = "&" ->
  no_bracket q ->
  allowDots o = false \/ no_dot q ->
  full_parse q o = flat_parse q.
Proof.
  intros Hd (H1 & H2 & H3) Hdots. unfold full_parse, flat_parse. rewrite Hd.
  apply foldl_ext_in. intros acc part Hin. apply full_add_flat.
  - repeat split; by eapply includes_false_key.
  - destruct Hdots as [?|(D1 & D2 & D3)]; [by left|right].
    repeat split; by eapply includes_false_key.
Qed.

(** C5. The query string [a%5bb%5d=1] passes the test of the fast path,
    which looks for [%5B] in upper case only; the flat parser gives it the
    one key [a[b]], the full parser the key [a] with a nested [b]. On this
    eligible string the two parsers differ, and [fastQueryParse] returns
    the flat result. *)
Theorem fast_path_misses_lowercase_escape :
  String.length "a%5bb%5d=1" = 10%nat /\
  fast_path "a%5bb%5d=1" = true /\
  fast_path "a%5Bb%5D=1" = false /\
  fastQueryParse ParsedQuery options flat_parse full_parse
    "a%5bb%5d=1" default_options
  = {[ "a[b]"%string := QStr "1" ]} /\
  full_parse "a%5bb%5d=1" default_options
  = {[ "a"%string := QObj {[ "b"%string := QStr "1" ]} ]} /\
  fastQueryParse ParsedQuery options flat_parse full_parse
    "a%5bb%5d=1" default_options
  <> full_parse "a%5bb%5d=1" default_options.
Proof.
  repeat split; by vm_compute.
Qed.

(** * The other functions *)

Import UtilsRest RefRest SamplesRest.

(** ** The first index from a start *)

Lemma findIndex_loop_spec {A} (arr : list A) fn : forall fuel i,
  (length arr - i <= fuel)%nat ->
  (findIndex_loop arr fn fuel i = (-1)%Z /\
   forall j x, (i <= j)%nat -> arr !! j = Some x -> fn x j arr = false) \/
  (exists r x, findIndex_loop arr fn fuel i = Z.of_nat r /\ (i <= r)%nat /\
     arr !! r = Some x /\ fn x r arr = true /\
     forall j y, (i <= j < r)%nat -> arr !! j = Some y -> fn y j arr = false).
Proof.
  induction fuel as [|fuel IH]; intros i Hf.
  - left. split; [done|]. intros j x Hj Hx. apply lookup_lt_Some in Hx. lia.
  - cbn [findIndex_loop]. destruct (arr !! i) as [x|] eqn:Hi.
    + destruct (fn x i arr) eqn:Hfn.
      * right. exists i, x. repeat split; try done. intros j y Hj. lia.
      * destruct (IH (S i) ltac:(lia)) as [[Hr Hall]|(r & y & Hr & Hle & Hy & Hfy & Hbefore)].
        -- left. split; [done|]. intros j z Hj Hz.
           destruct (decide (j = i)) as [->|]; [congruence|]. apply Hall; [lia|done].
        -- right. exists r, y. repeat split; try done; [lia|].
           intros j z Hj Hz. destruct (decide (j = i)) as [->|]; [congruence|].
           apply Hbefore; [lia|done].
    + left. split; [done|]. intros j x Hj Hx.
      apply lookup_ge_None in Hi. apply lookup_lt_Some in Hx. lia.
Qed.

(** X1. [findIndexStartingFrom] returns the first index from [index] on at
    which [fn] holds, and -1 exactly when [fn] holds at no index from [index]
    on; the elements before [index] are never looked at. *)
Theorem findIndexStartingFrom_first {A} (arr : list A)
    (fn : A -> nat -> list A -> bool) (index : nat) :
  (findIndexStartingFrom arr fn index = (-1)%Z <->
   forall j x, (index <= j)%nat -> arr !! j = Some x -> fn x j arr = false) /\
  (forall r : nat, findIndexStartingFrom arr fn index = Z.of_nat r <->
     (index <= r)%nat /\
     (exists x, arr !! r = Some x /\ fn x r arr = true) /\
     forall j y, (index <= j < r)%nat -> arr !! j = Some y -> fn y j arr = false).
Proof.
  unfold findIndexStartingFrom.
  destruct (findIndex_loop_spec arr fn (length arr - index) index (le_n _))
    as [[Hr Hall]|(r & x & Hr & Hle & Hx & Hfx & Hbefore)]; rewrite Hr.
  - split; [done|]. intros r. split; [lia|].
    intros (Hle & (x & Hx & Hfx) & _). rewrite (Hall r x) in Hfx; done.
  - split.
    + split; [lia|]. intros Hall. rewrite (Hall r x) in Hfx; done.
    + intros r'. split.
      * intros Heq. assert (r' = r) as -> by lia. eauto.
      * intros (Hle' & (x' & Hx' & Hfx') & Hbefore'). f_equal.
        destruct (Nat.lt_trichotomy r r') as [Hlt|[->|Hlt]]; [|done|].
        -- rewrite (Hbefore' r x) in Hfx; [done|lia|done].
        -- rewrite (Hbefore r' x') in Hfx'; [done|lia|done].
Qed.

(** ** Duplicate separators and classification, again *)

Lemma collapse_length s : (String.length (collapse s) <= String.length s)%nat.
Proof.
  induction s as [|c s IH]; [done|]. cbn [collapse String.length].
  destruct (_ && _); cbn [String.length]; lia.
Qed.

Lemma collapse_without s : without "/" (collapse s) = without "/" s.
Proof.
  induction s as [|c s IH]; [done|]. cbn [collapse].
  destruct (Ascii.eqb c "/" && startsWith "/" s) eqn:E.
  - apply andb_true_iff in E as [Hc _]. cbn [without].
    rewrite Ascii.eqb_sym, Hc. exact IH.
  - cbn [without]. by rewrite IH.
Qed.

(** X2. [removeDuplicateSlashes] returns its argument unchanged exactly when
    no two slashes stand side by side in it. *)
Theorem removeDuplicateSlashes_fixed (s : string) :
  removeDuplicateSlashes s = s <-> includes "//" s = false.
Proof.
  rewrite removeDuplicateSlashes_collapse. split.
  - intros H. rewrite <- H. apply collapse_no_double.
  - apply collapse_fixed.
Qed.

(** X3. [removeDuplicateSlashes] never lengthens a path, drops nothing but
    slashes, and keeps a leading slash. *)
Theorem removeDuplicateSlashes_keeps (s : string) :
  (String.length (removeDuplicateSlashes s) <= String.length s)%nat /\
  without "/" (removeDuplicateSlashes s) = without "/" s /\
  startsWith "/" (removeDuplicateSlashes s) = startsWith "/" s.
Proof.
  rewrite removeDuplicateSlashes_collapse.
  split; [apply collapse_length|]. split; [apply collapse_without|].
  apply startsWith_collapse.
Qed.

(** X4. A pattern that [needsConversionToRegex] leaves alone is one that
    [canBeOptimized] accepts, unless it is ["/*"] or a compiled expression. *)
Theorem not_converted_is_optimized (p : pattern) :
  needsConversionToRegex p = false ->
  canBeOptimized p = true \/ p = PString "/*" \/ exists re, p = PRegExp re.
Proof.
  destruct p as [s|re]; [|eauto]. unfold needsConversionToRegex, canBeOptimized.
  destruct (String.eqb_spec s "/*") as [->|_]; [eauto|].
  intros H. left. rewrite !orb_false_iff in H.
  destruct H as [[[[[[[[[-> ->] ->] ->] ->] _] ->] ->] ->] ->]. done.
Qed.

Lemma not_converted_is_optimized_witness :
  canBeOptimized (PString "/about") = true \/ PString "/about" = PString "/*"
  \/ exists re, PString "/about" = PRegExp re.
Proof. apply (not_converted_is_optimized (PString "/about")). reflexivity. Defined.

(** ** Token lists *)

Lemma app_nil_r_s (a : string) : (a ++ "")%string = a.
Proof. induction a as [|c a IH]; [done|]. by rewrite app_cons, IH. Qed.

Lemma take_drop_app n : forall s, (take n s ++ drop n s)%string = s.
Proof.
  induction n as [|n IH]; intros [|c s]; try done.
  cbn [take drop]. by rewrite app_cons, IH.
Qed.

Lemma take_take_drop a b : forall s,
  take (a + b) s = (take a s ++ take b (drop a s))%string.
Proof.
  induction a as [|a IH]; intros s; [by rewrite drop_0|].
  destruct s as [|c s]; [by destruct b|]. cbn [Nat.add take drop].
  by rewrite app_cons, IH.
Qed.

Lemma drop_drop a b : forall s, drop a (drop b s) = drop (b + a) s.
Proof.
  induction b as [|b IH]; intros s; [by rewrite drop_0|].
  destruct s as [|c s]; [by destruct a|]. cbn [Nat.add drop]. apply IH.
Qed.

(** [substring a c] is [substring a b] followed by [substring b c]. *)
Lemma substring_split a b c s :
  (a <= b <= c)%nat ->
  substring a c s = (substring a b s ++ substring b c s)%string.
Proof.
  intros H. unfold substring.
  replace (c - a)%nat with ((b - a) + (c - b))%nat by lia.
  rewrite take_take_drop, drop_drop. do 3 f_equal. lia.
Qed.

Lemma substring_same a s : substring a a s = EmptyString.
Proof. unfold substring. by rewrite Nat.sub_diag. Qed.

Lemma substring_char pre c cs :
  substring (String.length pre) (S (String.length pre)) (pre ++ String c cs)
  = String c EmptyString.
Proof.
  unfold substring. rewrite drop_app.
  by replace (S (String.length pre) - String.length pre)%nat with 1%nat by lia.
Qed.

Lemma app_snoc_assoc pre c cs : ((pre ++ String c "") ++ cs = pre ++ String c cs)%string.
Proof. by rewrite append_assoc. Qed.

Lemma eqb_empty_substring a b s :
  (a <= b <= String.length s)%nat ->
  String.eqb (substring a b s) "" = (a =? b)%nat.
Proof.
  intros H. unfold substring.
  destruct (Nat.eqb_spec a b) as [->|Hne]; [by rewrite Nat.sub_diag|].
  assert (Hlen : (a < String.length s)%nat) by lia.
  destruct (b - a)%nat as [|k] eqn:Hk; [lia|].
  destruct (drop a s) as [|x t] eqn:Hd; [|done].
  pose proof (length_drop a s) as Hl. rewrite Hd in Hl. cbn in Hl. lia.
Qed.

Lemma parseTokenList_loop_scan str : forall cs pre start end_ acc,
  str = (pre ++ cs)%string ->
  (start <= end_ <= String.length pre)%nat ->
  (start = end_ -> end_ = String.length pre) ->
  parseTokenList_loop str cs (String.length pre) start end_ acc =
  (acc ++ scan_tokens (substring start end_ str)
            (substring end_ (String.length pre) str) cs)%list.
Proof.
  induction cs as [|c cs IH]; intros pre start end_ acc Hstr Hle Heq.
  - cbn [parseTokenList_loop scan_tokens].
    rewrite eqb_empty_substring.
    2:{ rewrite Hstr, length_app. cbn [String.length]. lia. }
    destruct (start =? end_)%nat; cbn [negb]; [by rewrite app_nil_r|done].
  - assert (Hlen : String.length str = (String.length pre + S (String.length cs))%nat).
    { rewrite Hstr, length_app. done. }
    assert (Hstr' : str = ((pre ++ String c "") ++ cs)%string)
      by (by rewrite app_snoc_assoc).
    assert (Hpre' : String.length (pre ++ String c "") = S (String.length pre)).
    { rewrite length_app. cbn [String.length]. lia. }
    cbn [parseTokenList_loop scan_tokens].
    rewrite eqb_empty_substring by lia.
    destruct (Ascii.eqb_spec c " ") as [->|Hsp].
    + destruct (Nat.eqb_spec start end_) as [Hse|Hse].
      * rewrite <- Hpre'. rewrite (IH (pre ++ " ")%string) by (done || lia).
        by rewrite !substring_same.
      * rewrite <- Hpre'. rewrite (IH (pre ++ " ")%string) by (done || lia).
        rewrite Hpre'. do 2 f_equal.
        rewrite (substring_split end_ (String.length pre) (S (String.length pre))) by lia.
        f_equal. rewrite Hstr. apply substring_char.
    + destruct (Ascii.eqb_spec c ",") as [->|Hco].
      * rewrite <- Hpre'. rewrite (IH (pre ++ ",")%string) by (done || lia).
        rewrite !substring_same.
        destruct (start =? end_)%nat; cbn [negb]; [done|].
        by rewrite <- app_assoc.
      * rewrite <- Hpre' at 1 2. rewrite (IH (pre ++ String c "")%string) by (done || lia).
        rewrite Hpre', substring_same. do 2 f_equal.
        rewrite (substring_split start end_ (S (String.length pre))) by lia.
        f_equal.
        rewrite (substring_split end_ (String.length pre) (S (String.length pre))) by lia.
        f_equal. rewrite Hstr. apply substring_char.
Qed.

Lemma parseTokenList_scan str : parseTokenList str = scan_tokens "" "" str.
Proof.
  unfold parseTokenList.
  pose proof (parseTokenList_loop_scan str str "" 0 0 [] eq_refl) as H.
  cbn [String.length] in H. rewrite H by (done || lia).
  by rewrite !substring_same.
Qed.


Lemma includes_char_app c a b :
  includes (String c "") (a ++ b) = includes (String c "") a || includes (String c "") b.
Proof.
  induction a as [|x a IH]; [done|].
  rewrite app_cons, !includes_cons, !startsWith_char, IH. by rewrite orb_assoc.
Qed.

Lemma all_spaces_no_comma p : all_spaces p = true -> includes "," p = false.
Proof.
  induction p as [|x p IH]; [done|]. cbn [all_spaces].
  intros [Hx Hp]%andb_true_iff. apply Ascii.eqb_eq in Hx as ->.
  rewrite includes_cons, startsWith_char, IH by done. done.
Qed.

Lemma all_spaces_snoc p : all_spaces p = true -> all_spaces (p ++ " ") = true.
Proof.
  induction p as [|x p IH]; [done|]. cbn [all_spaces]. rewrite app_cons.
  intros [Hx Hp]%andb_true_iff. cbn [all_spaces]. by rewrite Hx, IH.
Qed.

Lemma ends_clean_snoc a c : ends_clean (a ++ String c "") = negb (Ascii.eqb c " ").
Proof.
  induction a as [|x a IH]; [done|]. rewrite app_cons.
  destruct a as [|y a]; [done|]. rewrite app_cons in *. exact IH.
Qed.

Lemma ends_clean_nonempty t : ends_clean t = true -> t <> EmptyString.
Proof. by destruct t. Qed.

Lemma startsWith_char_app c a b :
  a <> EmptyString ->
  startsWith (String c "") (a ++ b) = startsWith (String c "") a.
Proof. destruct a as [|x a]; [done|]. intros _. by rewrite app_cons, !startsWith_char. Qed.

Lemma clean_token_extend tok pend c :
  (tok = EmptyString /\ pend = EmptyString) \/
  (clean_token tok = true /\ all_spaces pend = true) ->
  Ascii.eqb c " " = false -> Ascii.eqb c "," = false ->
  clean_token (tok ++ pend ++ String c "") = true.
Proof.
  intros Hinv Hsp Hco. unfold clean_token.
  rewrite <- append_assoc, ends_clean_snoc, Hsp.
  rewrite includes_char_app, (includes_cons "," c ""),
    (startsWith_char "," (String c "")). cbv iota.
  rewrite (Ascii.eqb_sym "," c), Hco.
  destruct Hinv as [[-> ->]|[Hc Hp]].
  - rewrite !app_nil, startsWith_char. cbv iota.
    by rewrite (Ascii.eqb_sym " " c), Hsp.
  - unfold clean_token in Hc.
    apply andb_true_iff in Hc as [[H1 H2]%andb_true_iff H3].
    rewrite append_assoc, startsWith_char_app by (by apply ends_clean_nonempty).
    rewrite H1, includes_char_app, (all_spaces_no_comma pend) by done.
    apply negb_true_iff in H3. by rewrite H3.
Qed.

Lemma clean_token_nonempty t : clean_token t = true -> String.eqb t "" = false.
Proof.
  unfold clean_token. intros [[_ H]%andb_true_iff _]%andb_true_iff.
  by destruct t.
Qed.

Lemma scan_tokens_clean cs : forall tok pend t,
  (tok = EmptyString /\ pend = EmptyString) \/
  (clean_token tok = true /\ all_spaces pend = true) ->
  In t (scan_tokens tok pend cs) -> clean_token t = true.
Proof.
  induction cs as [|c cs IH]; intros tok pend t Hinv.
  - cbn [scan_tokens]. destruct Hinv as [[-> ->]|[Hc Hp]]; [done|].
    rewrite clean_token_nonempty by done. intros [<-|[]]. done.
  - cbn [scan_tokens].
    destruct (Ascii.eqb c " ") eqn:Hsp.
    + destruct Hinv as [[-> ->]|[Hc Hp]].
      * cbn. apply IH. by left.
      * rewrite clean_token_nonempty by done. apply IH. right.
        split; [done|]. by apply all_spaces_snoc.
    + destruct (Ascii.eqb c ",") eqn:Hco.
      * intros [Hin|Hin]%in_app_iff; [|by apply (IH EmptyString EmptyString); [left|]].
        destruct Hinv as [[-> ->]|[Hc Hp]]; [done|].
        rewrite clean_token_nonempty in Hin by done.
        destruct Hin as [<-|[]]. done.
      * apply IH. right. split; [|done]. by apply clean_token_extend.
Qed.

(** X5. Every token that [parseTokenList] returns is non-empty, holds no
    comma and neither starts nor ends with a space. *)
Theorem parseTokenList_tokens_clean str :
  Forall (fun t => t <> EmptyString /\ ~ occurs "," t /\
                   startsWith " " t = false /\ ends_clean t = true)
    (parseTokenList str).
Proof.
  apply List.Forall_forall. intros t Hin. rewrite parseTokenList_scan in Hin.
  apply scan_tokens_clean in Hin; [|by left].
  pose proof (clean_token_nonempty _ Hin) as Hne.
  unfold clean_token in Hin.
  apply andb_true_iff in Hin as [[H1 H2]%andb_true_iff H3].
  apply negb_true_iff in H1, H3.
  split; [by intros ->|]. split; [by apply includes_char_false|]. done.
Qed.

(** Reading a clean token. *)
Ltac same_token :=
  match goal with
  | |- scan_tokens ?a _ _ = scan_tokens ?b _ _ =>
      let E := fresh in assert (E : a = b); [|by rewrite E]
  end.

Lemma scan_tokens_token t : forall tok pend rest,
  includes "," t = false -> ends_clean t = true ->
  (String.eqb tok "" = false \/ startsWith " " t = false) ->
  (String.eqb tok "" = true -> pend = EmptyString) ->
  scan_tokens tok pend (t ++ rest) = scan_tokens (tok ++ pend ++ t) "" rest.
Proof.
  induction t as [|c t IH]; intros tok pend rest Hco Hend Hst Hpend; [done|].
  rewrite app_cons. cbn [scan_tokens].
  rewrite includes_cons, startsWith_char in Hco.
  cbv iota in Hco.
  apply orb_false_iff in Hco as [Hc Hco]. rewrite Ascii.eqb_sym in Hc.
  rewrite Hc.
  destruct (Ascii.eqb c " ") eqn:Hsp.
  - apply Ascii.eqb_eq in Hsp as ->.
    destruct Hst as [Htok|Hst]; [|done]. rewrite Htok.
    destruct t as [|d t]; [done|].
    rewrite IH; [|done|done|by left|by rewrite Htok].
    same_token. by rewrite app_snoc_assoc.
  - destruct t as [|d t]; [by rewrite app_nil|].
    rewrite IH; [|done|done| |].
    + same_token. by rewrite app_nil, !append_assoc.
    + left. destruct tok; [destruct pend|]; done.
    + done.
Qed.

Lemma scan_tokens_pad pad : forall rest,
  is_pad pad = true ->
  scan_tokens "" "" (pad ++ rest) = scan_tokens "" "" rest.
Proof.
  induction pad as [|c pad IH]; intros rest; [done|]. cbn [is_pad].
  intros [Hc Hp]%andb_true_iff. rewrite app_cons. cbn [scan_tokens].
  change (String.eqb "" "") with true. cbv iota.
  destruct (Ascii.eqb c " "); [by apply IH|].
  cbn [orb] in Hc. rewrite Hc. by apply IH.
Qed.

Lemma scan_tokens_gap gap : forall tok pend rest,
  String.eqb tok "" = false ->
  is_pad gap = true -> includes "," gap = true ->
  scan_tokens tok pend (gap ++ rest) = tok :: scan_tokens "" "" rest.
Proof.
  induction gap as [|c gap IH]; intros tok pend rest Htok; [done|].
  cbn [is_pad]. intros [Hc Hp]%andb_true_iff Hi. rewrite app_cons.
  cbn [scan_tokens]. rewrite Htok.
  destruct (Ascii.eqb_spec c " ") as [->|Hsp].
  - rewrite includes_cons, startsWith_char in Hi. by apply IH.
  - cbn [orb] in Hc. rewrite Hc. cbn [app]. f_equal. by apply scan_tokens_pad.
Qed.

Lemma scan_tokens_trail trail : forall tok pend,
  String.eqb tok "" = false -> is_pad trail = true ->
  scan_tokens tok pend trail = [tok].
Proof.
  induction trail as [|c trail IH]; intros tok pend Htok.
  - intros _. cbn [scan_tokens]. by rewrite Htok.
  - cbn [is_pad]. intros [Hc Hp]%andb_true_iff. cbn [scan_tokens]. rewrite Htok.
    destruct (Ascii.eqb c " "); [by apply IH|].
    cbn [orb] in Hc. rewrite Hc. cbn [app]. f_equal.
    rewrite <- (app_nil_r_s trail). by rewrite scan_tokens_pad.
Qed.

Lemma clean_token_parts t :
  clean_token t = true ->
  String.eqb t "" = false /\ startsWith " " t = false /\
  ends_clean t = true /\ includes "," t = false.
Proof.
  intros H. pose proof (clean_token_nonempty _ H). unfold clean_token in H.
  apply andb_true_iff in H as [[H1 H2]%andb_true_iff H3].
  by apply negb_true_iff in H1, H3.
Qed.

(** The elements of a list that is written with gaps of any kind. *)
Lemma scan_tokens_join_each rest : forall t trail,
  is_pad trail = true ->
  forallb is_gap (map fst rest) = true ->
  forallb clean_token (t :: map snd rest) = true ->
  scan_tokens "" "" (join_each t rest ++ trail) = t :: map snd rest.
Proof.
  induction rest as [|[gap u] rest IH]; intros t trail Htr Hg Hc;
    cbn [forallb map fst snd] in *;
    apply andb_true_iff in Hc as [Ht Hc];
    destruct (clean_token_parts t Ht) as (Hne & Hst & Hend & Hco).
  - cbn [join_each]. rewrite scan_tokens_token by (done || by right).
    rewrite !app_nil. by apply scan_tokens_trail.
  - apply andb_true_iff in Hg as [[Hp Hi]%andb_true_iff Hg].
    cbn [join_each]. rewrite !append_assoc.
    rewrite scan_tokens_token by (done || by right). rewrite !app_nil.
    rewrite scan_tokens_gap by done. f_equal. by apply IH.
Qed.

(** X6. A list of clean tokens, written with any mix of spaces and commas
    before the first of them, after the last, and between two of them
    (one comma at least there), is read back as the same tokens. *)
Theorem parseTokenList_join (lead trail t : string)
    (rest : list (string * string)) :
  is_pad lead = true ->
  is_pad trail = true ->
  forallb is_gap (map fst rest) = true ->
  forallb clean_token (t :: map snd rest) = true ->
  parseTokenList (lead ++ join_each t rest ++ trail) = t :: map snd rest.
Proof.
  intros Hl Htr Hg Hc.
  rewrite parseTokenList_scan, scan_tokens_pad by done.
  by apply scan_tokens_join_each.
Qed.

Lemma parseTokenList_join_witness :
  parseTokenList (" ," ++ join_each "a" [(", ", "b c"); (" ,", "W/d"); (",, ", "e")]
                    ++ " , ")%string
  = ["a"; "b c"; "W/d"; "e"]%string.
Proof.
  apply (parseTokenList_join " ," " , " "a"
           [(", ", "b c"); (" ,", "W/d"); (",, ", "e")]%string); reflexivity.
Defined.

(** ** Entity tags in conditional requests *)

(** X7. With a non-empty [If-Match], the verdict depends on that header
    and on the [ETag] of the response only: [If-Unmodified-Since],
    [Last-Modified] and [Date.parse] play no part. *)
Theorem if_match_takes_precedence (dp1 dp2 : string -> number)
    (req1 req2 : request) (res1 res2 : response) (hdr : string) :
  headers req1 !! "if-match"%string = Some hdr ->
  headers req2 !! "if-match"%string = Some hdr ->
  String.eqb hdr "" = false ->
  get res1 "etag" = get res2 "etag" ->
  isPreconditionFailure dp1 req1 res1 = isPreconditionFailure dp2 req2 res2.
Proof.
  intros H1 H2 Hne%String.eqb_neq He.
  rewrite (isPreconditionFailure_if_match dp1 req1 res1 hdr H1 Hne).
  rewrite (isPreconditionFailure_if_match dp2 req2 res2 hdr H2 Hne).
  by rewrite He.
Qed.

Lemma if_match_takes_precedence_witness :
  isPreconditionFailure IMF.Date_parse req_if_match_list res_v2 =
  isPreconditionFailure (fun _ => NaN) req_if_match_list_dated res_v2_modified.
Proof.
  apply (if_match_takes_precedence IMF.Date_parse (fun _ => NaN)
           req_if_match_list req_if_match_list_dated res_v2 res_v2_modified
           (join ", " [tag_v1; ("W/" ++ tag_v2)%string]));
    reflexivity.
Defined.

Lemma weak_prefix t : startsWith "W/" t = true -> t = ("W/" ++ drop 2 t)%string.
Proof. apply (app_length_drop "W/"). Qed.

Lemma quote_not_weak x y : startsWith dquote x = true -> x <> ("W/" ++ y)%string.
Proof. intros H ->. done. Qed.

Lemma eqb_false_of x y : x <> y -> String.eqb x y = false.
Proof. apply String.eqb_neq. Qed.

(** The three comparisons of [isPreconditionFailure] are the weak
    comparison of entity tags. *)
Lemma weak_comparison tok e :
  is_etag tok = true -> is_etag e = true ->
  negb (String.eqb tok e) && negb (String.eqb tok ("W/" ++ e)) &&
  negb (String.eqb ("W/" ++ tok) e) =
  negb (String.eqb (opaque tok) (opaque e)).
Proof.
  unfold is_etag, opaque.
  destruct (startsWith "W/" tok) eqn:Ht, (startsWith "W/" e) eqn:He;
    intros Qt Qe.
  - apply weak_prefix in Ht, He. 
    set (t' := drop 2 tok) in *. set (e' := drop 2 e) in *. rewrite Ht, He.
    rewrite (eqb_false_of ("W/" ++ t') ("W/" ++ "W/" ++ e')).
    2:{ intros [= H]. by apply (quote_not_weak t' e'). }
    rewrite (eqb_false_of ("W/" ++ "W/" ++ t') ("W/" ++ e')).
    2:{ intros [= H]. by apply (quote_not_weak e' t'). }
    rewrite !andb_true_r. by f_equal.
  - apply weak_prefix in Ht. set (t' := drop 2 tok) in *. rewrite Ht.
    rewrite (eqb_false_of ("W/" ++ t') e).
    2:{ intros H. by apply (quote_not_weak e t'). }
    rewrite (eqb_false_of ("W/" ++ "W/" ++ t') e).
    2:{ intros H. by apply (quote_not_weak e ("W/" ++ t')). }
    rewrite andb_true_r. cbn [negb andb]. by f_equal.
  - apply weak_prefix in He. set (e' := drop 2 e) in *. rewrite He.
    rewrite (eqb_false_of tok ("W/" ++ e')).
    2:{ by apply quote_not_weak. }
    rewrite (eqb_false_of tok ("W/" ++ "W/" ++ e')).
    2:{ by apply quote_not_weak. }
    cbn [negb andb]. by f_equal.
  - rewrite (eqb_false_of tok ("W/" ++ e)) by (by apply quote_not_weak).
    rewrite (eqb_false_of ("W/" ++ tok) e).
    2:{ intros H. by apply (quote_not_weak e tok). }
    by rewrite !andb_true_r.
Qed.

Lemma join_each_head t rest :
  exists tail, join_each t rest = (t ++ tail)%string.
Proof.
  destruct rest as [|[gap u] rest]; [exists EmptyString; by rewrite app_nil_r_s|].
  by eexists.
Qed.

Lemma is_etag_head t :
  is_etag t = true ->
  exists c t', t = String c t' /\ Ascii.eqb c "*" = false.
Proof.
  unfold is_etag, opaque. destruct (startsWith "W/" t) eqn:Hw.
  - intros _. destruct t as [|c t]; [done|]. cbn [startsWith] in Hw.
    apply andb_true_iff in Hw as [<-%Ascii.eqb_eq _]. by eexists _, _.
  - destruct t as [|c t]; [done|]. unfold dquote. cbn [startsWith].
    intros [<-%Ascii.eqb_eq _]%andb_true_iff. by eexists _, _.
Qed.

(** A list that holds an entity tag is neither empty nor the text [*]. *)
Lemma tag_list_header lead t tail :
  is_pad lead = true -> is_etag t = true ->
  (lead ++ t ++ tail)%string <> EmptyString /\
  String.eqb (lead ++ t ++ tail) "*" = false.
Proof.
  intros Hl Ht. destruct (is_etag_head t Ht) as (c & t' & -> & Hc).
  destruct lead as [|d lead].
  - rewrite app_nil, app_cons. split; [done|].
    apply String.eqb_neq. intros [= -> _]. done.
  - rewrite app_cons. split; [done|]. cbn [is_pad] in Hl.
    apply andb_true_iff in Hl as [Hd _].
    apply String.eqb_neq. intros [= -> _]. done.
Qed.

(** X8. An [If-Match] that lists entity tags, with any mix of spaces and
    commas around them, fails the precondition exactly when none of them
    is the entity tag of the response under the weak comparison, in which
    the mark [W/] is left aside. *)
Theorem if_match_weak_comparison (Date_parse : string -> number)
    (req : request) (res : response) (lead trail t : string)
    (rest : list (string * string)) (e : string) :
  headers req !! "if-match"%string = Some (lead ++ join_each t rest ++ trail)%string ->
  is_pad lead = true ->
  is_pad trail = true ->
  forallb is_gap (map fst rest) = true ->
  forallb clean_token (t :: map snd rest) = true ->
  forallb is_etag (t :: map snd rest) = true ->
  get res "etag" = Some e ->
  is_etag e = true ->
  isPreconditionFailure Date_parse req res =
  forallb (fun tok => negb (String.eqb (opaque tok) (opaque e)))
    (t :: map snd rest).
Proof.
  intros Hm Hl Htr Hg Hclean Htags He Hetag.
  assert (Ht : is_etag t = true).
  { cbn [forallb] in Htags. by apply andb_true_iff in Htags as [? _]. }
  destruct (join_each_head t rest) as (tail & Hj).
  destruct (tag_list_header lead t (tail ++ trail) Hl Ht) as [Hne Hstar].
  assert (Hh : (lead ++ t ++ tail ++ trail)%string =
               (lead ++ join_each t rest ++ trail)%string)
    by (by rewrite Hj, append_assoc).
  rewrite Hh in Hne, Hstar.
  rewrite (isPreconditionFailure_if_match Date_parse req res _ Hm Hne).
  rewrite He. cbn [default from_option id]. rewrite truthy_Some.
  destruct (is_etag_head e Hetag) as (d & e' & -> & _).
  change (String.eqb (String d e') "") with false. cbn [negb orb].
  rewrite Hstar. cbn [negb andb].
  rewrite parseTokenList_scan, scan_tokens_pad, scan_tokens_join_each by done.
  clear Hm Hj Hclean Hne Hstar Ht Hh. revert Htags. generalize (t :: map snd rest).
  induction l as [|tok l IH]; [done|]. cbn [forallb].
  intros [Htok Hl']%andb_true_iff. by rewrite weak_comparison, IH.
Qed.

Lemma if_match_weak_comparison_witness :
  isPreconditionFailure IMF.Date_parse req_if_match_spaced res_v2 =
  forallb (fun tok => negb (String.eqb (opaque tok) (opaque tag_v2)))
    [tag_v1; ("W/" ++ tag_v2)%string; tag_v1].
Proof.
  apply (if_match_weak_comparison IMF.Date_parse req_if_match_spaced res_v2
           " " " ," tag_v1
           [(", ", "W/" ++ tag_v2); (" ,", tag_v1)]%string
           tag_v2); reflexivity.
Defined.

(** *** Entity tags in [If-Range] *)

Lemma startsWith_split p s :
  startsWith p s = true <-> exists b, s = (p ++ b)%string.
Proof.
  split.
  - intros H. eexists. by apply app_length_drop.
  - intros (b & ->). apply startsWith_app.
Qed.

Lemma includes_split p s :
  includes p s = true <-> exists a b, s = (a ++ p ++ b)%string.
Proof.
  induction s as [|c s IH].
  - cbn [includes]. rewrite orb_false_r, startsWith_split. split.
    + intros (b & ->). by exists EmptyString, b.
    + intros ([|x a] & b & H); [by exists b|]. by rewrite app_cons in H.
  - rewrite includes_cons, orb_true_iff, startsWith_split, IH. split.
    + intros [(b & ->)|(a & b & ->)]; [by exists EmptyString, b|].
      exists (String c a), b. by rewrite app_cons.
    + intros ([|x a] & b & H).
      * left. by exists b.
      * right. rewrite app_cons in H. injection H as -> ->. by exists a, b.
Qed.

(** X9. An [If-Range] that holds a double quote is compared with the
    [ETag] of the response as text: the range is fresh exactly when the
    response has a non-empty [ETag] that occurs somewhere in the header.
    Dates play no part. *)
Theorem if_range_entity_tag (Date_parse : string -> number)
    (req : request) (res : response) (hdr : string) :
  headers req !! "if-range"%string = Some hdr ->
  includes dquote hdr = true ->
  (isRangeFresh Date_parse req res = true <->
   exists tag a b,
     get res "etag" = Some tag /\ tag <> EmptyString /\
     hdr = (a ++ tag ++ b)%string).
Proof.
  intros Hh Hq. unfold isRangeFresh. rewrite Hh, truthy_Some.
  destruct (String.eqb_spec hdr "") as [->|_]; [done|].
  cbn [negb default from_option id].
  rewrite Hq. destruct (get res "etag") as [tag|];
    cbn [truthy default from_option id].
  - rewrite andb_true_iff, negb_true_iff, String.eqb_neq, includes_split. split.
    + intros [Hne (a & b & ->)]. by exists tag, a, b.
    + intros (tag' & a & b & [= <-] & Hne & ->). split; [done|]. by exists a, b.
  - split; [done|]. by intros (? & ? & ? & ? & _).
Qed.

Lemma if_range_entity_tag_witness :
  isRangeFresh IMF.Date_parse req_if_range_weak res_v2 = true <->
  exists tag a b,
    get res_v2 "etag" = Some tag /\ tag <> EmptyString /\
    ("W/" ++ tag_v2)%string = (a ++ tag ++ b)%string.
Proof.
  apply (if_range_entity_tag IMF.Date_parse req_if_range_weak res_v2
           ("W/" ++ tag_v2)%string); reflexivity.
Defined.

(** ** Paths that climb *)

Example UP_PATH_REGEXP_source :
  RegExp_new "(?:^|[\\/])\.\.(?:[\\/]|$)" =
  Normal (MkRegExp "(?:^|[\\/])\.\.(?:[\\/]|$)" UP_PATH_REGEXP).
Proof. by vm_compute. Qed.

Lemma up_sep_mem c : xorb false (class_mem [CChar "\"; CChar "/"] c) = is_path_sep c.
Proof. unfold class_mem, is_path_sep. cbn [existsb item_mem xorb]. by rewrite orb_false_r. Qed.

Lemma matched_orelse {A} (a b : option A) :
  matched (orelse a b) = matched a || matched b.
Proof. by destruct a, b. Qed.

(** The part of the pattern after the first alternative. *)
Lemma up_tail_dots i s cs :
  matched (m (RSeq (RChar ".") (RSeq (RChar ".") (RAlt up_sep REol)))
             (MState i s cs) Some) = dots s.
Proof.
  cbn [m]. destruct s as [|a [|b t]].
  - done.
  - rewrite one_char_cons. destruct (Ascii.eqb "." a); [by rewrite one_char_nil|done].
  - rewrite one_char_cons. cbn [dots].
    rewrite (Ascii.eqb_sym a "."), (Ascii.eqb_sym b ".").
    destruct (Ascii.eqb "." a); [|done].
    rewrite one_char_cons. destruct (Ascii.eqb "." b); [|done].
    rewrite matched_orelse. cbn [rest andb]. unfold up_sep. cbn [m].
    destruct t as [|c t].
    + by rewrite one_char_nil.
    + rewrite one_char_cons, up_sep_mem. destruct (is_path_sep c); done.
Qed.

Lemma exec_at_up i s :
  matched (exec_at UP_PATH_REGEXP i s) =
  (i =? 0)%nat && dots s ||
  match s with
  | EmptyString => false
  | String c s' => is_path_sep c && dots s'
  end.
Proof.
  unfold exec_at, UP_PATH_REGEXP.
  change (m (RSeq (RAlt RBol up_sep) ?r) ?x Some)
    with (orelse (m RBol x (fun y => m r y Some))
                 (m up_sep x (fun y => m r y Some))).
  rewrite matched_orelse. f_equal.
  - cbn [m pos]. destruct (i =? 0)%nat; [|done]. apply up_tail_dots.
  - unfold up_sep. cbn [m]. destruct s as [|c s']; [done|].
    rewrite one_char_cons, up_sep_mem. destruct (is_path_sep c); [|done].
    apply up_tail_dots.
Qed.

Lemma search_up s : forall i,
  matched (search UP_PATH_REGEXP i s) = (i =? 0)%nat && dots s || dots_after s.
Proof.
  induction s as [|c s IH]; intros i.
  - cbn [search]. pose proof (exec_at_up i "") as H.
    destruct (exec_at UP_PATH_REGEXP i ""); cbn [matched] in *; [|done].
    by rewrite andb_false_r in H.
  - cbn [search]. pose proof (exec_at_up i (String c s)) as H.
    destruct (exec_at UP_PATH_REGEXP i (String c s)); cbn [matched] in H.
    + cbn [matched dots_after]. rewrite orb_assoc, <- H. done.
    + rewrite IH. cbn [Nat.eqb andb orb dots_after].
      symmetry in H. apply orb_false_iff in H as [-> ->]. done.
Qed.

Lemma test_up path :
  test UP_PATH_REGEXP path = dots path || dots_after path.
Proof.
  unfold test. pose proof (search_up path 0) as H. cbn [Nat.eqb andb] in H.
  rewrite <- H. by destruct (search UP_PATH_REGEXP 0 path).
Qed.

Lemma split_where_cons p s : exists x xs, split_where p s = x :: xs.
Proof.
  destruct s as [|c s]; [by eexists _, _|]. cbn [split_where].
  destruct (p c); [by eexists _, _|].
  destruct (split_where p s); by eexists _, _.
Qed.

Lemma is_path_sep_dot c : is_path_sep c = true -> Ascii.eqb c "." = false.
Proof.
  unfold is_path_sep. intros [H|H]%orb_true_iff; apply Ascii.eqb_eq in H as ->; done.
Qed.

(** The first segment is [..] exactly when the string begins with one. *)
Lemma head_dots s x xs :
  split_where is_path_sep s = x :: xs -> (x = ".."%string <-> dots s = true).
Proof.
  destruct s as [|a s]; cbn [split_where dots].
  { intros [= <- <-]. done. }
  destruct (is_path_sep a) eqn:Ha.
  { intros [= <- <-]. apply is_path_sep_dot in Ha.
    destruct s; [done|]. by rewrite Ha. }
  destruct (split_where_cons is_path_sep s) as (y & ys & Hs). rewrite Hs.
  intros [= <- <-].
  destruct s as [|b s]; cbn [split_where] in Hs.
  { injection Hs as <- <-. done. }
  destruct (is_path_sep b) eqn:Hb.
  { injection Hs as <- <-. apply is_path_sep_dot in Hb. rewrite Hb, andb_false_r.
    done. }
  destruct (split_where_cons is_path_sep s) as (z & zs & Hs'). rewrite Hs' in Hs.
  injection Hs as <- <-.
  destruct s as [|c s]; cbn [split_where] in Hs'.
  { injection Hs' as <- <-. rewrite andb_true_r.
    destruct (Ascii.eqb_spec a "."), (Ascii.eqb_spec b "."); cbn [andb];
      split; congruence. }
  destruct (is_path_sep c) eqn:Hc.
  { injection Hs' as <- <-. rewrite andb_true_r.
    destruct (Ascii.eqb_spec a "."), (Ascii.eqb_spec b "."); cbn [andb];
      split; congruence. }
  destruct (split_where_cons is_path_sep s) as (w & ws & Hs''). rewrite Hs'' in Hs'.
  injection Hs' as <- <-. rewrite andb_false_r. done.
Qed.

Lemma dots_segments s :
  (dots s || dots_after s = true <-> In ".."%string (split_where is_path_sep s)) /\
  (dots_after s = true <-> In ".."%string (tail (split_where is_path_sep s))).
Proof.
  induction s as [|c s [IHa IHb]].
  - cbn. intuition congruence.
  - assert (Hb : dots_after (String c s) = true <->
                 In ".."%string (tail (split_where is_path_sep (String c s)))).
    { cbn [dots_after split_where]. destruct (is_path_sep c) eqn:Hc.
      - cbn [andb tail]. exact IHa.
      - cbn [andb orb]. destruct (split_where_cons is_path_sep s) as (x & xs & Hs).
        rewrite Hs in *. exact IHb. }
    split; [|exact Hb].
    destruct (split_where_cons is_path_sep (String c s)) as (x & xs & Hs).
    pose proof (head_dots _ _ _ Hs) as Hh. rewrite Hs in *. cbn [tail In] in *.
    rewrite orb_true_iff, <- Hh, Hb. intuition congruence.
Qed.

(** X10. [UP_PATH_REGEXP] matches a path exactly when one of its segments,
    taken between slashes and backslashes, is [..]. *)
Theorem UP_PATH_REGEXP_segments path :
  test UP_PATH_REGEXP path = true <->
  In ".."%string (split_where is_path_sep path).
Proof. rewrite test_up. apply dots_segments. Qed.

Lemma containsDotFile_spec parts :
  containsDotFile parts = true <->
  exists c t, In (String "." (String c t)) parts.
Proof.
  induction parts as [|part parts IH]; cbn [containsDotFile In].
  - split; [done|]. by intros (? & ? & []).
  - destruct part as [|a [|b t]]; cbn [String.length Nat.ltb Nat.leb andb].
    + rewrite IH. split; [intros (c & t & H); eauto|].
      intros (c & t & [H|H]); [done|eauto].
    + rewrite IH. split; [intros (c & t & H); eauto|].
      intros (c & t & [H|H]); [done|eauto].
    + rewrite startsWith_char. destruct (Ascii.eqb_spec "." a) as [<-|Hne].
      * split; [eauto|done].
      * rewrite IH. split; [intros (c & t' & H); eauto|].
        intros (c & t' & [H|H]); [congruence|eauto].
Qed.

(** X11. Every path that [UP_PATH_REGEXP] matches has a segment that
    [containsDotFile] reports. *)
Theorem up_path_is_dotfile path :
  test UP_PATH_REGEXP path = true ->
  containsDotFile (split_where is_path_sep path) = true.
Proof.
  rewrite test_up. intros H%dots_segments. apply containsDotFile_spec. eauto.
Qed.

Lemma up_path_is_dotfile_witness :
  containsDotFile (split_where is_path_sep "/a/../b") = true.
Proof. apply (up_path_is_dotfile "/a/../b"). reflexivity. Defined.

(** ** Escaped JSON text *)

Lemma escape_re_mem c :
  xorb false (class_mem [CChar "<"; CChar ">"; CChar "&"] c) = is_html c.
Proof.
  unfold class_mem, is_html. cbn [existsb item_mem xorb].
  by rewrite orb_false_r, orb_assoc.
Qed.

Lemma code_eqb c d n :
  nat_of_ascii d = n -> (nat_of_ascii c =? n)%nat = Ascii.eqb c d.
Proof.
  intros <-. destruct (Ascii.eqb_spec c d) as [->|Hne].
  - apply Nat.eqb_refl.
  - apply Nat.eqb_neq. intros E. apply Hne.
    by rewrite <- (ascii_nat_embedding c), E, ascii_nat_embedding.
Qed.

Lemma escape_char_unit c t cs :
  escape_char (String c t) cs =
  if is_html c then escape_unit c else String c t.
Proof.
  unfold escape_char, escape_unit, is_html.
  rewrite (code_eqb c "<" 60 eq_refl), (code_eqb c ">" 62 eq_refl),
    (code_eqb c "&" 38 eq_refl).
  destruct (Ascii.eqb c "<"); [done|].
  destruct (Ascii.eqb c ">"); [done|].
  destruct (Ascii.eqb c "&"); done.
Qed.

Lemma escape_unit_plain c : is_html c = false -> escape_unit c = String c EmptyString.
Proof.
  unfold is_html, escape_unit.
  intros [[-> ->]%orb_false_iff ->]%orb_false_iff. done.
Qed.

Lemma replace_escape s : forall i,
  replace_from 0 escape_re escape_char i s = escape_html s.
Proof.
  induction s as [|c s IH]; intros i; [done|].
  cbn [replace_from escape_html]. unfold exec_at, escape_re. cbn [m].
  rewrite one_char_cons, escape_re_mem.
  destruct (is_html c) eqn:Hc.
  - cbn [pos caps]. replace (S i - i)%nat with 1%nat by lia.
    cbn [take]. rewrite escape_char_unit, Hc. f_equal. apply IH.
  - rewrite escape_unit_plain by done. rewrite app_cons, app_nil. f_equal. apply IH.
Qed.

Lemma stringify_escape_html {Value Replacer Spaces}
    (JSON_stringify : Value -> option Replacer -> option Spaces -> option string)
    value replacer spaces :
  stringify JSON_stringify value replacer spaces true =
  escape_html <$> stringify JSON_stringify value replacer spaces false.
Proof.
  unfold stringify.
  destruct (if given replacer || given spaces then _ else _) as [j|]; [|done].
  cbn. f_equal. apply replace_escape.
Qed.

Lemma escape_unit_clean c d : is_html d = true -> ~ occurs d (escape_unit c).
Proof.
  unfold is_html, escape_unit, occurs. intros Hd.
  destruct (Ascii.eqb_spec c "<") as [->|H1];
    [|destruct (Ascii.eqb_spec c ">") as [->|H2];
      [|destruct (Ascii.eqb_spec c "&") as [->|H3]]].
  1-3: cbn; intros H; repeat (destruct H as [<-|H]; [done|]); done.
  cbn. intros [<-|[]]. 
  apply orb_true_iff in Hd as [[Hd|Hd]%orb_true_iff|Hd];
    apply Ascii.eqb_eq in Hd; congruence.
Qed.

Lemma occurs_app c a b : occurs c (a ++ b) <-> occurs c a \/ occurs c b.
Proof.
  unfold occurs. induction a as [|x a IH]; [cbn; tauto|].
  rewrite app_cons. cbn. rewrite IH. tauto.
Qed.

Lemma escape_html_clean s d : is_html d = true -> ~ occurs d (escape_html s).
Proof.
  intros Hd. induction s as [|c s IH]; [by intros []|].
  cbn [escape_html]. rewrite occurs_app. intros [H|H]; [|done].
  by apply (escape_unit_clean c d).
Qed.

Lemma escape_unit_length c :
  String.length (escape_unit c) = ((if is_html c then 5 else 0) + 1)%nat.
Proof.
  unfold is_html, escape_unit.
  destruct (Ascii.eqb c "<"); [done|]. destruct (Ascii.eqb c ">"); [done|].
  destruct (Ascii.eqb c "&"); done.
Qed.

Lemma escape_html_length s :
  String.length (escape_html s) = (String.length s + 5 * count is_html s)%nat.
Proof.
  induction s as [|c s IH]; [done|].
  cbn [escape_html count String.length]. rewrite length_app, escape_unit_length, IH.
  destruct (is_html c); lia.
Qed.

Lemma escape_html_plain s : count is_html s = 0%nat -> escape_html s = s.
Proof.
  induction s as [|c s IH]; [done|]. cbn [count escape_html].
  destruct (is_html c) eqn:Hc; [done|]. intros H.
  by rewrite escape_unit_plain, IH.
Qed.

Lemma escape_html_expand s :
  escape_html s =
  expand (fun c =>
            if Ascii.eqb c "<" then "\u003c"
            else if Ascii.eqb c ">" then "\u003e"
            else if Ascii.eqb c "&" then "\u0026"
            else String c EmptyString)%string s.
Proof. induction s as [|c s IH]; [done|]. cbn [escape_html expand]. by rewrite IH. Qed.

(** X12. With [escape] set, [stringify] returns the JSON text with each [<]
    replaced by the six code units [\u003c], each [>] by [\u003e], each
    [&] by [\u0026], and every other code unit kept: none of the three is
    left, the text grows by five code units for each, and a text without
    them is returned as it is. Where [JSON.stringify] gives [undefined],
    so does [stringify]. *)
Theorem stringify_escape {Value Replacer Spaces}
    (JSON_stringify : Value -> option Replacer -> option Spaces -> option string)
    value replacer spaces :
  match stringify JSON_stringify value replacer spaces false with
  | Some json =>
      exists out,
        stringify JSON_stringify value replacer spaces true = Some out /\
        out = expand (fun c =>
                        if Ascii.eqb c "<" then "\u003c"
                        else if Ascii.eqb c ">" then "\u003e"
                        else if Ascii.eqb c "&" then "\u0026"
                        else String c EmptyString)%string json /\
        (forall d, is_html d = true -> ~ occurs d out) /\
        String.length out = (String.length json + 5 * count is_html json)%nat /\
        (out = json <-> count is_html json = 0%nat)
  | None => stringify JSON_stringify value replacer spaces true = None
  end.
Proof.
  rewrite stringify_escape_html.
  destruct (stringify JSON_stringify value replacer spaces false) as [json|];
    [|done].
  exists (escape_html json). split; [done|].
  split; [apply escape_html_expand|].
  split; [intros d Hd; by apply escape_html_clean|].
  split; [apply escape_html_length|].
  split; [|apply escape_html_plain].
  intros H. pose proof (escape_html_length json) as Hl. rewrite H in Hl. lia.
Qed.

(** ** Proxy trust from a string *)

Lemma split_comma_cons s : exists x xs, split_comma s = x :: xs.
Proof.
  destruct s as [|c s]; [by eexists _, _|]. cbn [split_comma].
  destruct (Ascii.eqb c ","); [by eexists _, _|].
  destruct (split_comma s); by eexists _, _.
Qed.

Lemma split_comma_length s :
  length (split_comma s) = S (count (Ascii.eqb ",") s).
Proof.
  induction s as [|c s IH]; [done|]. cbn [split_comma count].
  rewrite (Ascii.eqb_sym "," c). destruct (Ascii.eqb c ",").
  - cbn [length]. by rewrite IH.
  - destruct (split_comma_cons s) as (x & xs & Hs). rewrite Hs in *. exact IH.
Qed.

Lemma split_comma_no_comma s : Forall (fun e => ~ occurs "," e) (split_comma s).
Proof.
  induction s as [|c s IH]; [constructor; [by intros []|constructor]|].
  cbn [split_comma].
  destruct (Ascii.eqb_spec c ",") as [->|Hne].
  - constructor; [by intros []|done].
  - destruct (split_comma_cons s) as (x & xs & Hs). rewrite Hs in *.
    inversion IH as [|? ? Hx Hxs]; subst. constructor; [|done].
    intros [H|H]; [congruence|done].
Qed.

Lemma trimStart_occurs c s : occurs c (trimStart s) -> occurs c s.
Proof.
  induction s as [|x s IH]; [done|]. cbn [trimStart].
  destruct (is_space x); [|done]. intros H. right. by apply IH.
Qed.

Lemma trimEnd_occurs c s : occurs c (trimEnd s) -> occurs c s.
Proof.
  induction s as [|x s IH]; [done|]. cbn [trimEnd].
  destruct (trimEnd s) as [|y t].
  - destruct (is_space x); [by intros []|]. intros [H|[]]. by left.
  - intros [H|H]; [by left|right; by apply IH].
Qed.

Lemma trimEnd_idem s : trimEnd (trimEnd s) = trimEnd s.
Proof.
  induction s as [|x s IH]; [done|]. cbn [trimEnd].
  destruct (trimEnd s) as [|y t] eqn:E.
  - destruct (is_space x) eqn:Hx; [done|]. cbn [trimEnd]. by rewrite Hx.
  - cbn [trimEnd]. cbn [trimEnd] in IH. by rewrite IH.
Qed.

Lemma trimStart_starts_clean s : starts_clean (trimStart s).
Proof.
  induction s as [|x s IH]; [done|]. cbn [trimStart].
  destruct (is_space x) eqn:Hx; [done|]. exact Hx.
Qed.

Lemma trimEnd_starts_clean s : starts_clean s -> starts_clean (trimEnd s).
Proof.
  destruct s as [|x s]; [done|]. cbn [starts_clean trimEnd]. intros Hx.
  destruct (trimEnd s); [by rewrite Hx|done].
Qed.

Lemma trimStart_fixed s : starts_clean s -> trimStart s = s.
Proof. destruct s as [|x s]; [done|]. cbn. by intros ->. Qed.

Lemma trim_idem s : trim (trim s) = trim s.
Proof.
  unfold trim. rewrite (trimStart_fixed (trimEnd (trimStart s))).
  - apply trimEnd_idem.
  - apply trimEnd_starts_clean, trimStart_starts_clean.
Qed.

(** X13. A string setting is handed to [proxyaddr.compile] as a list with one
    entry for each comma-separated piece; no entry holds a comma or has
    white space left at either end. The empty string gives the one entry
    [""], not the empty list. *)
Theorem compileTrust_string (proxyaddr_compile : value -> completion TrustPredicate) s :
  exists entries,
    compileTrust proxyaddr_compile (VString s) =
      proxyaddr_compile (VArray (map VString entries)) /\
    length entries = S (count (Ascii.eqb ",") s) /\
    Forall (fun e => ~ occurs "," e /\ trim e = e) entries.
Proof.
  exists (map trim (split_comma s)). split; [|split].
  - cbn [compileTrust to_boolean]. by rewrite map_map.
  - by rewrite length_map, split_comma_length.
  - apply Forall_map. eapply Forall_impl; [apply split_comma_no_comma|].
    intros e He. cbn beta. split; [|apply trim_idem].
    intros H. apply He. unfold trim in H.
    by apply trimStart_occurs, trimEnd_occurs.
Qed.

(** ** Templates, compiled and matched *)

Lemma existsb_shift (f : nat -> bool) n : forall a,
  existsb f (seq (S a) n) = existsb (fun j => f (S j)) (seq a n).
Proof. induction n as [|n IH]; intros a; [done|]. cbn [seq existsb]. by rewrite IH. Qed.

Lemma existsb_same {A} (f g : A -> bool) l :
  (forall x, f x = g x) -> existsb f l = existsb g l.
Proof. intros H. induction l as [|x l IH]; [done|]. cbn. by rewrite H, IH. Qed.

(** A greedy repetition of a one-character matcher tries every length of
    the run, from the minimum on. *)
Lemma repeat_run_matched p k fuel : forall lo i s cs,
  (run p s < fuel)%nat ->
  matched (repeat_matcher (one_char p) [] true k fuel lo None (MState i s cs)) =
  existsb (fun j => matched (k (MState (i + j) (drop j s) cs)))
    (seq lo (S (run p s) - lo)).
Proof.
  induction fuel as [|fuel IH]; intros lo i s cs Hfuel; [lia|].
  cbn [repeat_matcher]. unfold clear_caps. cbn [foldr pos rest caps].
  change (Nat.pred <$> None) with (@None nat).
  assert (Hne : (S i =? i)%nat = false) by (apply Nat.eqb_neq; lia).
  destruct s as [|c s'].
  - rewrite one_char_nil. cbn [run].
    destruct lo as [|lo]; cbn [Nat.eqb negb Nat.sub seq existsb orelse].
    + by rewrite Nat.add_0_r, drop_0, orb_false_r.
    + done.
  - rewrite one_char_cons. cbn [run] in *. destruct (p c) eqn:Hp.
    + cbn [pos]. rewrite Hne, andb_false_r.
      assert (Hshift : forall a n,
        existsb (fun j => matched (k (MState (S i + j) (drop j s') cs))) (seq a n) =
        existsb (fun j => matched (k (MState (i + j) (drop j (String c s')) cs)))
          (seq (S a) n)).
      { intros a n. rewrite existsb_shift. apply existsb_same.
        intros j. cbn [drop]. by replace (S i + j)%nat with (i + S j)%nat by lia. }
      destruct lo as [|lo]; cbn [Nat.eqb negb Nat.pred].
      * rewrite matched_orelse, IH by lia.
        rewrite !Nat.sub_0_r.
        change (seq 0 (S (S (run p s')))) with (0%nat :: seq 1 (S (run p s'))).
        cbn [existsb]. rewrite orb_comm. f_equal; [by rewrite Nat.add_0_r, drop_0|apply Hshift].
      * rewrite IH by lia.
        replace (S (S (run p s')) - S lo)%nat with (S (run p s') - lo)%nat by lia.
        apply Hshift.
    + destruct lo as [|lo]; cbn [Nat.eqb negb Nat.sub seq existsb orelse].
      * by rewrite Nat.add_0_r, drop_0, orb_false_r.
      * done.
Qed.

(** The terms of a template, followed by [last], match as [accepts] says,
    when the success of what follows depends on the input left only. *)
Lemma m_terms last k K segs : forall next i s cs,
  (forall i s cs, matched (m last (MState i s cs) k) = K s) ->
  matched (m (seq_of (terms_of next segs ++ [last])) (MState i s cs) k) =
  accepts segs K s.
Proof.
  induction segs as [|[c|n] segs IH]; intros next i s cs HK;
    cbn [terms_of accepts].
  - cbn [app seq_of]. apply HK.
  - rewrite <- app_comm_cons, seq_of_cons_snoc. cbn [m].
    destruct s as [|d s]; [done|]. rewrite one_char_cons.
    destruct (Ascii.eqb c d); [|done]. cbn [andb]. by apply IH.
  - rewrite <- app_comm_cons, seq_of_cons_snoc. unfold param_term.
    cbn [m groups_of rest pos caps].
    etransitivity; [apply (repeat_run_matched not_slash)|].
    { pose proof (run_le_length not_slash s). lia. }
    replace (S (run not_slash s) - 1)%nat with (run not_slash s) by lia.
    apply existsb_same. intros j. cbn [pos rest caps]. by apply IH.
Qed.

Lemma not_slash_spec c : not_slash c = negb (Ascii.eqb c "/").
Proof. unfold not_slash, class_mem. cbn [existsb item_mem]. by rewrite orb_false_r. Qed.

Lemma run_take_clean j : forall s,
  (j <= run not_slash s)%nat -> includes "/" (take j s) = false.
Proof.
  induction j as [|j IH]; intros s Hj; [by destruct s|].
  destruct s as [|c s]; cbn [run] in *; [lia|].
  destruct (not_slash c) eqn:Hc; [|lia]. cbn [take].
  rewrite includes_cons, startsWith_char, IH by lia.
  rewrite not_slash_spec in Hc. apply negb_true_iff in Hc.
  by rewrite Ascii.eqb_sym, Hc.
Qed.

Lemma run_app_clean v : forall s,
  includes "/" v = false -> (String.length v <= run not_slash (v ++ s))%nat.
Proof.
  induction v as [|c v IH]; intros s Hv; [cbn; lia|].
  rewrite includes_cons, startsWith_char in Hv. cbv iota in Hv.
  apply orb_false_iff in Hv as [Hc Hv]. rewrite app_cons. cbn [run String.length].
  rewrite not_slash_spec, Ascii.eqb_sym, Hc. cbn [negb]. specialize (IH s Hv). lia.
Qed.

Lemma take_nonempty j s :
  (1 <= j <= String.length s)%nat -> String.eqb (take j s) "" = false.
Proof. destruct j, s; cbn; (lia || done). Qed.

(** What [accepts] accepts: the template filled with parameter values,
    followed by an input that [K] accepts. *)
Lemma accepts_fill K segs : forall s,
  accepts segs K s = true <->
  exists vals tail,
    length vals = length (names segs) /\
    forallb param_value vals = true /\
    s = (fill segs vals ++ tail)%string /\ K tail = true.
Proof.
  induction segs as [|[c|n] segs IH]; intros s; cbn [accepts names fill].
  - split.
    + intros H. exists [], s. by rewrite app_nil.
    + intros (vals & tail & _ & _ & -> & H). by rewrite app_nil.
  - destruct s as [|d s].
    + split; [done|]. intros (vals & tail & _ & _ & H & _). by rewrite app_cons in H.
    + rewrite andb_true_iff, IH, Ascii.eqb_eq. split.
      * intros [-> (vals & tail & Hl & Hv & -> & HK)]. exists vals, tail.
        by rewrite app_cons.
      * intros (vals & tail & Hl & Hv & H & HK). rewrite app_cons in H.
        injection H as -> ->. split; [done|]. by exists vals, tail.
  - rewrite existsb_exists. split.
    + intros (j & [Hj1 Hj2]%in_seq & Hacc).
      apply IH in Hacc as (vals & tail & Hl & Hv & Hd & HK).
      exists (take j s :: vals), tail. cbn [length forallb].
      pose proof (run_le_length not_slash s).
      split; [by rewrite Hl|]. split; [|split; [|done]].
      * rewrite Hv. unfold param_value.
        rewrite take_nonempty, run_take_clean by lia. done.
      * by rewrite append_assoc, <- Hd, take_drop_app.
    + intros (vals & tail & Hl & Hv & -> & HK).
      destruct vals as [|v vals]; [done|]. cbn [length forallb] in *.
      apply andb_true_iff in Hv as [Hv Hvs]. unfold param_value in Hv.
      apply andb_true_iff in Hv as [Hne Hcl]. apply negb_true_iff in Hne, Hcl.
      exists (String.length v). rewrite append_assoc. split.
      * apply in_seq. pose proof (run_app_clean v (fill segs vals ++ tail) Hcl).
        destruct v; [done|]. cbn [String.length] in *. lia.
      * rewrite drop_app. apply IH. exists vals, tail.
        split; [lia|]. done.
Qed.

(** *** Templates that compile *)

Lemma compile_template segs (isPrefix : bool) :
  well_formed segs = true ->
  isPrefix && String.eqb (text segs) "" = false ->
  patternToRegex (PString (text segs)) isPrefix =
  if forallb valid_name (names segs) && negb (has_dup (names segs))
  then Normal (MkRegExp (regex_source (text segs) isPrefix)
                 (seq_of (RBol :: terms_of 1 segs ++
                            [if isPrefix then boundary else REol])))
  else Throw SyntaxError.
Proof.
  intros Hw He. unfold patternToRegex. rewrite He.
  unfold RegExp_new. rewrite lex_regex_source by done.
  destruct (forallb valid_name (names segs)); [|done].
  rewrite parse_source, group_names_source, name_clash_source.
  by destruct (has_dup (names segs)).
Qed.

(** X14. A template compiles exactly when its parameter names are group
    names, none repeated; otherwise [new RegExp] raises a [SyntaxError]. *)
Theorem template_compiles segs (isPrefix : bool) :
  well_formed segs = true ->
  isPrefix && String.eqb (text segs) "" = false ->
  if forallb valid_name (names segs) && negb (has_dup (names segs))
  then exists re, patternToRegex (PString (text segs)) isPrefix = Normal re /\
                  source re = regex_source (text segs) isPrefix
  else patternToRegex (PString (text segs)) isPrefix = Throw SyntaxError.
Proof.
  intros Hw He. rewrite compile_template by done.
  destruct (forallb valid_name (names segs) && negb (has_dup (names segs)));
    [|done].
  by eexists.
Qed.

Lemma template_compiles_witness :
  patternToRegex (PString "/user/:1") false = Throw SyntaxError.
Proof.
  apply (template_compiles
           [Lit "/"; Lit "u"; Lit "s"; Lit "e"; Lit "r"; Lit "/"; Param "1"] false);
    reflexivity.
Defined.

(** *** What a compiled template matches *)

Lemma test_template segs last K path :
  (forall i s cs, matched (m last (MState i s cs) Some) = K s) ->
  test (seq_of (RBol :: terms_of 1 segs ++ [last])) path = accepts segs K path.
Proof.
  intros HK. rewrite seq_of_cons_snoc, test_bol. unfold exec_at.
  change (m (RSeq RBol ?r) ?x ?k) with (m r x k).
  rewrite <- (m_terms last Some K segs 1 0 path ∅ HK).
  by destruct (m _ _ _).
Qed.

Lemma matched_eol i s cs :
  matched (m REol (MState i s cs) Some) = String.eqb s "".
Proof. by destruct s. Qed.

Lemma matched_boundary i s cs :
  matched (m boundary (MState i s cs) Some) = at_boundary s.
Proof. rewrite m_boundary. by destruct (at_boundary s). Qed.

Lemma valid_nodup segs :
  forallb valid_name (names segs) = true -> has_dup (names segs) = false ->
  forallb valid_name (names segs) && negb (has_dup (names segs)) = true.
Proof. by intros -> ->. Qed.

(** X15. The matcher compiled from a template matches exactly the paths
    that are the template with each parameter replaced by a non-empty
    text without [/]. *)
Theorem template_matches segs :
  well_formed segs = true ->
  forallb valid_name (names segs) = true ->
  has_dup (names segs) = false ->
  exists re,
    patternToRegex (PString (text segs)) false = Normal re /\
    forall path,
      RegExp_test re path = true <->
      exists vals,
        length vals = length (names segs) /\
        forallb param_value vals = true /\
        path = fill segs vals.
Proof.
  intros Hw Hv Hd. eexists. split.
  { rewrite compile_template, valid_nodup by done. reflexivity. }
  intros path. unfold RegExp_test. cbn [ast].
  rewrite (test_template segs REol (fun s => String.eqb s "")) by apply matched_eol.
  rewrite accepts_fill. split.
  - intros (vals & tail & Hl & Hp & -> & ->%String.eqb_eq).
    exists vals. by rewrite app_nil_r_s.
  - intros (vals & Hl & Hp & ->). exists vals, EmptyString.
    by rewrite app_nil_r_s.
Qed.

Lemma template_matches_witness :
  exists re,
    patternToRegex (PString "/user/:id") false = Normal re /\
    forall path,
      RegExp_test re path = true <->
      exists vals,
        length vals = 1%nat /\
        forallb param_value vals = true /\
        path = fill [Lit "/"; Lit "u"; Lit "s"; Lit "e"; Lit "r"; Lit "/"; Param "id"] vals.
Proof.
  apply (template_matches
           [Lit "/"; Lit "u"; Lit "s"; Lit "e"; Lit "r"; Lit "/"; Param "id"]);
    reflexivity.
Defined.

(** X16. As a prefix, the matcher compiled from a template matches exactly
    the paths that start with the filled template and end there or go on
    with a [/]. *)
Theorem template_matches_prefix segs :
  well_formed segs = true ->
  String.eqb (text segs) "" = false ->
  forallb valid_name (names segs) = true ->
  has_dup (names segs) = false ->
  exists re,
    patternToRegex (PString (text segs)) true = Normal re /\
    forall path,
      RegExp_test re path = true <->
      exists vals tail,
        length vals = length (names segs) /\
        forallb param_value vals = true /\
        path = (fill segs vals ++ tail)%string /\
        (tail = EmptyString \/ startsWith "/" tail = true).
Proof.
  intros Hw Hne Hv Hd. eexists. split.
  { rewrite compile_template, valid_nodup by done. reflexivity. }
  intros path. unfold RegExp_test. cbn [ast].
  rewrite (test_template segs boundary at_boundary) by apply matched_boundary.
  rewrite accepts_fill.
  assert (Hb : forall tail, at_boundary tail = true <->
                            tail = EmptyString \/ startsWith "/" tail = true).
  { intros [|c t]; [by split; [left|]|]. rewrite startsWith_char. cbn [at_boundary].
    split; [by right|]. by intros [|]. }
  split.
  - intros (vals & tail & Hl & Hp & -> & Ht%Hb). by exists vals, tail.
  - intros (vals & tail & Hl & Hp & -> & Ht%Hb). by exists vals, tail.
Qed.

Lemma template_matches_prefix_witness :
  exists re,
    patternToRegex (PString "/user/:id") true = Normal re /\
    forall path,
      RegExp_test re path = true <->
      exists vals tail,
        length vals = 1%nat /\
        forallb param_value vals = true /\
        path = (fill [Lit "/"; Lit "u"; Lit "s"; Lit "e"; Lit "r"; Lit "/"; Param "id"] vals
                ++ tail)%string /\
        (tail = EmptyString \/ startsWith "/" tail = true).
Proof.
  apply (template_matches_prefix
           [Lit "/"; Lit "u"; Lit "s"; Lit "e"; Lit "r"; Lit "/"; Param "id"]);
    reflexivity.
Defined.

(** *** What a compiled template captures *)

(** The continuation of a greedy run is entered at one of its lengths. *)
Lemma repeat_run_some p k fuel : forall lo i s cs y,
  repeat_matcher (one_char p) [] true k fuel lo None (MState i s cs) = Some y ->
  exists j, (lo <= j <= run p s)%nat /\
            k (MState (i + j) (drop j s) cs) = Some y.
Proof.
  induction fuel as [|fuel IH]; intros lo i s cs y; [done|].
  cbn [repeat_matcher]. unfold clear_caps. cbn [foldr pos rest caps].
  change (Nat.pred <$> None) with (@None nat).
  assert (Hne : (S i =? i)%nat = false) by (apply Nat.eqb_neq; lia).
  assert (H0 : k (MState i s cs) = Some y ->
               exists j, (0 <= j <= run p s)%nat /\
                         k (MState (i + j) (drop j s) cs) = Some y).
  { intros H. exists 0%nat. rewrite Nat.add_0_r, drop_0. split; [lia|done]. }
  assert (HS : forall c s' lo',
    s = String c s' -> p c = true ->
    repeat_matcher (one_char p) [] true k fuel lo' None (MState (S i) s' cs) = Some y ->
    exists j, (S lo' <= j <= run p s)%nat /\
              k (MState (i + j) (drop j s) cs) = Some y).
  { intros c s' lo' -> Hp H. apply IH in H as (j & Hj & H). exists (S j).
    cbn [run drop]. rewrite Hp.
    replace (i + S j)%nat with (S i + j)%nat by lia. split; [lia|done]. }
  destruct s as [|c s'].
  - rewrite one_char_nil.
    destruct lo as [|lo]; cbn [Nat.eqb negb orelse]; [exact H0|done].
  - rewrite one_char_cons. destruct (p c) eqn:Hp.
    + cbn [pos]. rewrite Hne, andb_false_r.
      destruct lo as [|lo]; cbn [Nat.eqb negb Nat.pred].
      * destruct (repeat_matcher _ _ _ _ fuel 0 None _) as [z|] eqn:E;
          cbn [orelse].
        -- intros [= <-]. destruct (HS c s' 0%nat eq_refl Hp E) as (j & Hj & H).
           exists j. split; [lia|done].
        -- exact H0.
      * intros H. by apply (HS c s' lo).
    + destruct lo as [|lo]; cbn [Nat.eqb negb orelse]; [exact H0|done].
Qed.

Lemma length_fill_take j s :
  (j <= String.length s)%nat -> String.length (take j s) = j.
Proof.
  revert s. induction j as [|j IH]; intros [|c s] H;
    cbn [take String.length] in *; try lia.
  by rewrite IH by lia.
Qed.

(** A match of the terms of a template binds the parameters to values that
    fill the template to the input consumed. *)
Lemma m_terms_caps last k segs : forall next i s cs y,
  m (seq_of (terms_of next segs ++ [last])) (MState i s cs) k = Some y ->
  exists vals tail,
    length vals = length (names segs) /\
    forallb param_value vals = true /\
    s = (fill segs vals ++ tail)%string /\
    m last (MState (i + String.length (fill segs vals)) tail (bind next vals cs)) k
      = Some y.
Proof.
  induction segs as [|[c|n] segs IH]; intros next i s cs y;
    cbn [terms_of names fill].
  - cbn [app seq_of]. intros H. exists [], s. cbn [String.length bind].
    by rewrite Nat.add_0_r, app_nil.
  - rewrite <- app_comm_cons, seq_of_cons_snoc. cbn [m].
    destruct s as [|d s]; [done|]. rewrite one_char_cons.
    destruct (Ascii.eqb_spec c d) as [->|]; [|done].
    intros (vals & tail & Hl & Hp & -> & H)%IH. exists vals, tail.
    rewrite app_cons. cbn [String.length].
    by replace (i + S (String.length (fill segs vals)))%nat
      with (S i + String.length (fill segs vals))%nat by lia.
  - rewrite <- app_comm_cons, seq_of_cons_snoc. unfold param_term.
    cbn [m groups_of rest pos caps].
    intros (j & Hj & H)%(repeat_run_some not_slash).
    cbn [pos rest caps] in H. 
    replace (i + j - i)%nat with j in H by lia.
    apply IH in H as (vals & tail & Hl & Hp & Hd & H).
    pose proof (run_le_length not_slash s).
    exists (take j s :: vals), tail. cbn [length forallb bind].
    split; [by rewrite Hl|]. split; [|split].
    + rewrite Hp. unfold param_value.
      rewrite take_nonempty, run_take_clean by lia. done.
    + by rewrite append_assoc, <- Hd, take_drop_app.
    + rewrite length_app, length_fill_take by lia.
      by rewrite Nat.add_assoc.
Qed.

Lemma bind_lookup_lt vals : forall next cs idx,
  (idx < next)%nat -> bind next vals cs !! idx = cs !! idx.
Proof.
  induction vals as [|v vals IH]; intros next cs idx H; [done|].
  cbn [bind]. rewrite IH by lia. apply lookup_insert_ne. lia.
Qed.

Lemma named_groups_terms last segs : forall next vals cs,
  named_groups last = [] ->
  length vals = length (names segs) ->
  map (fun g => (fst g, bind next vals cs !! snd g))
    (named_groups (seq_of (terms_of next segs ++ [last]))) =
  combine (names segs) (map Some vals).
Proof.
  intros next vals cs Hlast. revert next vals cs.
  induction segs as [|[c|n] segs IH]; intros next vals cs Hl;
    cbn [terms_of names].
  - cbn [app seq_of]. by rewrite Hlast.
  - rewrite <- app_comm_cons, seq_of_cons_snoc. cbn [named_groups app].
    by apply IH.
  - rewrite <- app_comm_cons, seq_of_cons_snoc. unfold param_term.
    cbn [named_groups app map fst snd].
    destruct vals as [|v vals]; [done|]. cbn [names length] in Hl.
    cbn [bind map combine]. rewrite bind_lookup_lt by lia.
    rewrite lookup_insert_eq. f_equal. apply IH. lia.
Qed.

(** X17. When the matcher compiled from a template matches a path, the
    named groups are the parameters of the template, in order, and their
    values fill the template to the path. *)
Theorem template_captures segs :
  well_formed segs = true ->
  forallb valid_name (names segs) = true ->
  has_dup (names segs) = false ->
  exists re,
    patternToRegex (PString (text segs)) false = Normal re /\
    forall path,
      match RegExp_groups re path with
      | Some groups =>
          RegExp_test re path = true /\
          exists vals,
            groups = combine (names segs) (map Some vals) /\
            length vals = length (names segs) /\
            forallb param_value vals = true /\
            path = fill segs vals
      | None => RegExp_test re path = false
      end.
Proof.
  intros Hw Hv Hd. eexists. split.
  { rewrite compile_template, valid_nodup by done. reflexivity. }
  intros path. unfold RegExp_groups, RegExp_test, test. cbn [ast].
  rewrite seq_of_cons_snoc.
  destruct path as [|c path]; cbn [search].
  - destruct (exec_at _ 0 "") as [y|] eqn:E; [|done]. split; [done|].
    unfold exec_at in E. change (m (RSeq RBol ?r) ?x ?k) with (m r x k) in E.
    apply m_terms_caps in E as (vals & tail & Hl & Hp & Hs & E).
    destruct tail; [|done]. injection E as <-. exists vals.
    rewrite app_nil_r_s in Hs.
    split; [|done]. cbn [caps named_groups app].
    by apply (named_groups_terms REol).
  - destruct (exec_at _ 0 (String c path)) as [y|] eqn:E;
      [|by rewrite search_bol].
    split; [done|].
    unfold exec_at in E. change (m (RSeq RBol ?r) ?x ?k) with (m r x k) in E.
    apply m_terms_caps in E as (vals & tail & Hl & Hp & Hs & E).
    destruct tail; [|done]. injection E as <-. exists vals.
    rewrite app_nil_r_s in Hs.
    split; [|done]. cbn [caps named_groups app].
    by apply (named_groups_terms REol).
Qed.

Lemma template_captures_witness :
  exists re,
    patternToRegex (PString "/user/:id") false = Normal re /\
    forall path,
      match RegExp_groups re path with
      | Some groups =>
          RegExp_test re path = true /\
          exists vals,
            groups = combine ["id"%string] (map Some vals) /\
            length vals = 1%nat /\
            forallb param_value vals = true /\
            path = fill [Lit "/"; Lit "u"; Lit "s"; Lit "e"; Lit "r"; Lit "/"; Param "id"] vals
      | None => RegExp_test re path = false
      end.
Proof.
  apply (template_captures
           [Lit "/"; Lit "u"; Lit "s"; Lit "e"; Lit "r"; Lit "/"; Param "id"]);
    reflexivity.
Defined.

(** *** Patterns without special characters *)

Lemma text_literal p : text (literal_segs p) = p.
Proof.
  unfold literal_segs. induction p as [|c p IH]; [done|].
  cbn [list_ascii_of_string map text]. by rewrite IH.
Qed.

Lemma names_literal p : names (literal_segs p) = [].
Proof. induction p as [|c p IH]; [done|]. exact IH. Qed.

Lemma well_formed_literal p :
  well_formed (literal_segs p) =
  forallb (fun c => negb (is_meta c)) (list_ascii_of_string p).
Proof.
  unfold literal_segs. induction p as [|c p IH]; [done|].
  cbn [list_ascii_of_string map well_formed forallb]. by rewrite IH.
Qed.

Lemma fill_literal p vals : fill (literal_segs p) vals = p.
Proof.
  unfold literal_segs. induction p as [|c p IH]; [done|].
  cbn [list_ascii_of_string map fill]. by rewrite IH.
Qed.

Lemma plain_no_meta p c :
  forallb (fun c => negb (is_meta c)) (list_ascii_of_string p) = true ->
  is_meta c = true -> ~ occurs c p.
Proof.
  intros Hp Hc Ho. rewrite forallb_forall in Hp. specialize (Hp c Ho).
  by rewrite Hc in Hp.
Qed.

(** X18. A pattern without special characters is one that
    [canBeOptimized] accepts and [needsConversionToRegex] leaves alone;
    compiled all the same, it matches the path equal to it and no other,
    dots and hyphens included. *)
Theorem plain_pattern_exact p :
  forallb (fun c => negb (is_meta c)) (list_ascii_of_string p) = true ->
  canBeOptimized (PString p) = true /\
  needsConversionToRegex (PString p) = false /\
  exists re,
    patternToRegex (PString p) false = Normal re /\
    forall path, RegExp_test re path = true <-> path = p.
Proof.
  intros Hp. split; [|split].
  - apply canBeOptimized_string. split.
    + intros ->. done.
    + intros c Hc. apply (plain_no_meta p c Hp). unfold special9 in Hc.
      cbn [In] in Hc. repeat (destruct Hc as [<-|Hc]; [done|]). destruct Hc.
  - destruct (needsConversionToRegex (PString p)) eqn:E; [|done].
    apply needsConversionToRegex_string in E as [_ (c & Hc & Ho)].
    exfalso. apply (plain_no_meta p c Hp); [|done].
    unfold param_mark, special9 in Hc. cbn [In] in Hc.
    repeat (destruct Hc as [<-|Hc]; [done|]). destruct Hc.
  - eexists. split.
    { rewrite <- (text_literal p) at 1.
      rewrite compile_template, names_literal;
        [reflexivity|by rewrite well_formed_literal|done]. }
    intros path. unfold RegExp_test. cbn [ast].
    rewrite (test_template _ REol (fun s => String.eqb s "")) by apply matched_eol.
    rewrite accepts_fill. split.
    + intros (vals & tail & _ & _ & -> & ->%String.eqb_eq).
      by rewrite fill_literal, app_nil_r_s.
    + intros ->. exists [], EmptyString.
      by rewrite fill_literal, app_nil_r_s, names_literal.
Qed.

Lemma plain_pattern_exact_witness :
  canBeOptimized (PString "/v1.0/a-b") = true /\
  needsConversionToRegex (PString "/v1.0/a-b") = false /\
  exists re,
    patternToRegex (PString "/v1.0/a-b") false = Normal re /\
    forall path, RegExp_test re path = true <-> path = "/v1.0/a-b"%string.
Proof. apply (plain_pattern_exact "/v1.0/a-b"). reflexivity. Defined.

(** ** A wildcard at the end of a template *)

Lemma replace_param_plain tail : forall i,
  includes ":" tail = false ->
  replace_from 0 param_re param_group i tail = tail.
Proof.
  induction tail as [|c tail IH]; intros i H; [apply replace_param_nil|].
  rewrite includes_cons, startsWith_char in H. cbv iota in H.
  apply orb_false_iff in H as [Hc H].
  by rewrite replace_param_other, IH.
Qed.

Lemma ends_token_app segs tail :
  segs <> [] -> ends_token (escaped_text segs ++ tail) = ends_token (escaped_text segs).
Proof.
  destruct segs as [|[c|n] segs]; [done|..]; intros _; cbn [escaped_text].
  - unfold escaped. destruct (Ascii.eqb c "."); [done|].
    destruct (Ascii.eqb c "-"); done.
  - done.
Qed.

Lemma param_stage_tail segs tail : forall i,
  well_formed segs = true -> ends_lit segs = true ->
  includes ":" tail = false ->
  replace_from 0 param_re param_group i (escaped_text segs ++ tail) =
  (source_text segs ++ tail)%string.
Proof.
  induction segs as [|[c|n] segs IH]; intros i;
    cbn [well_formed escaped_text source_text].
  - intros _ _ H. rewrite !app_nil. by apply replace_param_plain.
  - intros [Hc Hw]%andb_true_iff He Ht. apply negb_true_iff in Hc.
    rewrite !append_assoc, replace_param_lit, IH; [done..|].
    by destruct segs.
  - intros [[[Hne Hn]%andb_true_iff Hnext]%andb_true_iff Hw]%andb_true_iff He Ht.
    apply negb_true_iff in Hnext.
    assert (n <> EmptyString) by (by destruct n).
    assert (Hsegs : segs <> []) by (by destruct segs).
    rewrite !append_assoc, app_cons, app_nil. cbn [replace_from].
    rewrite exec_param_ok; [|done|done|].
    2:{ rewrite ends_token_app by done. by apply ends_token_escaped. }
    cbn [pos caps].
    replace (S i + String.length n - i)%nat with (S (String.length n)) by lia.
    rewrite replace_from_skip by (rewrite length_app; lia).
    rewrite drop_app, IH; [|done| |done].
    + rewrite param_group_name. by rewrite !append_assoc.
    + by destruct segs.
Qed.

Lemma regexPattern_of_wild segs :
  well_formed segs = true -> ends_lit segs = true ->
  regexPattern_of (text segs ++ "*") = (source_text segs ++ "(.*)")%string.
Proof.
  intros Hw He. unfold regexPattern_of, replace_g.
  change (replaceAll "*" "(.*)" (replaceAll "-" "\-" (replaceAll "." "\." ?s)))
    with (escape_all s).
  rewrite escape_all_app, escape_all_text by done.
  change (escape_all "*") with "(.*)"%string.
  by apply param_stage_tail.
Qed.

Lemma lex_wild_source segs :
  well_formed segs = true -> ends_lit segs = true ->
  lex (regex_source (text segs ++ "*") false) =
  if forallb valid_name (names segs)
  then Normal (TAssert RBol :: tokens_of segs ++
               [TOpen (GCapture None); TAtom RAny; TQuant 0 None true; TClose;
                TAssert REol])
  else Throw SyntaxError.
Proof.
  intros Hw He. unfold lex, regex_source. rewrite regexPattern_of_wild by done.
  rewrite app_cons, app_nil, lex_bol, append_assoc, lex_source_text by done.
  change (lex_from 0 ("(.*)" ++ "$"))
    with (Normal [TOpen (GCapture None); TAtom RAny; TQuant 0 None true; TClose;
                  TAssert REol]).
  by destruct (forallb valid_name (names segs)).
Qed.

Lemma seq_of_snoc2 l a b :
  seq_of ((l ++ [a]) ++ [b]) = seq_of (l ++ [RSeq a b]).
Proof.
  induction l as [|r l IH]; [done|].
  rewrite <- !app_comm_cons, !seq_of_cons_snoc. by rewrite IH.
Qed.

Lemma parse_wild_source segs :
  parse (TAssert RBol :: tokens_of segs ++
         [TOpen (GCapture None); TAtom RAny; TQuant 0 None true; TClose;
          TAssert REol]) =
  Some (seq_of (RBol :: terms_of 1 segs ++
                  [RSeq (wild_term (1 + length (names segs))) REol])).
Proof.
  unfold parse. cbn [parse_from push_term f_kind f_idx f_alts f_seq].
  rewrite parse_tokens_of. cbn [f_kind f_idx f_alts f_seq].
  rewrite seq_of_cons_snoc.
  assert (Hq : forall rs, map fst (quantifiable rs) = rs).
  { intros rs. unfold quantifiable. rewrite map_map. apply map_id. }
  simpl. unfold body_of, close_seq; simpl.
  rewrite !map_app, map_rev, Hq, !rev_app_distr, rev_involutive; simpl.
  f_equal.
  change (node_of _) with (wild_term (S (length (names segs)))).
  rewrite <- seq_of_snoc2.
  by destruct (terms_of 1 segs).
Qed.

Lemma compile_wild segs :
  well_formed segs = true -> ends_lit segs = true ->
  forallb valid_name (names segs) = true ->
  has_dup (names segs) = false ->
  patternToRegex (PString (text segs ++ "*")) false =
  Normal (MkRegExp (regex_source (text segs ++ "*") false)
            (seq_of (RBol :: terms_of 1 segs ++
                       [RSeq (wild_term (1 + length (names segs))) REol]))).
Proof.
  intros Hw He Hv Hd. unfold patternToRegex. cbn [andb].
  unfold RegExp_new. rewrite lex_wild_source, Hv by done.
  rewrite parse_wild_source.
  change (TAssert RBol :: tokens_of segs ++ ?l)
    with ((TAssert RBol :: nil) ++ tokens_of segs ++ l)%list.
  cbn [app group_names]. rewrite group_names_tokens, Hd; [done|].
  intros t Ht. cbn [In] in Ht.
  repeat (destruct Ht as [<-|Ht]; [done|]). destruct Ht.
Qed.

Lemma existsb_end p s :
  existsb (fun j => String.eqb (drop j s) "") (seq 0 (S (run p s))) =
  (run p s =? String.length s)%nat.
Proof.
  destruct (Nat.eqb_spec (run p s) (String.length s)) as [E|E].
  - apply existsb_exists. exists (run p s). split; [apply in_seq; lia|].
    rewrite E. apply String.eqb_eq.
    clear. induction s as [|c s IH]; [done|]. exact IH.
  - destruct (existsb _ _) eqn:Hex; [|done].
    apply existsb_exists in Hex as (j & [_ Hj]%in_seq & Hd%String.eqb_eq).
    pose proof (length_drop j s) as Hl. rewrite Hd in Hl. cbn [String.length] in Hl.
    pose proof (run_le_length p s). lia.
Qed.

Lemma run_one_line s :
  (run (fun d => negb (is_line_terminator d)) s =? String.length s)%nat = one_line s.
Proof.
  induction s as [|c s IH]; [done|]. cbn [run one_line String.length].
  destruct (is_line_terminator c); cbn [negb andb]; [done|]. exact IH.
Qed.

Lemma matched_wild idx i s cs :
  matched (m (RSeq (wild_term idx) REol) (MState i s cs) Some) = one_line s.
Proof.
  unfold wild_term. cbn [m groups_of rest pos caps].
  etransitivity;
    [apply (repeat_run_matched (fun d => negb (is_line_terminator d)))|].
  { pose proof (run_le_length (fun d => negb (is_line_terminator d)) s). lia. }
  rewrite Nat.sub_0_r, <- run_one_line, <- existsb_end.
  apply existsb_same. intros j. cbn [rest]. by destruct (drop j s).
Qed.

(** X19. A template that ends with a literal character, followed by a
    [*], compiles to a matcher of the paths that start with the filled
    template and go on, to their end, with any text in which no line
    ends. *)
Theorem wildcard_matches segs :
  well_formed segs = true ->
  ends_lit segs = true ->
  forallb valid_name (names segs) = true ->
  has_dup (names segs) = false ->
  exists re,
    patternToRegex (PString (text segs ++ "*")) false = Normal re /\
    forall path,
      RegExp_test re path = true <->
      exists vals tail,
        length vals = length (names segs) /\
        forallb param_value vals = true /\
        path = (fill segs vals ++ tail)%string /\
        one_line tail = true.
Proof.
  intros Hw He Hv Hd. eexists. split; [by apply compile_wild|].
  intros path. unfold RegExp_test. cbn [ast].
  rewrite (test_template segs _ one_line) by apply matched_wild.
  apply accepts_fill.
Qed.

Lemma wildcard_matches_witness :
  exists re,
    patternToRegex (PString "/files/*") false = Normal re /\
    forall path,
      RegExp_test re path = true <->
      exists vals tail,
        length vals = 0%nat /\
        forallb param_value vals = true /\
        path = (fill (literal_segs "/files/") vals ++ tail)%string /\
        one_line tail = true.
Proof. apply (wildcard_matches (literal_segs "/files/")); reflexivity. Defined.

(** ** Media types and their parameters *)

Import RegexSplit RefAccept.

Example sep_re_source :
  RegExp_new " *; *" = Normal (MkRegExp " *; *" Accept.semi_re) /\
  RegExp_new " *= *" = Normal (MkRegExp " *= *" Accept.eq_re).
Proof. split; reflexivity. Qed.

Example split_samples :
  split_re Accept.semi_re "text/html ; q=0.8;level=1" =
    ["text/html"; "q=0.8"; "level=1"]%string /\
  split_re Accept.semi_re " a  b ;; c " = [" a  b"; ""; "c "]%string /\
  split_re Accept.semi_re "" = [""]%string /\
  split_re Accept.eq_re "q" = ["q"]%string.
Proof. by vm_compute. Qed.

Lemma drop_run_head p j : forall s,
  (j < run p s)%nat -> exists d t, drop j s = String d t /\ p d = true.
Proof.
  induction j as [|j IH]; intros [|c s]; cbn [run]; try lia.
  - destruct (p c) eqn:Hp; [|lia]. intros _. by exists c, s.
  - destruct (p c) eqn:Hp; [|lia]. intros H. apply IH. lia.
Qed.

Lemma drop_run_stop p s :
  match drop (run p s) s with
  | String d _ => p d = false
  | EmptyString => True
  end.
Proof.
  induction s as [|c s IH]; [done|]. cbn [run].
  destruct (p c) eqn:Hp; [exact IH|exact Hp].
Qed.

Lemma matched_false {A} (o : option A) : matched o = false -> o = None.
Proof. by destruct o. Qed.

(** A match of [/ *c */] at the head of [s] is the separator there. *)
Lemma exec_at_sep c i s :
  Ascii.eqb c " " = false ->
  exec_at (Accept.sep_re c) i s =
  match sep_len c s with
  | Some n => Some (MState (i + n) (drop n s) ∅)
  | None => None
  end.
Proof.
  intros Hc. unfold exec_at, Accept.sep_re, sep_len.
  cbn [m groups_of rest pos caps].
  pose proof (run_le_length is_sp s) as Hlen.
  destruct (drop (run is_sp s) s) as [|d t] eqn:Hd.
  - apply matched_false.
    etransitivity; [apply (repeat_run_matched is_sp); lia|].
    rewrite Nat.sub_0_r. apply not_true_is_false.
    intros (j & [_ Hj]%in_seq & H)%existsb_exists.
    destruct (decide (j = run is_sp s)) as [->|Hne].
    + by rewrite Hd, one_char_nil in H.
    + destruct (drop_run_head is_sp j s ltac:(lia)) as (d & t & Hjd & Hp).
      rewrite Hjd, one_char_cons in H. unfold is_sp in Hp.
      apply Ascii.eqb_eq in Hp as <-. by rewrite Hc in H.
  - destruct (Ascii.eqb c d) eqn:Hcd.
    + pose proof (run_le_length is_sp t) as Hlen'.
      assert (Hl : String.length (drop (run is_sp s) s) = S (String.length t))
        by (by rewrite Hd).
      rewrite length_drop in Hl.
      rewrite (repeat_run_greedy_k is_sp); [| lia | lia |].
      * rewrite Hd, one_char_cons, Hcd.
        rewrite (repeat_run_greedy is_sp) by (cbn [rest]; lia).
        cbn [Nat.leb]. f_equal. f_equal; [lia|].
        replace (run is_sp s + 1 + run is_sp t)%nat
          with (run is_sp s + S (run is_sp t))%nat by lia.
        by rewrite <- drop_drop, Hd.
      * rewrite Hd, one_char_cons, Hcd.
        rewrite (repeat_run_greedy is_sp) by (cbn [rest]; lia). done.
    + apply matched_false.
      etransitivity; [apply (repeat_run_matched is_sp); lia|].
      rewrite Nat.sub_0_r. apply not_true_is_false.
      intros (j & [_ Hj]%in_seq & H)%existsb_exists.
      destruct (decide (j = run is_sp s)) as [->|Hne].
      * by rewrite Hd, one_char_cons, Hcd in H.
      * destruct (drop_run_head is_sp j s ltac:(lia)) as (d' & t' & Hjd & Hp).
        rewrite Hjd, one_char_cons in H. unfold is_sp in Hp.
        apply Ascii.eqb_eq in Hp as <-. by rewrite Hc in H.
Qed.

Lemma split_from_skip r : forall j i s,
  (j <= String.length s)%nat ->
  split_from j r EmptyString i s = split_from 0 r EmptyString (i + j) (drop j s).
Proof.
  induction j as [|j IH]; intros i s Hj.
  - by rewrite Nat.add_0_r, drop_0.
  - destruct s as [|c s']; cbn [String.length] in Hj; [lia|].
    cbn [split_from drop]. rewrite IH by lia. f_equal. lia.
Qed.

Lemma sep_len_space c u :
  sep_len c (String " " u) = S <$> sep_len c u.
Proof.
  unfold sep_len. cbn [run is_sp]. change (is_sp " ") with true. cbv iota.
  change (drop (S (run is_sp u)) (String " " u)) with (drop (run is_sp u) u).
  destruct (drop (run is_sp u) u) as [|d t]; [done|].
  by destruct (Ascii.eqb c d).
Qed.

Lemma sep_len_other c d u :
  Ascii.eqb " " d = false ->
  sep_len c (String d u) =
  if Ascii.eqb c d then Some (1 + run is_sp u)%nat else None.
Proof.
  intros H. unfold sep_len. cbn [run].
  change (is_sp d) with (Ascii.eqb " " d). by rewrite H.
Qed.

Lemma sep_len_bounds c s n :
  sep_len c s = Some n -> (1 <= n <= String.length s)%nat.
Proof.
  revert n. induction s as [|d u IH]; intros n; [by unfold sep_len|].
  destruct (Ascii.eqb_spec " " d) as [<-|Hd].
  - rewrite sep_len_space. destruct (sep_len c u) as [k|]; [|done].
    intros [= <-]. specialize (IH k eq_refl). cbn [String.length]. lia.
  - rewrite sep_len_other by (by apply Ascii.eqb_neq).
    destruct (Ascii.eqb c d); [|done]. intros [= <-].
    pose proof (run_le_length is_sp u). cbn [String.length]. lia.
Qed.

Lemma sep_len_occurs c s n :
  sep_len c s = Some n -> includes (String c "") s = true.
Proof.
  revert n. induction s as [|d u IH]; intros n; [by unfold sep_len|].
  rewrite includes_cons, startsWith_char.
  destruct (Ascii.eqb_spec " " d) as [<-|Hd].
  - rewrite sep_len_space. destruct (sep_len c u) as [k|]; [|done].
    intros _. rewrite (IH k eq_refl). apply orb_true_r.
  - rewrite sep_len_other by (by apply Ascii.eqb_neq).
    by destruct (Ascii.eqb c d).
Qed.

(** One step of the split on [/ *c */]. *)
Lemma split_from_step c cur i d s' :
  Ascii.eqb c " " = false ->
  split_from 0 (Accept.sep_re c) cur i (String d s') =
  match sep_len c (String d s') with
  | Some n =>
      cur :: split_from 0 (Accept.sep_re c) EmptyString (i + n)
               (drop n (String d s'))
  | None => split_from 0 (Accept.sep_re c) (cur ++ String d "") (S i) s'
  end.
Proof.
  intros Hc. cbn [split_from]. rewrite exec_at_sep by done.
  destruct (sep_len c (String d s')) as [n|] eqn:E; [|done].
  apply sep_len_bounds in E. cbn [pos String.length] in *.
  replace (i + n - i)%nat with n by lia.
  destruct n as [|j]; [lia|]. rewrite split_from_skip by lia.
  cbn [drop]. do 2 f_equal. lia.
Qed.

Lemma split_from_plain c : forall s cur i,
  Ascii.eqb c " " = false ->
  includes (String c "") s = false ->
  split_from 0 (Accept.sep_re c) cur i s = [(cur ++ s)%string].
Proof.
  induction s as [|d s IH]; intros cur i Hc Hs.
  - by rewrite app_nil_r_s.
  - rewrite split_from_step by done.
    destruct (sep_len c (String d s)) as [n|] eqn:E.
    { apply sep_len_occurs in E. congruence. }
    rewrite includes_cons in Hs. apply orb_false_iff in Hs as [_ Hs].
    rewrite IH by done. by rewrite app_snoc_assoc.
Qed.

Lemma split_re_plain c s :
  Ascii.eqb c " " = false ->
  includes (String c "") s = false ->
  split_re (Accept.sep_re c) s = [s].
Proof.
  intros Hc Hs. destruct s as [|d s].
  - unfold split_re. by rewrite exec_at_sep.
  - unfold split_re. by rewrite split_from_plain.
Qed.

(** X20. A header without a semicolon is taken whole as the value, with
    the quality 1 and no parameter. *)
Theorem acceptParams_plain {Num} (one : Num) (parseFloat : option string -> Num)
    (str : string) :
  includes ";" str = false ->
  Accept.acceptParams one parseFloat str = Accept.Accepted (Some str) one ∅.
Proof.
  intros H. unfold Accept.acceptParams, Accept.semi_re.
  by rewrite split_re_plain.
Qed.

Lemma acceptParams_plain_witness :
  Accept.acceptParams 1%Z (fun _ => 0%Z) "text/html" =
  Accept.Accepted (Some "text/html"%string) 1%Z ∅.
Proof. apply (acceptParams_plain 1%Z (fun _ => 0%Z) "text/html"). reflexivity. Defined.

















